(** * pts-line-bisect: binary search in a line-sorted text file

    A shallow embedding of the two C sources of the repository,

    - [lbsearch-doesnotwork.c], the full command-line tool working on a
      memory-mapped file ([Module Lbsearch]), and
    - [bisect.c], the small prototype with one hard-wired query
      ([Module Bisect]),

    followed by the vocabulary of lines and of their order
    ([Module Lines]), some sample files ([Module Samples]), and the
    properties of the line resolver, of the comparator, of the bisection
    and of the exit status of the tool.

    Conventions of the embedding.

    - A byte is a [Z] in [0, 256).  The mapped file is a [list Z]; a key
      ([const char *x] together with [xsize]) is the [list Z] of its
      [xsize] bytes.
    - [char] is a signed 8-bit type (the i386 / x86-64 ABI the source is
      written for), so that reading a [char] into an [int] sign-extends:
      see [char_to_int].
    - [off_t] is a signed 64-bit integer, [unsigned long long] an unsigned
      64-bit one; the conversions and the wrap-around of the additions are
      written out ([off_t_wrap], [to_ull]).
    - A read through [yf->mmap] outside the mapped bytes is a [Fault]; the
      functions that take a [yfile *] thread the structure explicitly,
      because [yf->ofs] is written by [get_fofs] and [compare_line] and read
      back by [bisect_way]. *)

From Stdlib Require Import String Ascii ZArith List Bool Lia Permutation.
Import ListNotations.
#[local] Open Scope Z_scope.

(** ** Bytes, characters and offsets *)

Definition byte := Z.

Definition LF : byte := 10.

(** [int c = *(char * )p]: the byte seen through a signed [char]. *)
Definition char_to_int (b : byte) : Z :=
  if b <? 128 then b else b - 256.

(** Two's complement wrap-around of a signed 64-bit [off_t]. *)
Definition off_t_wrap (z : Z) : Z :=
  (z + 2 ^ 63) mod 2 ^ 64 - 2 ^ 63.

(** [z + 0ULL]: conversion of an [off_t] to [unsigned long long]. *)
Definition to_ull (z : Z) : Z := z mod 2 ^ 64.

(** No mapping is as long as 2^62 bytes: the sum of two offsets of a file
    is an [off_t]. *)
Definition max_size : Z := 2 ^ 62 - 1.

Definition bytes_of_string (s : string) : list byte :=
  map (fun a => Z.of_N (N_of_ascii a)) (list_ascii_of_string s).

(** The file whose lines are [ls], each one followed by the terminator. *)
Definition file_of_lines (ls : list string) : list byte :=
  flat_map (fun l => bytes_of_string l ++ [LF]) ls.

(** ** Outcomes of a computation that reads the mapping *)

Inductive fault : Type :=
| OutOfBounds (index : Z)   (* read of [mmap[index]] outside the mapping *)
| AssertFailed              (* [assert(ofs >= 0)] *)
| OutOfFuel.                (* loop budget of the model exhausted *)

Inductive result (A : Type) : Type :=
| Ok (a : A)
| Fault (f : fault).

Arguments Ok {A} a.
Arguments Fault {A} f.

Definition fmap_result {A B} (f : A -> B) (r : result A) : result B :=
  match r with Ok a => Ok (f a) | Fault e => Fault e end.

(** ** The full tool: lbsearch-doesnotwork.c *)

Module Lbsearch.

(** [typedef struct yfile { char *mmap; off_t size; off_t ofs; } yfile;] *)
Record yfile : Type := mk_yfile {
  mmap : list byte;
  size : Z;
  ofs : Z
}.

Definition set_ofs (yf : yfile) (o : Z) : yfile :=
  {| mmap := mmap yf; size := size yf; ofs := o |}.

(** What [yfopen] establishes when [mmap] succeeds: [size] is the length of
    the mapping, which is made of bytes and not longer than [max_size]. *)
Definition yfile_okb (yf : yfile) : bool :=
  (size yf =? Z.of_nat (length (mmap yf)))
  && (size yf <=? max_size)
  && forallb (fun b => (0 <=? b) && (b <? 256)) (mmap yf).

Definition yfile_ok (yf : yfile) : Prop := yfile_okb yf = true.

(** A computation on a [yfile *]: it may fault, and otherwise returns a
    value together with the updated structure. *)
Definition M (A : Type) : Type := yfile -> result (A * yfile).

Definition ret {A} (a : A) : M A := fun yf => Ok (a, yf).

Definition bind {A B} (m : M A) (k : A -> M B) : M B :=
  fun yf => match m yf with
            | Ok (a, yf') => k a yf'
            | Fault e => Fault e
            end.

Definition fail {A} (e : fault) : M A := fun _ => Fault e.

Notation "x <- m ;; k" := (bind m (fun x => k))
  (at level 61, m at next level, right associativity).

(** The value of a computation, forgetting the final structure. *)
Definition value {A} (r : result (A * yfile)) : result A :=
  fmap_result fst r.

(** [*(yf->mmap + i)], as the [int] it is assigned to. *)
Definition read (yf : yfile) (i : Z) : result Z :=
  if i <? 0 then Fault (OutOfBounds i)
  else match nth_error (mmap yf) (Z.to_nat i) with
       | Some b => Ok (char_to_int b)
       | None => Fault (OutOfBounds i)
       end.

Definition yfgetsize (yf : yfile) : Z := size yf.

(** The [do { c = *(yf->mmap + ofs); ++ofs; } while (c != '\n');] loop of
    [get_fofs].  [rest] is the mapping from [yf->mmap + ofs] on; when it is
    used up the next read is outside the mapping. *)
Fixpoint get_fofs_loop (rest : list byte) (ofs : Z) : result Z :=
  match rest with
  | [] => Fault (OutOfBounds ofs)
  | b :: rest' =>
      let c := char_to_int b in
      let ofs := off_t_wrap (ofs + 1) in
      if c =? LF then Ok ofs else get_fofs_loop rest' ofs
  end.

(** [off_t get_fofs(yfile *yf, off_t ofs)], with [assert(ofs >= 0)]
    checked. *)
Definition get_fofs (ofs : Z) : M Z := fun yf =>
  if ofs <? 0 then Fault AssertFailed
  else if ofs =? 0 then Ok (0, yf)
  else
    let size := size yf in
    if ofs >? size then Ok (size, yf)
    else
      let ofs := off_t_wrap (ofs - 1) in
      let yf := set_ofs yf ofs in
      match get_fofs_loop (skipn (Z.to_nat ofs) (mmap yf)) ofs with
      | Ok r => Ok (r, yf)
      | Fault e => Fault e
      end.

Inductive compare_mode_t : Type :=
| CM_LE     (* True iff x <= y (where y is read from the file). *)
| CM_LT     (* True iff x < y. *)
| CM_LP     (* x* < y, where x* is x + a fake byte 256 and the end. *)
| CM_UNSET. (* Not set yet. *)

Definition cm_eqb (a b : compare_mode_t) : bool :=
  match a, b with
  | CM_LE, CM_LE | CM_LT, CM_LT | CM_LP, CM_LP | CM_UNSET, CM_UNSET => true
  | _, _ => false
  end.

(** The [for (;;)] loop of [compare_line].  Every round reads
    [*(yf->mmap + yf->ofs)] again: the source advances [x] and [xsize] but
    leaves [yf->ofs] where it is. *)
Fixpoint compare_line_loop (yf : yfile) (x : list byte) (cm : compare_mode_t)
  : result bool :=
  match read yf (ofs yf) with
  | Fault e => Fault e
  | Ok c =>
      if (c <? 0) || (c =? LF) then
        Ok (if cm_eqb cm CM_LE then (Z.of_nat (length x) =? 0) else false)
      else
        match x with
        | [] => Ok (negb (cm_eqb cm CM_LP))
        | b :: x' =>
            if negb (b =? c) then Ok (b <? c)
            else compare_line_loop yf x' cm
        end
  end.

(** [ybool compare_line(yfile *yf, off_t fofs, const char *x, size_t xsize,
    compare_mode_t cm)] *)
Definition compare_line (fofs : Z) (x : list byte) (cm : compare_mode_t)
  : M bool := fun yf =>
  let yf := set_ofs yf fofs in
  if ofs yf =? size yf then Ok (true, yf)
  else match compare_line_loop yf x cm with
       | Ok r => Ok (r, yf)
       | Fault e => Fault e
       end.

(** The [do ... while (lo < hi)] loop of [bisect_way] together with the
    [return] that follows it.  Every round makes [hi - lo] smaller, so
    [fuel] rounds are enough when [fuel >= hi - lo]. *)
Fixpoint bisect_way_loop (fuel : nat) (lo hi : Z) (x : list byte)
  (cm : compare_mode_t) : M Z :=
  match fuel with
  | O => fail OutOfFuel
  | S fuel' =>
      let mid := Z.shiftr (off_t_wrap (lo + hi)) 1 in
      fofs <- get_fofs mid ;;
      cmp_result <- compare_line fofs x cm ;;
      let midf := fofs in
      let hi' := if cmp_result : bool then mid else hi in
      let lo' := if cmp_result : bool then lo else off_t_wrap (mid + 1) in
      if lo' <? hi' then bisect_way_loop fuel' lo' hi' x cm
      else if mid =? lo' then ret midf
      else get_fofs lo'
  end.

(** [off_t bisect_way(yfile *yf, off_t lo, off_t hi, const char *x,
    size_t xsize, compare_mode_t cm)] *)
Definition bisect_way (lo hi : Z) (x : list byte) (cm : compare_mode_t)
  : M Z := fun yf =>
  let size := yfgetsize yf in
  let hi := if to_ull hi >? to_ull size then size else hi in
  let xsize := Z.of_nat (length x) in
  let hi := if (xsize =? 0) && cm_eqb cm CM_LE then lo else hi in
  if (xsize =? 0) && cm_eqb cm CM_LP && (hi =? size) then Ok (hi, yf)
  else if lo >=? hi then Ok (ofs yf, yf)
  else bisect_way_loop (Z.to_nat (hi - lo)) lo hi x cm yf.

(** [memcmp]-equality of two keys of the same length. *)
Fixpoint bytes_eqb (x y : list byte) : bool :=
  match x, y with
  | [], [] => true
  | a :: x', b :: y' => (a =? b) && bytes_eqb x' y'
  | _, _ => false
  end.

(** [void bisect_interval(yfile *yf, off_t lo, off_t hi, compare_mode_t cm,
    x, xsize, y, ysize, off_t *start_out, off_t *end_out)] *)
Definition bisect_interval (lo hi : Z) (cm : compare_mode_t)
  (x y : list byte) : M (Z * Z) :=
  start <- bisect_way lo hi x CM_LE ;;
  if cm_eqb cm CM_LE && (Z.of_nat (length x) =? Z.of_nat (length y))
     && bytes_eqb x y
  then ret (start, start)
  else
    end_ <- bisect_way start hi y cm ;;
    ret (start, end_).


(** *** [main] and its collaborators *)

Inductive printing_t : Type :=
| PR_OFFSETS
| PR_CONTENTS
| PR_DETECT
| PR_UNSET.

Inductive incomplete_t : Type :=
| IN_IGNORE  (* Ignore incomplete last line of file. *)
| IN_USE     (* Use incomplete last line of file as if it had a trailing LF. *)
| IN_UNSET.  (* Not set yet. *)

Definition pr_eqb (a b : printing_t) : bool :=
  match a, b with
  | PR_OFFSETS, PR_OFFSETS | PR_CONTENTS, PR_CONTENTS
  | PR_DETECT, PR_DETECT | PR_UNSET, PR_UNSET => true
  | _, _ => false
  end.

Definition in_eqb (a b : incomplete_t) : bool :=
  match a, b with
  | IN_IGNORE, IN_IGNORE | IN_USE, IN_USE | IN_UNSET, IN_UNSET => true
  | _, _ => false
  end.

(** How the process ends: [exit(code)] (or [return code] from [main]) after
    having written [out] to standard output, or a crash on a fault. *)
Inductive outcome : Type :=
| Exit (code : Z) (out : list byte)
| Crash (f : fault).

Definition exit_code (o : outcome) : option Z :=
  match o with Exit c _ => Some c | Crash _ => None end.

(** [die5_code(msg1, ..., msg5, exit_code)]: the messages go to standard
    error, then [exit(exit_code)]; [out] is what standard output received
    before. *)
Definition die5_code (out : list byte) (msgs : list string) (code : Z)
  : outcome :=
  Exit code out.

(** [die2_strerror] and [die1] both end in [die5_code(..., 2)]. *)
Definition die2_strerror (out : list byte) (msg1 msg2 : string) : outcome :=
  die5_code out [msg1; msg2; ": "; "strerror(errno)"; "LF"]%string 2.

Definition die1 (out : list byte) (msg1 : string) : outcome :=
  die5_code out [msg1; EmptyString; EmptyString; EmptyString; "LF"]%string 2.

(** [usage_error(argv0, msg)] ends in [die5_code(..., 1)]. *)
Definition usage_error (argv0 msg : string) : outcome :=
  die5_code []
    ["Usage: "; argv0; "-<flags> <sorted-text-file> <key-x> [<key-y>]";
     msg; "LF"]%string 1.

(** What the operating system answers to [yfopen]'s calls on a path name.
    A failing [mmap] returns [MAP_FAILED], which is [(void * )-1] and not a
    null pointer: the test [if (!m)] of [yfopen] never fires, and the run
    goes on with a pointer that does not lead to the file; the structure
    then has no byte to read.  An empty file is such a case: [lseek] gives
    0 and [mmap] refuses the length 0, so that [Mapped []] and
    [MapFailed 0] are one answer. *)
Inductive open_result : Type :=
| OpenFails                   (* [open] returns a negative descriptor *)
| NotSeekable                 (* [lseek] fails with [ESPIPE] *)
| SeekFails                   (* [lseek] fails with another error *)
| MapFailed (size : Z)        (* [lseek] gave [size], [mmap] fails *)
| Mapped (bytes : list byte). (* the file is mapped, [lseek] gave its length *)

(** What [write(STDOUT_FILENO, buf, size)] returns: the number of bytes
    written, or -1. *)
Inductive write_result : Type :=
| Written (got : nat)
| WriteError.

(** The environment of one run of the tool.  [write_stdout] answers a
    [write] of bytes that can all be read.  [write_outside mem size] answers
    a [write] of [size] bytes from a pointer at which only the bytes [mem]
    are known to be readable, [size] being more than these or the pointer
    lying outside the mapping: -1 ([None]), or the bytes it wrote, whose
    number it returns.  [yff_ofs] is the value
    found in the field [ofs] of the automatic variable [yff] of [main],
    which [yfopen] does not assign. *)
Record world : Type := mk_world {
  open_file : string -> open_result;
  write_stdout : list byte -> write_result;
  write_outside : list byte -> Z -> option (list byte);
  yff_ofs : Z
}.

(** [yfopen(yf, pathname, (off_t)-1)]: the opened structure, or the way the
    process dies. *)
Definition yfopen (w : world) (pathname : string) : outcome + yfile :=
  match open_file w pathname with
  | OpenFails => inl (die2_strerror [] "error: open " pathname)
  | NotSeekable =>
      inl (die1 [] "error: input not seekable, cannot binary search")
  | SeekFails => inl (die2_strerror [] "error: lseek end" EmptyString)
  | MapFailed n =>
      (* [m] is [MAP_FAILED], [!m] is false *)
      inr {| mmap := []; size := n; ofs := yff_ofs w |}
  | Mapped bytes =>
      inr {| mmap := bytes; size := Z.of_nat (length bytes); ofs := yff_ofs w |}
  end.

(** What a [const char *buf] points at: the bytes that can be read there,
    or nothing the model knows of. *)
Inductive buffer : Type :=
| At (mem : list byte)
| Wild.

(** [write(STDOUT_FILENO, buf, size)]: the value returned, as the [size_t]
    it is assigned to, and the bytes written. *)
Definition sys_write (w : world) (buf : buffer) (size : Z)
  : Z * list byte :=
  let outside (mem : list byte) :=
    match write_outside w mem size with
    | Some out => (Z.of_nat (length out), out)
    | None => (to_ull (-1), [])
    end in
  match buf with
  | At mem =>
      if size <=? Z.of_nat (length mem) then
        let bytes := firstn (Z.to_nat size) mem in
        match write_stdout w bytes with
        | Written got => (Z.of_nat got, firstn got bytes)
        | WriteError => (to_ull (-1), [])
        end
      else outside mem
  | Wild => outside []
  end.

(** [write_all_to_stdout(buf, size)], continued by [k] when [got == size];
    [size] is a [size_t]. *)
Definition write_all_to_stdout (w : world) (buf : buffer) (size : Z)
  (k : list byte -> outcome) : outcome :=
  let '(got, out) := sys_write w buf size in
  if got =? size then k out
  else if to_ull (got + 1) =? 0 then
    die2_strerror out "error: write stdout" EmptyString
  else die1 out "error: short write".

(** [yf->mmap + start]: a pointer into the mapping, or to its end; wild
    when [start] lies outside of it, and when there is no mapping, [mmap]
    having failed. *)
Definition readable_from (yf : yfile) (start : Z) : buffer :=
  match mmap yf with
  | [] => Wild
  | _ :: _ =>
      if (0 <=? start) && (start <=? Z.of_nat (length (mmap yf)))
      then At (skipn (Z.to_nat start) (mmap yf))
      else Wild
  end.

(** [print_range(yf, start, end)] hands [yf->mmap + start] and
    [end - start], converted to [size_t], to [write_all_to_stdout]. *)
Definition print_range (w : world) (yf : yfile) (start end_ : Z)
  (k : list byte -> outcome) : outcome :=
  write_all_to_stdout w (readable_from yf start)
    (to_ull (off_t_wrap (end_ - start))) k.

(** The digits of [format_unsigned], least significant first. *)
Fixpoint format_digits (fuel : nat) (i : Z) : list byte :=
  match fuel with
  | O => []
  | S fuel' =>
      let d := 48 + i mod 10 in
      let i := i / 10 in
      if i =? 0 then [d] else d :: format_digits fuel' i
  end.

(** [format_unsigned(p, i)]: the decimal digits of [i]; [assert(i >= 0)]. *)
Definition format_unsigned (i : Z) : result (list byte) :=
  if i <? 0 then Fault AssertFailed
  else Ok (rev (format_digits (S (Z.to_nat (Z.log2 i))) i)).

(** The flags collected by the loop over [argv[1] + 1]. *)
Record flags_t : Type := mk_flags {
  cm : compare_mode_t;
  cmstart : compare_mode_t;
  printing : printing_t;
  incomplete : incomplete_t
}.

Definition flags_unset : flags_t :=
  {| cm := CM_UNSET; cmstart := CM_UNSET;
     printing := PR_UNSET; incomplete := IN_UNSET |}.

Definition set_cm (f : flags_t) (v : compare_mode_t) : flags_t :=
  {| cm := v; cmstart := cmstart f;
     printing := printing f; incomplete := incomplete f |}.

Definition set_cmstart (f : flags_t) (v : compare_mode_t) : flags_t :=
  {| cm := cm f; cmstart := v;
     printing := printing f; incomplete := incomplete f |}.

Definition set_printing (f : flags_t) (v : printing_t) : flags_t :=
  {| cm := cm f; cmstart := cmstart f;
     printing := v; incomplete := incomplete f |}.

Definition set_incomplete (f : flags_t) (v : incomplete_t) : flags_t :=
  {| cm := cm f; cmstart := cmstart f;
     printing := printing f; incomplete := v |}.

(** [for (p = flags; (flag = *p); ++p) { ... }]: the flags, or the message
    of the usage error. *)
Fixpoint parse_flags (p : string) (f : flags_t) : string + flags_t :=
  match p with
  | EmptyString => inr f
  | String flag p' =>
      if (flag =? "000")%char then inr f
      else if (flag =? "e")%char then
        if negb (cm_eqb (cm f) CM_UNSET) then inl "multiple boundary flags"%string
        else parse_flags p' (set_cm f CM_LE)
      else if (flag =? "t")%char then
        if negb (cm_eqb (cm f) CM_UNSET) then inl "multiple boundary flags"%string
        else parse_flags p' (set_cm f CM_LT)
      else if (flag =? "p")%char then
        if negb (cm_eqb (cm f) CM_UNSET) then inl "multiple boundary flags"%string
        else parse_flags p' (set_cm f CM_LP)
      else if (flag =? "b")%char then
        if negb (cm_eqb (cmstart f) CM_UNSET) then inl "multiple start flags"%string
        else parse_flags p' (set_cmstart f CM_LE)
      else if (flag =? "a")%char then
        if negb (cm_eqb (cmstart f) CM_UNSET) then inl "multiple start flags"%string
        else parse_flags p' (set_cmstart f CM_LT)
      else if (flag =? "o")%char then
        if negb (pr_eqb (printing f) PR_UNSET) then inl "multiple printing flags"%string
        else parse_flags p' (set_printing f PR_OFFSETS)
      else if (flag =? "c")%char then
        if negb (pr_eqb (printing f) PR_UNSET) then inl "multiple printing flags"%string
        else parse_flags p' (set_printing f PR_CONTENTS)
      else if (flag =? "q")%char then
        if negb (pr_eqb (printing f) PR_UNSET) then inl "multiple printing flags"%string
        else parse_flags p' (set_printing f PR_DETECT)
      else if (flag =? "i")%char then
        if negb (in_eqb (incomplete f) IN_UNSET) then inl "multiple incomplete flags"%string
        else parse_flags p' (set_incomplete f IN_IGNORE)
      else inl "unsupported flag"%string
  end.

(** [for (p = x; *p && *p != '\n'; ++p) {}  xsize = p - x;]: the bytes of
    the argument before its first line terminator. *)
Fixpoint key_of_arg (s : list byte) : list byte :=
  match s with
  | [] => []
  | c :: s' => if (c =? 0) || (c =? LF) then [] else c :: key_of_arg s'
  end.

(** The defaults applied after the loop over the flags. *)
Definition apply_defaults (f : flags_t) : flags_t :=
  let f := if pr_eqb (printing f) PR_UNSET then set_printing f PR_CONTENTS else f in
  let f := if in_eqb (incomplete f) IN_UNSET then set_incomplete f IN_USE else f in
  if cm_eqb (cmstart f) CM_UNSET then set_cmstart f CM_LE else f.

(** The command line once parsed and checked. *)
Record config : Type := mk_config {
  cf_flags : flags_t;
  cf_filename : string;
  cf_x : list byte;
  cf_y : option (list byte)   (* [None] is [y == NULL] *)
}.

(** The part of [main] before [yfopen]: the parsed command line, or the
    message of the usage error. *)
Definition parse_command_line (argv : list string) : string + config :=
  let argc := length argv in
  if negb (Nat.eqb argc 4) && negb (Nat.eqb argc 5) then
    inl "incorrect argument count"%string
  else
    let arg1 := nth 1%nat argv EmptyString in
    match arg1 with
    | String "-" flags =>
        let filename := nth 2%nat argv EmptyString in
        let x := key_of_arg (bytes_of_string (nth 3%nat argv EmptyString)) in
        let y := if Nat.eqb argc 4 then None
                 else Some (key_of_arg (bytes_of_string (nth 4%nat argv EmptyString))) in
        match parse_flags flags flags_unset with
        | inl msg => inl msg
        | inr f =>
            let f := apply_defaults f in
            let no_y := match y with None => true | Some _ => false end in
            if cm_eqb (cm f) CM_UNSET then inl "missing boundary flag"%string
            else if cm_eqb (cmstart f) CM_LT
                    && negb (no_y && cm_eqb (cm f) CM_LE
                             && pr_eqb (printing f) PR_OFFSETS) then
              inl "flag -a needs -eo and no <key-y>"%string
            else if no_y && negb (pr_eqb (printing f) PR_OFFSETS)
                    && cm_eqb (cm f) CM_LE then
              inl "single-key contents is always empty"%string
            else
              inr {| cf_flags := f; cf_filename := filename;
                     cf_x := x; cf_y := y |}
        end
    | _ => inl "missing flags"%string
    end.

(** Finishing the process from a computation on the opened file. *)
Definition run {A} (m : M A) (yf : yfile) (k : A -> yfile -> outcome)
  : outcome :=
  match m yf with
  | Ok (a, yf') => k a yf'
  | Fault e => Crash e
  end.

(** The three branches of [main] after [yfopen].  Each one ends with
    [yfclose], which unmaps the file after the last read and is left out. *)

(** First branch: one boundary, printed as an offset. *)
Definition main_single_offset (w : world) (yf : yfile) (x : list byte)
  (cmstart : compare_mode_t) : outcome :=
  run (bisect_way 0 (-1) x cmstart) yf (fun start _ =>
    match format_unsigned start with
    | Fault e => Crash e
    | Ok digits =>
        let ofsbuf := digits ++ [LF] in
        write_all_to_stdout w (At ofsbuf) (Z.of_nat (length ofsbuf))
          (fun out => Exit 0 out)
    end).

(** Second branch: the shortcut that only detects whether [x] is present. *)
Definition main_detect (yf : yfile) (x : list byte) (cm : compare_mode_t)
  : outcome :=
  if cm_eqb cm CM_LE then Exit 3 []
  else
    run (start <- bisect_way 0 (-1) x CM_LE ;;
         fofs <- get_fofs start ;;
         compare_line fofs x cm) yf (fun cmp_result _ =>
      if cmp_result : bool then Exit 3 [] else Exit 0 []).

(** Third branch: the general path through [bisect_interval]. *)
Definition main_interval (w : world) (yf : yfile) (cm : compare_mode_t)
  (printing : printing_t) (x y : list byte) : outcome :=
  run (bisect_interval 0 (-1) cm x y) yf (fun se yf' =>
    let '(start, end_) := se in
    let finish (out : list byte) :=
      if start >=? end_ then Exit 3 out else Exit 0 out in
    match printing with
    | PR_CONTENTS => print_range w yf' start end_ finish
    | PR_OFFSETS =>
        match format_unsigned start, format_unsigned end_ with
        | Ok ds, Ok de =>
            let ofsbuf := ds ++ [32] ++ de ++ [LF] in
            write_all_to_stdout w (At ofsbuf) (Z.of_nat (length ofsbuf))
              finish
        | Fault e, _ => Crash e
        | _, Fault e => Crash e
        end
    | _ => finish []
    end).

Definition option_bytes_eqb (x : list byte) (y : option (list byte)) : bool :=
  match y with
  | None => true
  | Some y =>
      (Z.of_nat (length x) =? Z.of_nat (length y)) && bytes_eqb x y
  end.

(** The part of [main] from [yfopen] on. *)
Definition main_search (w : world) (c : config) : outcome :=
  match yfopen w (cf_filename c) with
  | inl died => died
  | inr yf =>
      let f := cf_flags c in
      let no_y := match cf_y c with None => true | Some _ => false end in
      if no_y && cm_eqb (cm f) CM_LE && pr_eqb (printing f) PR_OFFSETS then
        main_single_offset w yf (cf_x c) (cmstart f)
      else if pr_eqb (printing f) PR_DETECT
              && option_bytes_eqb (cf_x c) (cf_y c) then
        main_detect yf (cf_x c) (cm f)
      else
        let y := match cf_y c with None => cf_x c | Some y => y end in
        main_interval w yf (cm f) (printing f) (cf_x c) y
  end.

(** [int main(int argc, char **argv)] *)
Definition main (argv : list string) (w : world) : outcome :=
  match parse_command_line argv with
  | inl msg => usage_error (nth 0%nat argv EmptyString) msg
  | inr c => main_search w c
  end.

End Lbsearch.

(** ** The prototype: bisect.c

    The prototype works on [char *file] and [size_t size] directly and keeps
    no cursor.  Its [get_fofs] prints the line it resolved to, so its
    functions return the printed text next to their value.  Its [main] maps
    one fixed file, makes one call of [bisect_way] and drops the result; it
    is not modelled. *)

Module Bisect.

Definition to_u32 (z : Z) : Z := z mod 2 ^ 32.

(** A value together with the text printed on standard output. *)
Definition P (A : Type) : Type := result (A * list byte).

Definition pret {A} (a : A) : P A := Ok (a, []).

Definition pbind {A B} (m : P A) (k : A -> P B) : P B :=
  match m with
  | Ok (a, out) =>
      match k a with
      | Ok (b, out') => Ok (b, out ++ out')
      | Fault e => Fault e
      end
  | Fault e => Fault e
  end.

Notation "x <- m ;; k" := (pbind m (fun x => k))
  (at level 61, m at next level, right associativity).

(** [*(file + i)] read into an [int]. *)
Definition read (file : list byte) (i : Z) : result Z :=
  if i <? 0 then Fault (OutOfBounds i)
  else match nth_error file (Z.to_nat i) with
       | Some b => Ok (char_to_int b)
       | None => Fault (OutOfBounds i)
       end.

(** [strcspn(file + ofs, "\n")]: the number of bytes before the first
    terminator or NUL; [rest] is the mapping from [file + ofs + i] on. *)
Fixpoint strcspn_lf (rest : list byte) (ofs i : Z) : result Z :=
  match rest with
  | [] => Fault (OutOfBounds (ofs + i))
  | b :: rest' =>
      if (b =? 0) || (b =? LF) then Ok i else strcspn_lf rest' ofs (i + 1)
  end.

(** The [for (;;)] loop of [get_fofs]; [rest] is the mapping from
    [file + ofs] on. *)
Fixpoint get_fofs_loop (rest : list byte) (size ofs : Z) : P Z :=
  if to_ull size =? to_ull ofs then Ok (ofs, [])
  else
    match rest with
    | [] => Fault (OutOfBounds ofs)
    | b :: rest' =>
        let c := char_to_int b in
        let ofs := off_t_wrap (ofs + 1) in
        if c =? LF then
          match strcspn_lf rest' ofs 0 with
          | Ok i => Ok (ofs, firstn (Z.to_nat i) rest' ++ [LF])
          | Fault e => Fault e
          end
        else get_fofs_loop rest' size ofs
    end.

(** [static off_t get_fofs(char *file, size_t size, off_t ofs)] *)
Definition get_fofs (file : list byte) (size ofs : Z) : P Z :=
  if ofs <? 0 then Fault AssertFailed
  else if ofs =? 0 then Ok (0, [])
  else if to_ull ofs >? to_ull size then Ok (size, [])
  else
    let ofs := off_t_wrap (ofs - 1) in
    get_fofs_loop (skipn (Z.to_nat ofs) file) size ofs.

(** The [for (;;)] loop of [compare_line]; here [fofs] does advance. *)
Fixpoint compare_line_loop (file : list byte) (fofs : Z) (x : list byte)
  : result bool :=
  match read file fofs with
  | Fault e => Fault e
  | Ok ci =>
      let c := to_u32 ci in
      if c =? LF then Ok true
      else
        match x with
        | [] => Ok false
        | b :: x' =>
            if negb (b =? c) then Ok (b <? c)
            else compare_line_loop file (off_t_wrap (fofs + 1)) x'
        end
  end.

(** [static bool compare_line(char *file, size_t size, off_t fofs,
    const char *x, size_t xsize)] *)
Definition compare_line (file : list byte) (size fofs : Z) (x : list byte)
  : result bool :=
  if to_ull fofs =? to_ull size then Ok true
  else compare_line_loop file fofs x.

(** The [do ... while (lo < hi)] loop of [bisect_way] and the [return]
    after it.  The comparison is made at [mid], not at [midf]. *)
Fixpoint bisect_way_loop (fuel : nat) (file : list byte) (size lo hi : Z)
  (x : list byte) : P Z :=
  match fuel with
  | O => Fault OutOfFuel
  | S fuel' =>
      let mid := Z.shiftr (off_t_wrap (lo + hi)) 1 in
      midf <- get_fofs file size mid ;;
      match compare_line file size mid x with
      | Fault e => Fault e
      | Ok r =>
          let hi' := if r : bool then mid else hi in
          let lo' := if r : bool then lo else off_t_wrap (mid + 1) in
          if lo' <? hi' then bisect_way_loop fuel' file size lo' hi' x
          else if mid =? lo' then pret midf
          else get_fofs file size lo'
      end
  end.

(** [static off_t bisect_way(char *file, size_t size, off_t lo, off_t hi,
    const char *x, size_t xsize)] *)
Definition bisect_way (file : list byte) (size lo hi : Z) (x : list byte)
  : P Z :=
  let hi := if to_ull hi >? to_ull size then size else hi in
  if (Z.of_nat (length x) =? 0) && (to_ull hi =? to_ull size) then pret hi
  else if lo >=? hi then get_fofs file size lo
  else bisect_way_loop (Z.to_nat (hi - lo)) file size lo hi x.

End Bisect.

(** ** Lines, their order, and what a query asks for

    The vocabulary of the properties below: the line starts of a mapped
    file, the line found at an offset, the byte-wise lexicographic order,
    and the three relations of the comparison modes. *)

Module Lines.

Import Lbsearch.

(** The bytes of [l] before its first terminator. *)
Fixpoint until_lf (l : list byte) : list byte :=
  match l with
  | [] => []
  | b :: l' => if b =? LF then [] else b :: until_lf l'
  end.

(** The line that begins at offset [f], without its terminator. *)
Definition line_at (yf : yfile) (f : Z) : list byte :=
  until_lf (skipn (Z.to_nat f) (mmap yf)).

Definition byte_at (yf : yfile) (i : Z) : option byte :=
  if i <? 0 then None else nth_error (mmap yf) (Z.to_nat i).

Definition byte_is (yf : yfile) (i : Z) (b : byte) : bool :=
  match byte_at yf i with Some c => c =? b | None => false end.

(** [f] begins a line: it is 0 or follows a terminator. *)
Definition is_bol (yf : yfile) (f : Z) : bool :=
  (f =? 0) || byte_is yf (f - 1) LF.

(** The offsets at which the lines of the file begin, in increasing order. *)
Definition line_starts (yf : yfile) : list Z :=
  filter (is_bol yf) (map Z.of_nat (seq 0 (length (mmap yf)))).

(** The file is not empty and its last line is complete. *)
Definition terminated (yf : yfile) : bool :=
  byte_is yf (size yf - 1) LF.

(** Byte-wise lexicographic order, [a <= b] and [a < b]. *)
Fixpoint lex_leb (a b : list byte) : bool :=
  match a, b with
  | [], _ => true
  | _ :: _, [] => false
  | x :: a', y :: b' => (x <? y) || ((x =? y) && lex_leb a' b')
  end.

Fixpoint lex_ltb (a b : list byte) : bool :=
  match a, b with
  | _, [] => false
  | [], _ :: _ => true
  | x :: a', y :: b' => (x <? y) || ((x =? y) && lex_ltb a' b')
  end.

(** [p] is a prefix of [l]. *)
Fixpoint prefixb (p l : list byte) : bool :=
  match p, l with
  | [], _ => true
  | _ :: _, [] => false
  | x :: p', y :: l' => (x =? y) && prefixb p' l'
  end.

(** The lines of the file are in ascending order. *)
Definition sorted_lines (yf : yfile) : bool :=
  forallb (fun f1 =>
    forallb (fun f2 =>
      implb (f1 <=? f2) (lex_leb (line_at yf f1) (line_at yf f2)))
      (line_starts yf))
    (line_starts yf).

(** What each mode asks of a key [k] and a line [l], after the comments of
    [compare_mode_t]: [k <= l], [k < l], and [k* < l] where [k*] is [k]
    followed by a fake byte 256. *)
Definition key_rel (cm : compare_mode_t) (k l : list byte) : bool :=
  match cm with
  | CM_LE => lex_leb k l
  | CM_LP => lex_ltb (k ++ [256]) l
  | _ => lex_ltb k l
  end.

(** On every line of the file, [compare_line] answers what the mode asks. *)
Definition comparator_exact (yf : yfile) (k : list byte)
  (cm : compare_mode_t) : bool :=
  forallb (fun f =>
    match value (compare_line f k cm yf) with
    | Ok v => Bool.eqb v (key_rel cm k (line_at yf f))
    | Fault _ => false
    end) (line_starts yf).

(** The lines below the upper key [y] of an interval query: an open end
    under [CM_LE], a closed end under [CM_LT], and under [CM_LP] the lines
    below [y] together with those that [y] is a prefix of. *)
Definition below_end (cm : compare_mode_t) (l y : list byte) : bool :=
  match cm with
  | CM_LE => lex_ltb l y
  | CM_LP => lex_ltb l y || prefixb y l
  | _ => lex_leb l y
  end.

(** The lines an interval query [x], [y] under [cm] is meant to select. *)
Definition selected (cm : compare_mode_t) (x y l : list byte) : bool :=
  lex_leb x l && below_end cm l y.

(** The selection as the specification words it: [CM_LT] has the open end
    and [CM_LE] the closed one, and [CM_LP] selects the lines with prefix
    [y] only. *)
Definition selected_as_specified (cm : compare_mode_t) (x y l : list byte)
  : bool :=
  lex_leb x l &&
  match cm with
  | CM_LE => lex_leb l y
  | CM_LP => prefixb y l
  | _ => lex_ltb l y
  end.

(** The interval [se] as the specification words it: its line starts are
    those of the lines selected in that reading, and it is empty, with both
    ends equal, exactly when no line is selected. *)
Definition interval_as_specified (yf : yfile) (cm : compare_mode_t)
  (x y : list byte) (se : Z * Z) : Prop :=
  (forall f, In f (line_starts yf) ->
     (fst se <= f < snd se <->
      selected_as_specified cm x y (line_at yf f) = true)) /\
  (fst se = snd se <->
   forall f, In f (line_starts yf) ->
     selected_as_specified cm x y (line_at yf f) = false).

(** Every byte of the file is below 128. *)
Definition ascii_only (yf : yfile) : bool :=
  forallb (fun b => (0 <=? b) && (b <? 128)) (mmap yf).

(** The line start that [get_fofs] resolves an offset to. *)
Definition next_bol (yf : yfile) (o : Z) : Z :=
  match value (get_fofs o yf) with
  | Ok f => f
  | Fault _ => size yf
  end.

(** The verdict of [compare_line] on the line at [f]. *)
Definition verdict (yf : yfile) (x : list byte) (cm : compare_mode_t)
  (f : Z) : bool :=
  match value (compare_line f x cm yf) with
  | Ok v => v
  | Fault _ => false
  end.

(** One probe of the bisection: the verdict at the line an offset resolves
    to. *)
Definition probe (yf : yfile) (x : list byte) (cm : compare_mode_t)
  (o : Z) : bool :=
  verdict yf x cm (next_bol yf o).

(** Once accepted, always accepted further down the file. *)
Definition monotone_verdict (yf : yfile) (x : list byte)
  (cm : compare_mode_t) : Prop :=
  forall f1 f2,
    is_bol yf f1 = true -> is_bol yf f2 = true ->
    0 <= f1 <= f2 -> f2 <= size yf ->
    verdict yf x cm f1 = true -> verdict yf x cm f2 = true.

(** [b] is the first line start from [lo] on that the comparator accepts;
    the end of the file is accepted. *)
Definition boundary (yf : yfile) (x : list byte) (cm : compare_mode_t)
  (lo b : Z) : Prop :=
  lo <= b <= size yf /\
  is_bol yf b = true /\
  forall f, is_bol yf f = true -> lo <= f <= size yf ->
    (b <= f <-> verdict yf x cm f = true).

(** The file [yf] with the byte at offset [i] replaced by [b]. *)
Definition poke (yf : yfile) (i : Z) (b : byte) : yfile :=
  {| mmap := firstn (Z.to_nat i) (mmap yf)
             ++ b :: skipn (S (Z.to_nat i)) (mmap yf);
     size := size yf;
     ofs := ofs yf |}.

(** The answer of the loop of [compare_line] when the byte it reads, and
    reads again on every round, is [c]. *)
Fixpoint byte_verdict (c : Z) (x : list byte) (cm : compare_mode_t) : bool :=
  if (c <? 0) || (c =? LF) then
    if cm_eqb cm CM_LE then Z.of_nat (length x) =? 0 else false
  else
    match x with
    | [] => negb (cm_eqb cm CM_LP)
    | b :: x' => if negb (b =? c) then b <? c else byte_verdict c x' cm
    end.

End Lines.

(** ** Sample files and environments *)

Module Samples.

Import Lbsearch.

(** The structure [yfopen] builds for a file of the given bytes, with [g]
    in the field it leaves unassigned. *)
Definition yfile_of (bytes : list byte) (g : Z) : yfile :=
  {| mmap := bytes; size := Z.of_nat (length bytes); ofs := g |}.

(** An environment in which every path names a file of the given bytes,
    every write of bytes that can be read succeeds, and a write that runs
    past them fails. *)
Definition world_of (bytes : list byte) (g : Z) : world :=
  {| open_file := fun _ => Mapped bytes;
     write_stdout := fun buf => Written (length buf);
     write_outside := fun _ _ => None;
     yff_ofs := g |}.

(** The four lines [a], [b], [ba], [c]. *)
Definition abc_file : list byte := file_of_lines ["a"; "b"; "ba"; "c"]%string.

(** The corpus of the concrete scenarios. *)
Definition fruit_file : list byte :=
  file_of_lines ["apple"; "banana"; "cherry"; "grape"]%string.

(** Two lines, the second one incomplete. *)
Definition incomplete_file : list byte :=
  bytes_of_string "a" ++ [LF] ++ bytes_of_string "c".

(** One line without its terminator. *)
Definition unterminated_file : list byte := bytes_of_string "ab".

(** Four empty lines, the line [a], and a line of the one byte 200: sorted
    as unsigned bytes, the last line complete. *)
Definition high_byte_file : list byte := [LF; LF; LF; LF; 97; LF; 200; LF].

End Samples.

(** ** The i386 variant of [format_unsigned] and other auxiliaries

    Under [__i386__] the source formats offsets with a division of its own,
    built on one [divl] instruction.  The two 32-bit halves of the
    [UInt64] are [((UInt32 * )a)[0]], the low one, and [((UInt32 * )a)[1]],
    the high one. *)

Module I386.

Import Lbsearch.

(** What can stop the i386 code. *)
Inductive trap : Type :=
| DivideError       (* [divl] with a zero divisor or a quotient over 32 bits *)
| AssertionFailed   (* [assert(i >= 0)] *)
| BudgetExhausted.  (* loop budget of the model exhausted *)

(** [((UInt32 * )a)[0]] and [((UInt32 * )a)[1]]. *)
Definition low32 (a : Z) : Z := a mod 2 ^ 32.
Definition high32 (a : Z) : Z := (a / 2 ^ 32) mod 2 ^ 32.

(** The [UInt64] whose halves are [hi] and [lo]. *)
Definition join32 (hi lo : Z) : Z := hi * 2 ^ 32 + lo.

(** [divl b]: divides [edx:eax] by [b]; the quotient goes to [eax], the
    remainder to [edx]. *)
Definition divl (edx eax b : Z) : trap + Z * Z :=
  if b =? 0 then inl DivideError
  else
    let n := join32 edx eax in
    if n / b >=? 2 ^ 32 then inl DivideError
    else inr (n / b, n mod b).

(** [UInt32 UInt64DivAndGetMod(UInt64 *a, UInt32 b)]: the new value of
    [*a] and the value returned. *)
Definition UInt64DivAndGetMod (a b : Z) : trap + Z * Z :=
  let upper := high32 a in
  let a0 := low32 a in
  (* ((UInt32 * )a)[1] = 0; *)
  let a1 := 0 in
  if upper >=? b then
    if b =? 0 then inl DivideError
    else
      let a1 := upper / b in
      let upper := upper mod b in
      match divl upper a0 b with
      | inl t => inl t
      | inr (eax, edx) => inr (join32 a1 eax, edx)
      end
  else
    match divl upper a0 b with
    | inl t => inl t
    | inr (eax, edx) => inr (join32 a1 eax, edx)
    end.

(** [UInt32 UInt32DivAndGetMod(UInt32 *a, UInt32 b)] *)
Definition UInt32DivAndGetMod (a b : Z) : trap + Z * Z :=
  if b =? 0 then inl DivideError else inr (a / b, a mod b).

(** The [do { *q++ = '0' + UInt64DivAndGetMod((UInt64 * )&i, 10); }
    while (i != 0);] loop for an 8-byte [off_t]: the digits, least
    significant first. *)
Fixpoint format_digits (fuel : nat) (i : Z) : trap + list byte :=
  match fuel with
  | O => inl BudgetExhausted
  | S fuel' =>
      match UInt64DivAndGetMod i 10 with
      | inl t => inl t
      | inr (i, r) =>
          let d := 48 + r in
          if i =? 0 then inr [d]
          else match format_digits fuel' i with
               | inl t => inl t
               | inr ds => inr (d :: ds)
               end
      end
  end.

(** [char *format_unsigned(char *p, off_t i)], i386 variant. *)
Definition format_unsigned (i : Z) : trap + list byte :=
  if i <? 0 then inl AssertionFailed
  else match format_digits (S (Z.to_nat (Z.log2 i))) (to_ull i) with
       | inl t => inl t
       | inr ds => inr (rev ds)
       end.

End I386.

Module Aux.

Import Lbsearch.

(** The number a string of decimal digits denotes. *)
Definition decimal_value (ds : list byte) : Z :=
  fold_left (fun acc d => acc * 10 + (d - 48)) ds 0.

Definition is_digit (d : byte) : bool := (48 <=? d) && (d <=? 57).

(** One round of the loop over the flags in [main]: the flags after the
    character [flag], or the message of the usage error. *)
Definition flag_step (flag : ascii) (f : flags_t) : string + flags_t :=
  if (flag =? "e")%char then
    if negb (cm_eqb (cm f) CM_UNSET) then inl "multiple boundary flags"%string
    else inr (set_cm f CM_LE)
  else if (flag =? "t")%char then
    if negb (cm_eqb (cm f) CM_UNSET) then inl "multiple boundary flags"%string
    else inr (set_cm f CM_LT)
  else if (flag =? "p")%char then
    if negb (cm_eqb (cm f) CM_UNSET) then inl "multiple boundary flags"%string
    else inr (set_cm f CM_LP)
  else if (flag =? "b")%char then
    if negb (cm_eqb (cmstart f) CM_UNSET) then inl "multiple start flags"%string
    else inr (set_cmstart f CM_LE)
  else if (flag =? "a")%char then
    if negb (cm_eqb (cmstart f) CM_UNSET) then inl "multiple start flags"%string
    else inr (set_cmstart f CM_LT)
  else if (flag =? "o")%char then
    if negb (pr_eqb (printing f) PR_UNSET) then inl "multiple printing flags"%string
    else inr (set_printing f PR_OFFSETS)
  else if (flag =? "c")%char then
    if negb (pr_eqb (printing f) PR_UNSET) then inl "multiple printing flags"%string
    else inr (set_printing f PR_CONTENTS)
  else if (flag =? "q")%char then
    if negb (pr_eqb (printing f) PR_UNSET) then inl "multiple printing flags"%string
    else inr (set_printing f PR_DETECT)
  else if (flag =? "i")%char then
    if negb (in_eqb (incomplete f) IN_UNSET) then inl "multiple incomplete flags"%string
    else inr (set_incomplete f IN_IGNORE)
  else inl "unsupported flag"%string.

(** What one accepted flag does. *)
Inductive flag_effect (f : flags_t) : ascii -> flags_t -> Prop :=
| FE_e : cm f = CM_UNSET -> flag_effect f "e" (set_cm f CM_LE)
| FE_t : cm f = CM_UNSET -> flag_effect f "t" (set_cm f CM_LT)
| FE_p : cm f = CM_UNSET -> flag_effect f "p" (set_cm f CM_LP)
| FE_b : cmstart f = CM_UNSET -> flag_effect f "b" (set_cmstart f CM_LE)
| FE_a : cmstart f = CM_UNSET -> flag_effect f "a" (set_cmstart f CM_LT)
| FE_o : printing f = PR_UNSET -> flag_effect f "o" (set_printing f PR_OFFSETS)
| FE_c : printing f = PR_UNSET -> flag_effect f "c" (set_printing f PR_CONTENTS)
| FE_q : printing f = PR_UNSET -> flag_effect f "q" (set_printing f PR_DETECT)
| FE_i : incomplete f = IN_UNSET -> flag_effect f "i" (set_incomplete f IN_IGNORE).

(** The string has no NUL character, as the arguments of a program. *)
Definition c_string (s : string) : Prop :=
  ~ In "000"%char (list_ascii_of_string s).

End Aux.

(** * Properties *)

Import Lbsearch Lines Samples.

(** ** Arithmetic of offsets *)

Lemma off_t_wrap_small (z : Z) :
  - 2 ^ 63 <= z < 2 ^ 63 -> off_t_wrap z = z.
Proof.
  intros H. unfold off_t_wrap.
  rewrite Z.mod_small by lia. lia.
Qed.

Lemma to_ull_small (z : Z) : 0 <= z < 2 ^ 64 -> to_ull z = z.
Proof. intros H. unfold to_ull. now rewrite Z.mod_small. Qed.

Lemma to_ull_minus_one : to_ull (-1) = 2 ^ 64 - 1.
Proof. reflexivity. Qed.

Lemma shiftr_one_half (z : Z) : Z.shiftr z 1 = z / 2.
Proof. rewrite Z.shiftr_div_pow2 by lia. reflexivity. Qed.

Lemma char_to_int_LF (b : byte) :
  0 <= b < 256 -> (char_to_int b =? LF) = (b =? LF).
Proof.
  intros H. unfold char_to_int, LF.
  destruct (b <? 128) eqn:E; [reflexivity|].
  apply Z.ltb_ge in E.
  destruct (b - 256 =? 10) eqn:E1; destruct (b =? 10) eqn:E2; lia.
Qed.

(** ** The structure behind a [yfile *] *)

Lemma yfile_ok_size (yf : yfile) :
  yfile_ok yf -> size yf = Z.of_nat (length (mmap yf)).
Proof.
  unfold yfile_ok, yfile_okb. intros H.
  apply andb_true_iff in H as [H _]. apply andb_true_iff in H as [H _].
  now apply Z.eqb_eq.
Qed.

Lemma yfile_ok_max (yf : yfile) : yfile_ok yf -> size yf <= max_size.
Proof.
  unfold yfile_ok, yfile_okb. intros H.
  apply andb_true_iff in H as [H _]. apply andb_true_iff in H as [_ H].
  now apply Z.leb_le.
Qed.

Lemma yfile_ok_bytes (yf : yfile) (b : byte) :
  yfile_ok yf -> In b (mmap yf) -> 0 <= b < 256.
Proof.
  unfold yfile_ok, yfile_okb. intros H Hin.
  apply andb_true_iff in H as [_ H].
  rewrite forallb_forall in H. specialize (H b Hin). lia.
Qed.

Lemma yfile_ok_set_ofs (yf : yfile) (g : Z) :
  yfile_ok yf -> yfile_ok (set_ofs yf g).
Proof. exact (fun H => H). Qed.

Lemma set_ofs_ofs (yf : yfile) : set_ofs yf (ofs yf) = yf.
Proof. now destruct yf. Qed.

Lemma byte_at_Some (yf : yfile) (i : Z) (b : byte) :
  byte_at yf i = Some b ->
  0 <= i /\ nth_error (mmap yf) (Z.to_nat i) = Some b.
Proof.
  unfold byte_at. destruct (i <? 0) eqn:E; [discriminate|].
  apply Z.ltb_ge in E. auto.
Qed.

Lemma byte_is_true (yf : yfile) (i : Z) (b : byte) :
  byte_is yf i b = true <-> byte_at yf i = Some b.
Proof.
  unfold byte_is. destruct (byte_at yf i) as [c|]; split; intros H;
    try discriminate.
  - apply Z.eqb_eq in H. now subst.
  - injection H as ->. apply Z.eqb_refl.
Qed.

Lemma byte_at_lt_size (yf : yfile) (i : Z) (b : byte) :
  yfile_ok yf -> byte_at yf i = Some b -> 0 <= i < size yf.
Proof.
  intros Hok H. apply byte_at_Some in H as [H0 H].
  assert (Hlt : (Z.to_nat i < length (mmap yf))%nat).
  { apply nth_error_Some. congruence. }
  rewrite (yfile_ok_size yf Hok). lia.
Qed.

Lemma byte_at_in (yf : yfile) (i : Z) (b : byte) :
  byte_at yf i = Some b -> In b (mmap yf).
Proof.
  intros H. apply byte_at_Some in H as [_ H]. eapply nth_error_In; eauto.
Qed.

Lemma terminated_size_pos (yf : yfile) :
  yfile_ok yf -> terminated yf = true -> 0 < size yf.
Proof.
  intros Hok H. apply byte_is_true in H.
  apply (byte_at_lt_size yf _ _ Hok) in H. lia.
Qed.

(** ** [get_fofs] *)

(** The scanning loop stops right after the first terminator. *)
Lemma get_fofs_loop_found (rest : list byte) :
  forall (o : Z) (k : nat),
    (forall b, In b rest -> 0 <= b < 256) ->
    0 <= o -> o + Z.of_nat (length rest) <= max_size ->
    nth_error rest k = Some LF ->
    exists j : nat,
      (j <= k)%nat /\
      get_fofs_loop rest o = Ok (o + Z.of_nat j + 1) /\
      nth_error rest j = Some LF /\
      (forall i, (i < j)%nat -> nth_error rest i <> Some LF).
Proof.
  induction rest as [|b rest IH]; intros o k Hb Ho Hmax Hk.
  - destruct k; discriminate.
  - cbn [get_fofs_loop].
    assert (Hw : off_t_wrap (o + 1) = o + 1).
    { apply off_t_wrap_small. cbn [length] in Hmax. unfold max_size in Hmax. lia. }
    rewrite Hw, char_to_int_LF by (apply Hb; now left).
    destruct (b =? LF) eqn:E.
    + apply Z.eqb_eq in E. subst b. exists 0%nat.
      split; [lia|]. split; [f_equal; lia|]. split; [reflexivity|].
      intros i Hi. lia.
    + apply Z.eqb_neq in E.
      destruct k as [|k]; [cbn in Hk; congruence|].
      cbn [nth_error] in Hk.
      destruct (IH (o + 1) k) as (j & Hjk & Hr & Hj & Hmin).
      * intros c Hc. apply Hb. now right.
      * lia.
      * cbn [length] in Hmax. lia.
      * exact Hk.
      * exists (S j).
        split; [lia|]. split; [rewrite Hr; f_equal; lia|].
        split; [exact Hj|].
        intros [|i] Hi; cbn [nth_error]; [congruence|]. apply Hmin. lia.
Qed.

(** Without a terminator the loop reads the byte after the mapping. *)
Lemma get_fofs_loop_missing (rest : list byte) :
  forall o : Z,
    (forall b, In b rest -> 0 <= b < 256) ->
    0 <= o -> o + Z.of_nat (length rest) <= max_size ->
    ~ In LF rest ->
    get_fofs_loop rest o = Fault (OutOfBounds (o + Z.of_nat (length rest))).
Proof.
  induction rest as [|b rest IH]; intros o Hb Ho Hmax Hno.
  - cbn. do 2 f_equal. lia.
  - cbn [get_fofs_loop].
    assert (Hw : off_t_wrap (o + 1) = o + 1).
    { apply off_t_wrap_small. cbn [length] in Hmax. unfold max_size in Hmax. lia. }
    rewrite Hw, char_to_int_LF by (apply Hb; now left).
    destruct (b =? LF) eqn:E.
    + apply Z.eqb_eq in E. exfalso. apply Hno. now left.
    + rewrite IH.
      * do 2 f_equal. cbn [length]. lia.
      * intros c Hc. apply Hb. now right.
      * lia.
      * cbn [length] in Hmax. lia.
      * intros Hin. apply Hno. now right.
Qed.

Lemma get_fofs_zero (yf : yfile) : get_fofs 0 yf = Ok (0, yf).
Proof. reflexivity. Qed.

Lemma get_fofs_beyond (yf : yfile) (o : Z) :
  0 <= size yf < o -> get_fofs o yf = Ok (size yf, yf).
Proof.
  intros H. unfold get_fofs.
  destruct (o <? 0) eqn:E1; [lia|].
  destruct (o =? 0) eqn:E2; [lia|].
  destruct (o >? size yf) eqn:E3; [reflexivity|lia].
Qed.

Lemma get_fofs_unfold (yf : yfile) (o : Z) :
  yfile_ok yf -> 0 < o <= size yf ->
  get_fofs o yf =
  match get_fofs_loop (skipn (Z.to_nat (o - 1)) (mmap yf)) (o - 1) with
  | Ok r => Ok (r, set_ofs yf (o - 1))
  | Fault e => Fault e
  end.
Proof.
  intros Hok H. unfold get_fofs.
  destruct (o <? 0) eqn:E1; [lia|].
  destruct (o =? 0) eqn:E2; [lia|].
  destruct (o >? size yf) eqn:E3; [lia|].
  pose proof (yfile_ok_max yf Hok) as Hmax. unfold max_size in Hmax.
  rewrite off_t_wrap_small by lia. reflexivity.
Qed.

(** Where a terminator follows, [get_fofs] returns the least line start at
    or after the offset, and leaves the cursor on the byte before the
    offset. *)
Lemma get_fofs_resolves (yf : yfile) (o e : Z) :
  yfile_ok yf -> 0 < o -> o - 1 <= e -> byte_at yf e = Some LF ->
  exists f : Z,
    get_fofs o yf = Ok (f, set_ofs yf (o - 1)) /\
    o <= f <= e + 1 /\
    byte_at yf (f - 1) = Some LF /\
    (forall g, o - 1 <= g < f - 1 -> byte_at yf g <> Some LF).
Proof.
  intros Hok Ho Hoe He.
  pose proof (byte_at_lt_size yf e LF Hok He) as Hes.
  pose proof (yfile_ok_size yf Hok) as Hsz.
  pose proof (yfile_ok_max yf Hok) as Hmax.
  apply byte_at_Some in He as [_ He].
  rewrite get_fofs_unfold by (auto; lia).
  set (n := Z.to_nat (o - 1)).
  destruct (get_fofs_loop_found (skipn n (mmap yf)) (o - 1)
              (Z.to_nat e - n)%nat) as (j & Hj & Hr & Hjb & Hmin).
  - intros b Hb. apply (yfile_ok_bytes yf b Hok).
    rewrite <- (firstn_skipn n (mmap yf)). apply in_or_app. now right.
  - lia.
  - rewrite length_skipn. subst n. lia.
  - rewrite nth_error_skipn. replace (n + (Z.to_nat e - n))%nat with (Z.to_nat e)
      by (subst n; lia). exact He.
  - rewrite Hr. exists (o - 1 + Z.of_nat j + 1). split; [reflexivity|].
    split; [subst n; lia|].
    rewrite nth_error_skipn in Hjb.
    split.
    + unfold byte_at. destruct (o - 1 + Z.of_nat j + 1 - 1 <? 0) eqn:E; [lia|].
      replace (Z.to_nat (o - 1 + Z.of_nat j + 1 - 1)) with (n + j)%nat
        by (subst n; lia).
      exact Hjb.
    + intros g Hg Hgb. apply byte_at_Some in Hgb as [_ Hgb].
      apply (Hmin (Z.to_nat g - n)%nat).
      * subst n. lia.
      * rewrite nth_error_skipn.
        replace (n + (Z.to_nat g - n))%nat with (Z.to_nat g) by (subst n; lia).
        exact Hgb.
Qed.

(** ** Line starts of a file whose last line is complete *)

Section Resolver.

Variable yf : yfile.
Hypothesis Hok : yfile_ok yf.
Hypothesis Hterm : terminated yf = true.

Lemma is_bol_cases (f : Z) :
  is_bol yf f = true <-> f = 0 \/ byte_at yf (f - 1) = Some LF.
Proof.
  unfold is_bol. rewrite orb_true_iff, Z.eqb_eq, byte_is_true. tauto.
Qed.

Lemma is_bol_size : is_bol yf (size yf) = true.
Proof. apply is_bol_cases. right. now apply byte_is_true. Qed.

(** [get_fofs] on a valid offset: its value is [next_bol], the least line
    start at or after the offset, and the cursor is left before the
    offset. *)
Lemma get_fofs_next_bol (g o : Z) :
  0 <= o <= size yf ->
  get_fofs o (set_ofs yf g) =
    Ok (next_bol yf o, set_ofs yf (if o =? 0 then g else o - 1)) /\
  o <= next_bol yf o <= size yf /\
  is_bol yf (next_bol yf o) = true /\
  (forall b, o <= b -> is_bol yf b = true -> next_bol yf o <= b).
Proof.
  intros Ho. destruct (Z.eq_dec o 0) as [->|Hne].
  - cbn. split; [reflexivity|]. split; [lia|]. split; [reflexivity|].
    intros b Hb _. exact Hb.
  - assert (Hlast : byte_at yf (size yf - 1) = Some LF)
      by now apply byte_is_true.
    destruct (get_fofs_resolves yf o (size yf - 1) Hok) as (f & Hr & Hf & Hfb & Hmin);
      [lia | lia | exact Hlast |].
    assert (Hnb : next_bol yf o = f) by (unfold next_bol; now rewrite Hr).
    rewrite Hnb.
    destruct (get_fofs_resolves (set_ofs yf g) o (size yf - 1) Hok)
      as (f' & Hr' & _ & Hfb' & Hmin'); [lia | lia | exact Hlast |].
    assert (f' = f).
    { destruct (Z.lt_trichotomy f' f) as [Hlt | [Heq | Hgt]]; [|exact Heq|].
      - exfalso. apply (Hmin (f' - 1)); [|exact Hfb'].
        pose proof (get_fofs_resolves (set_ofs yf g) o (size yf - 1) Hok) as X.
        destruct X as (f2 & Hr2 & Hf2 & _); [lia | lia | exact Hlast |].
        rewrite Hr' in Hr2. injection Hr2 as <-. lia.
      - exfalso. apply (Hmin' (f - 1)); [lia | exact Hfb]. }
    subst f'. split.
    + rewrite Hr'. destruct (o =? 0) eqn:E; [lia|]. reflexivity.
    + split; [lia|]. split.
      * apply is_bol_cases. now right.
      * intros b Hb Hbol. apply is_bol_cases in Hbol as [->|Hbol]; [lia|].
        destruct (Z_lt_le_dec b f) as [Hlt|]; [|assumption].
        exfalso. apply (Hmin (b - 1)); [lia | exact Hbol].
Qed.

Lemma next_bol_bounds (o : Z) :
  0 <= o <= size yf -> o <= next_bol yf o <= size yf.
Proof. intros Ho. now destruct (get_fofs_next_bol 0 o Ho) as (_ & H & _). Qed.

Lemma next_bol_is_bol (o : Z) :
  0 <= o <= size yf -> is_bol yf (next_bol yf o) = true.
Proof. intros Ho. now destruct (get_fofs_next_bol 0 o Ho) as (_ & _ & H & _). Qed.

Lemma next_bol_least (o b : Z) :
  0 <= o <= size yf -> o <= b -> is_bol yf b = true -> next_bol yf o <= b.
Proof.
  intros Ho. destruct (get_fofs_next_bol 0 o Ho) as (_ & _ & _ & H). apply H.
Qed.

Lemma next_bol_mono (o1 o2 : Z) :
  0 <= o1 <= o2 -> o2 <= size yf -> next_bol yf o1 <= next_bol yf o2.
Proof.
  intros H1 H2. apply next_bol_least; [lia| |].
  - pose proof (next_bol_bounds o2). lia.
  - apply next_bol_is_bol. lia.
Qed.

(** Resolving a line start gives it back. *)
Lemma next_bol_fixed (f : Z) :
  0 <= f <= size yf -> is_bol yf f = true -> next_bol yf f = f.
Proof.
  intros Hf Hb. pose proof (next_bol_bounds f Hf).
  pose proof (next_bol_least f f Hf (Z.le_refl f) Hb). lia.
Qed.

Lemma next_bol_size : next_bol yf (size yf) = size yf.
Proof.
  pose proof (terminated_size_pos yf Hok Hterm).
  apply next_bol_fixed; [lia | apply is_bol_size].
Qed.

End Resolver.

(** ** [compare_line] *)

Lemma compare_line_loop_total (yf : yfile) (cm : compare_mode_t) (c : Z) :
  read yf (ofs yf) = Ok c ->
  forall x, exists v, compare_line_loop yf x cm = Ok v.
Proof.
  intros Hr x. induction x as [|b x IH]; cbn [compare_line_loop]; rewrite Hr.
  - destruct ((c <? 0) || (c =? LF)); eauto.
  - destruct ((c <? 0) || (c =? LF)); [eauto|].
    destruct (negb (b =? c)); eauto.
Qed.

Lemma read_in_bounds (yf : yfile) (i : Z) :
  yfile_ok yf -> 0 <= i < size yf -> exists c, read yf i = Ok c.
Proof.
  intros Hok Hi. unfold read.
  destruct (i <? 0) eqn:E; [lia|].
  destruct (nth_error (mmap yf) (Z.to_nat i)) as [b|] eqn:Hn; [eauto|].
  apply nth_error_None in Hn. rewrite (yfile_ok_size yf Hok) in Hi. lia.
Qed.

(** [compare_line] always answers on an offset of the file, reading no byte
    but the one at that offset, and leaves the cursor there. *)
Lemma compare_line_verdict (yf : yfile) (g f : Z) (x : list byte)
  (cm : compare_mode_t) :
  yfile_ok yf -> 0 <= f <= size yf ->
  compare_line f x cm (set_ofs yf g) = Ok (verdict yf x cm f, set_ofs yf f).
Proof.
  intros Hok Hf.
  assert (H : exists v, compare_line f x cm yf = Ok (v, set_ofs yf f)).
  { unfold compare_line. cbn [ofs set_ofs size].
    destruct (f =? size yf) eqn:E; [eauto|].
    apply Z.eqb_neq in E.
    destruct (read_in_bounds yf f Hok) as [c Hc]; [lia|].
    destruct (compare_line_loop_total (set_ofs yf f) cm c Hc x) as [v Hv].
    rewrite Hv. eauto. }
  destruct H as [v Hv].
  unfold verdict. rewrite Hv. cbn. exact Hv.
Qed.

Lemma verdict_eof (yf : yfile) (x : list byte) (cm : compare_mode_t) :
  verdict yf x cm (size yf) = true.
Proof.
  unfold verdict, compare_line. cbn [ofs set_ofs size].
  now rewrite Z.eqb_refl.
Qed.

(** ** The bisection loop *)

Lemma bind_ok {A B} (m : M A) (k : A -> M B) (yf yf' : yfile) (a : A) :
  m yf = Ok (a, yf') -> bind m k yf = k a yf'.
Proof. intros H. unfold bind. now rewrite H. Qed.

Section Bisection.

Variable yf : yfile.
Hypothesis Hok : yfile_ok yf.
Hypothesis Hterm : terminated yf = true.
Variable x : list byte.
Variable cm : compare_mode_t.

(** The loop ends on the line start of an offset [o] of the range at which
    the probe turns from false to true. *)
Lemma bisect_way_loop_spec (fuel : nat) :
  forall lo hi g,
    0 <= lo < hi -> hi <= size yf -> (Z.to_nat (hi - lo) <= fuel)%nat ->
    exists o g',
      bisect_way_loop fuel lo hi x cm (set_ofs yf g)
        = Ok (next_bol yf o, set_ofs yf g') /\
      lo <= o <= hi /\
      g' <= next_bol yf o /\
      (lo < o -> probe yf x cm (o - 1) = false) /\
      (o < hi -> probe yf x cm o = true).
Proof.
  induction fuel as [|fuel IH]; intros lo hi g Hlo Hhi Hfuel; [lia|].
  pose proof (yfile_ok_max yf Hok) as Hmax. unfold max_size in Hmax.
  cbn [bisect_way_loop].
  rewrite (off_t_wrap_small (lo + hi)) by lia.
  rewrite shiftr_one_half.
  set (mid := (lo + hi) / 2).
  assert (Hmid : lo <= mid < hi) by (subst mid; split;
    [apply Z.div_le_lower_bound | apply Z.div_lt_upper_bound]; lia).
  destruct (get_fofs_next_bol yf Hok Hterm g mid) as (Hget & Hnb & _); [lia|].
  rewrite (bind_ok _ _ _ _ _ Hget).
  rewrite (bind_ok _ _ _ _ _
             (compare_line_verdict yf _ (next_bol yf mid) x cm Hok
                ltac:(lia))).
  fold (probe yf x cm mid).
  rewrite (off_t_wrap_small (mid + 1)) by lia.
  destruct (probe yf x cm mid) eqn:Hp.
  - destruct (lo <? mid) eqn:Hlt.
    + apply Z.ltb_lt in Hlt.
      destruct (IH lo mid (next_bol yf mid)) as (o & g' & Hr & Ho & Hg' & Hlow & Hup);
        [lia | lia | lia |].
      exists o, g'. split; [exact Hr|]. split; [lia|]. split; [exact Hg'|].
      split; [exact Hlow|].
      intros _. destruct (Z.eq_dec o mid) as [->|]; [exact Hp|].
      apply Hup. lia.
    + apply Z.ltb_ge in Hlt. assert (mid = lo) by lia.
      rewrite (proj2 (Z.eqb_eq mid lo)) by assumption.
      exists mid, (next_bol yf mid). unfold ret.
      split; [reflexivity|]. split; [lia|]. split; [lia|].
      split; [lia|]. intros _. exact Hp.
  - destruct (mid + 1 <? hi) eqn:Hlt.
    + apply Z.ltb_lt in Hlt.
      destruct (IH (mid + 1) hi (next_bol yf mid))
        as (o & g' & Hr & Ho & Hg' & Hlow & Hup); [lia | lia | lia |].
      exists o, g'. split; [exact Hr|]. split; [lia|]. split; [exact Hg'|].
      split; [|exact Hup].
      intros _. destruct (Z.eq_dec o (mid + 1)) as [->|].
      * now replace (mid + 1 - 1) with mid by lia.
      * apply Hlow. lia.
    + apply Z.ltb_ge in Hlt. assert (mid + 1 = hi) by lia.
      destruct (mid =? mid + 1) eqn:E; [lia|].
      destruct (get_fofs_next_bol yf Hok Hterm (next_bol yf mid) (mid + 1))
        as (Hget' & Hnb' & _); [lia|].
      rewrite Hget'. destruct (mid + 1 =? 0) eqn:E0; [lia|].
      exists (mid + 1), (mid + 1 - 1).
      split; [reflexivity|]. split; [lia|]. split; [lia|].
      split; [|lia].
      intros _. now replace (mid + 1 - 1) with mid by lia.
Qed.

End Bisection.

(** ** The lexicographic order *)

Lemma lex_leb_trans (a : list byte) :
  forall b c, lex_leb a b = true -> lex_leb b c = true -> lex_leb a c = true.
Proof.
  induction a as [|x a IH]; intros [|y b] [|z c] Hab Hbc; cbn in *;
    try reflexivity; try discriminate.
  apply orb_true_iff in Hab, Hbc. apply orb_true_iff.
  destruct Hab as [Hab|Hab], Hbc as [Hbc|Hbc];
    rewrite ?andb_true_iff, ?Z.ltb_lt, ?Z.eqb_eq in *.
  - left. lia.
  - left. lia.
  - left. lia.
  - right. split; [lia|]. apply (IH b c); tauto.
Qed.

Lemma lex_ltb_leb_trans (a : list byte) :
  forall b c, lex_ltb a b = true -> lex_leb b c = true -> lex_ltb a c = true.
Proof.
  induction a as [|x a IH]; intros [|y b] [|z c] Hab Hbc; cbn in *;
    try reflexivity; try discriminate.
  apply orb_true_iff in Hab, Hbc. apply orb_true_iff.
  destruct Hab as [Hab|Hab], Hbc as [Hbc|Hbc];
    rewrite ?andb_true_iff, ?Z.ltb_lt, ?Z.eqb_eq in *.
  - left. lia.
  - left. lia.
  - left. lia.
  - right. split; [lia|]. apply (IH b c); tauto.
Qed.

Lemma lex_ltb_not_leb (a : list byte) :
  forall b, lex_ltb a b = negb (lex_leb b a).
Proof.
  induction a as [|x a IH]; intros [|y b]; cbn; try reflexivity.
  rewrite IH.
  destruct (x <? y) eqn:E1, (y <? x) eqn:E2, (x =? y) eqn:E3,
    (y =? x) eqn:E4; cbn; try reflexivity; lia.
Qed.

Lemma lex_leb_not_ltb (a b : list byte) : lex_leb a b = negb (lex_ltb b a).
Proof. rewrite lex_ltb_not_leb. now rewrite negb_involutive. Qed.

(** A key followed by the fake byte 256 is not below a line exactly when
    the line is below the key or begins with it. *)
Lemma lex_ltb_fake_byte (y : list byte) :
  forall l, (forall b, In b l -> 0 <= b < 256) ->
    negb (lex_ltb (y ++ [256]) l) = lex_ltb l y || prefixb y l.
Proof.
  induction y as [|a y IH]; intros [|b l] Hl;
    cbn [app lex_ltb prefixb]; try reflexivity.
  - assert (0 <= b < 256) by (apply Hl; now left).
    destruct (256 <? b) eqn:E1; [lia|].
    destruct (256 =? b) eqn:E2; [lia|]. reflexivity.
  - rewrite negb_orb, negb_andb, IH by (intros c Hc; apply Hl; now right).
    destruct (a <? b) eqn:E1, (b <? a) eqn:E2, (a =? b) eqn:E3,
      (b =? a) eqn:E4; cbn [negb andb orb]; try reflexivity; lia.
Qed.

Lemma until_lf_incl (l : list byte) (b : byte) :
  In b (until_lf l) -> In b l.
Proof.
  induction l as [|c l IH]; cbn; [tauto|].
  destruct (c =? LF); cbn; [tauto|]. intros [H|H]; auto.
Qed.

Lemma line_at_bytes (yf : yfile) (f : Z) (b : byte) :
  yfile_ok yf -> In b (line_at yf f) -> 0 <= b < 256.
Proof.
  intros Hok Hin. apply (yfile_ok_bytes yf b Hok).
  apply until_lf_incl in Hin.
  rewrite <- (firstn_skipn (Z.to_nat f) (mmap yf)). apply in_or_app. now right.
Qed.

(** The lines above the end of the interval are those the comparator is
    asked to accept for the upper key. *)
Lemma below_end_key_rel (yf : yfile) (cm : compare_mode_t) (y : list byte)
  (f : Z) :
  yfile_ok yf ->
  below_end cm (line_at yf f) y = negb (key_rel cm y (line_at yf f)).
Proof.
  intros Hok. destruct cm; cbn [below_end key_rel].
  - apply lex_ltb_not_leb.
  - apply lex_leb_not_ltb.
  - symmetry. apply lex_ltb_fake_byte. intros b Hb.
    now apply (line_at_bytes yf f b Hok).
  - apply lex_leb_not_ltb.
Qed.

Lemma key_rel_mono (cm : compare_mode_t) (k l1 l2 : list byte) :
  lex_leb l1 l2 = true -> key_rel cm k l1 = true -> key_rel cm k l2 = true.
Proof.
  intros H12. destruct cm; cbn [key_rel]; intros H.
  - eapply lex_leb_trans; eauto.
  - eapply lex_ltb_leb_trans; eauto.
  - eapply lex_ltb_leb_trans; eauto.
  - eapply lex_ltb_leb_trans; eauto.
Qed.

(** ** Line starts as a list *)

Lemma in_line_starts (yf : yfile) (f : Z) :
  yfile_ok yf ->
  In f (line_starts yf) <-> 0 <= f < size yf /\ is_bol yf f = true.
Proof.
  intros Hok. unfold line_starts. rewrite filter_In, in_map_iff.
  rewrite (yfile_ok_size yf Hok). split.
  - intros [(n & <- & Hn) Hb]. apply in_seq in Hn. split; [lia|exact Hb].
  - intros [Hf Hb]. split; [|exact Hb].
    exists (Z.to_nat f). split; [lia|]. apply in_seq. lia.
Qed.

Lemma sorted_lines_spec (yf : yfile) (f1 f2 : Z) :
  sorted_lines yf = true ->
  In f1 (line_starts yf) -> In f2 (line_starts yf) -> f1 <= f2 ->
  lex_leb (line_at yf f1) (line_at yf f2) = true.
Proof.
  unfold sorted_lines. intros H H1 H2 Hle.
  rewrite forallb_forall in H. specialize (H f1 H1).
  rewrite forallb_forall in H. specialize (H f2 H2).
  apply Z.leb_le in Hle. now rewrite Hle in H.
Qed.

Lemma comparator_exact_spec (yf : yfile) (k : list byte)
  (cm : compare_mode_t) (f : Z) :
  comparator_exact yf k cm = true -> In f (line_starts yf) ->
  verdict yf k cm f = key_rel cm k (line_at yf f).
Proof.
  unfold comparator_exact, verdict. intros H Hf.
  rewrite forallb_forall in H. specialize (H f Hf).
  destruct (value (compare_line f k cm yf)) as [v|]; [|discriminate].
  now apply eqb_prop.
Qed.

(** ** One bisection over a range that reaches the end of the file *)

Lemma sorted_exact_monotone (yf : yfile) (k : list byte)
  (cm : compare_mode_t) :
  yfile_ok yf -> sorted_lines yf = true -> comparator_exact yf k cm = true ->
  monotone_verdict yf k cm.
Proof.
  intros Hok Hs Hx f1 f2 Hb1 Hb2 H12 H2 Hv.
  destruct (Z.eq_dec f2 (size yf)) as [->|Hne]; [apply verdict_eof|].
  assert (In1 : In f1 (line_starts yf))
    by (apply (in_line_starts yf f1 Hok); split; [lia | assumption]).
  assert (In2 : In f2 (line_starts yf))
    by (apply (in_line_starts yf f2 Hok); split; [lia | assumption]).
  rewrite (comparator_exact_spec yf k cm f2 Hx In2).
  rewrite (comparator_exact_spec yf k cm f1 Hx In1) in Hv.
  eapply key_rel_mono; [|exact Hv].
  apply sorted_lines_spec; auto. lia.
Qed.

Lemma clamp_to_size (yf : yfile) :
  yfile_ok yf -> 0 <= size yf ->
  (if to_ull (size yf) >? to_ull (size yf) then size yf else size yf) = size yf
  /\ (if to_ull (-1) >? to_ull (size yf) then size yf else -1) = size yf.
Proof.
  intros Hok H0. pose proof (yfile_ok_max yf Hok) as Hmax.
  unfold max_size in Hmax.
  rewrite to_ull_minus_one, (to_ull_small (size yf)) by lia.
  split.
  - now destruct (size yf >? size yf).
  - destruct (2 ^ 64 - 1 >? size yf) eqn:E; [reflexivity|lia].
Qed.

Section Boundary.

Variable yf : yfile.
Hypothesis Hok : yfile_ok yf.
Hypothesis Hterm : terminated yf = true.
Variable x : list byte.
Variable cm : compare_mode_t.
Hypothesis Hmono : monotone_verdict yf x cm.

(** When [bisect_way] enters its loop it returns the boundary, and leaves
    the cursor at or before it. *)
Lemma bisect_way_boundary (lo hi g : Z) :
  0 <= lo < size yf -> hi = size yf \/ hi = -1 ->
  (x = [] -> cm <> CM_LE /\ cm <> CM_LP) ->
  exists b g',
    bisect_way lo hi x cm (set_ofs yf g) = Ok (b, set_ofs yf g') /\
    boundary yf x cm lo b /\ g' <= b.
Proof.
  intros Hlo Hhi Hx.
  assert (Hsz : 0 <= size yf) by lia.
  destruct (clamp_to_size yf Hok Hsz) as [Hc1 Hc2].
  unfold bisect_way. cbn [yfgetsize size set_ofs].
  assert (Hclamp : (if to_ull hi >? to_ull (size yf) then size yf else hi)
                   = size yf) by (destruct Hhi as [->| ->]; assumption).
  rewrite Hclamp.
  assert (Hshort : ((Z.of_nat (length x) =? 0) && cm_eqb cm CM_LE) = false
                   /\ ((Z.of_nat (length x) =? 0) && cm_eqb cm CM_LP) = false).
  { destruct x as [|b x'].
    - destruct (Hx eq_refl) as [H1 H2]. now destruct cm.
    - assert (E : (Z.of_nat (length (b :: x')) =? 0) = false)
        by (apply Z.eqb_neq; cbn [length]; lia).
      now rewrite E. }
  destruct Hshort as [Hs1 Hs2]. rewrite Hs1, Hs2. cbn [andb].
  destruct (lo >=? size yf) eqn:E; [lia|].
  destruct (bisect_way_loop_spec yf Hok Hterm x cm
              (Z.to_nat (size yf - lo)) lo (size yf) g)
    as (o & g' & Hr & Ho & Hg' & Hlow & Hup); [lia | lia | lia |].
  exists (next_bol yf o), g'. split; [exact Hr|]. split; [|exact Hg'].
  pose proof (next_bol_bounds yf Hok Hterm o ltac:(lia)) as Hnb.
  pose proof (next_bol_is_bol yf Hok Hterm o ltac:(lia)) as Hbol.
  assert (Hacc : verdict yf x cm (next_bol yf o) = true).
  { destruct (Z.eq_dec o (size yf)) as [->|Hne].
    - rewrite (next_bol_size yf Hok Hterm). apply verdict_eof.
    - apply Hup. lia. }
  split; [lia|]. split; [exact Hbol|].
  intros f Hf Hrange. split.
  - intros Hle. apply (Hmono (next_bol yf o) f); auto; lia.
  - intros Hv. destruct (Z_le_gt_dec (next_bol yf o) f) as [|Hgt]; [assumption|].
    exfalso.
    assert (Hfo : f < o).
    { destruct (Z_lt_le_dec f o) as [|Hge]; [assumption|].
      pose proof (next_bol_least yf Hok Hterm o f ltac:(lia) Hge Hf). lia. }
    assert (Hrej : probe yf x cm (o - 1) = false) by (apply Hlow; lia).
    unfold probe in Hrej.
    pose proof (next_bol_bounds yf Hok Hterm (o - 1) ltac:(lia)) as Hnb1.
    pose proof (next_bol_is_bol yf Hok Hterm (o - 1) ltac:(lia)) as Hbol1.
    pose proof (next_bol_mono yf Hok Hterm f (o - 1) ltac:(lia) ltac:(lia)) as Hm.
    rewrite (next_bol_fixed yf Hok Hterm f ltac:(lia) Hf) in Hm.
    rewrite (Hmono f (next_bol yf (o - 1)) Hf Hbol1 ltac:(lia) ltac:(lia) Hv)
      in Hrej.
    discriminate.
Qed.

End Boundary.

(** ** The two bisections of an interval query *)

Lemma bytes_eqb_eq (x : list byte) : forall y, bytes_eqb x y = true -> x = y.
Proof.
  induction x as [|a x IH]; intros [|b y] H; cbn in H; try discriminate;
    [reflexivity|].
  apply andb_true_iff in H as [Hab H]. apply Z.eqb_eq in Hab.
  f_equal; auto.
Qed.

Lemma verdict_empty_LE (yf : yfile) (f : Z) :
  yfile_ok yf -> 0 <= f <= size yf -> verdict yf [] CM_LE f = true.
Proof.
  intros Hok Hf. unfold verdict, compare_line. cbn [ofs set_ofs size].
  destruct (f =? size yf) eqn:E; [reflexivity|]. apply Z.eqb_neq in E.
  destruct (read_in_bounds yf f Hok) as [c Hc]; [lia|].
  cbn [compare_line_loop ofs set_ofs].
  change (read (set_ofs yf f) f) with (read yf f). rewrite Hc.
  now destruct ((c <? 0) || (c =? LF)).
Qed.

Lemma verdict_empty_LP (yf : yfile) (f : Z) :
  f <> size yf -> verdict yf [] CM_LP f = false.
Proof.
  intros Hf. unfold verdict, compare_line. cbn [ofs set_ofs size].
  destruct (f =? size yf) eqn:E; [apply Z.eqb_eq in E; contradiction|].
  cbn [compare_line_loop ofs set_ofs].
  destruct (read (set_ofs yf f) f) as [c|]; [|reflexivity].
  now destruct ((c <? 0) || (c =? LF)).
Qed.

Section Interval.

Variable yf : yfile.
Hypothesis Hok : yfile_ok yf.
Hypothesis Hterm : terminated yf = true.

(** The second bisection, started at the line start [start] that the first
    one returned, with the cursor [g] it left behind. *)
Lemma bisect_way_from_start (y : list byte) (cm : compare_mode_t)
  (start g : Z) :
  monotone_verdict yf y cm ->
  0 <= start <= size yf -> g <= start ->
  exists end_ g',
    bisect_way start (size yf) y cm (set_ofs yf g) = Ok (end_, set_ofs yf g') /\
    end_ <= size yf /\
    (start < end_ -> is_bol yf end_ = true) /\
    (forall f, In f (line_starts yf) -> start <= f ->
       (f < end_ <-> verdict yf y cm f = false)).
Proof.
  intros Hmono Hstart Hg.
  pose proof (terminated_size_pos yf Hok Hterm) as Hpos.
  destruct (clamp_to_size yf Hok ltac:(lia)) as [Hc _].
  assert (Hdegenerate :
    forall hi', start >= hi' ->
      (if start >=? hi' then Ok (ofs (set_ofs yf g), set_ofs yf g)
       else bisect_way_loop (Z.to_nat (hi' - start)) start hi' y cm
              (set_ofs yf g)) = Ok (g, set_ofs yf g)).
  { intros hi' Hge. destruct (start >=? hi') eqn:E; [reflexivity|lia]. }
  destruct (Z.eq_dec start (size yf)) as [Heq|Hne].
  - (* nothing is left of the file *)
    assert (Hnone : forall f, In f (line_starts yf) -> start <= f -> False).
    { intros f Hf Hle. apply (in_line_starts yf f Hok) in Hf. lia. }
    unfold bisect_way. cbn [yfgetsize size set_ofs]. rewrite Hc.
    destruct ((Z.of_nat (length y) =? 0) && cm_eqb cm CM_LE) eqn:E1.
    + assert (E2 : cm_eqb cm CM_LP = false)
        by (apply andb_true_iff in E1 as [_ E1]; now destruct cm).
      rewrite E2, andb_false_r. cbn [andb].
      rewrite Hdegenerate by lia.
      exists g, g. split; [reflexivity|]. split; [lia|]. split; [lia|].
      intros f Hf Hle. destruct (Hnone f Hf Hle).
    + destruct ((Z.of_nat (length y) =? 0) && cm_eqb cm CM_LP
                && (size yf =? size yf)) eqn:E2.
      * exists (size yf), g. split; [reflexivity|]. split; [lia|].
        split; [lia|].
        intros f Hf Hle. destruct (Hnone f Hf Hle).
      * rewrite Hdegenerate by lia.
        exists g, g. split; [reflexivity|]. split; [lia|]. split; [lia|].
        intros f Hf Hle. destruct (Hnone f Hf Hle).
  - destruct y as [|b y'] eqn:Hy.
    + destruct cm eqn:Hcm.
      * (* empty key, [CM_LE]: [hi] collapses to [lo] *)
        unfold bisect_way. cbn [yfgetsize size set_ofs length Z.of_nat Z.eqb cm_eqb andb].
        rewrite Hdegenerate by lia.
        exists g, g. split; [reflexivity|]. split; [lia|]. split; [lia|].
        intros f Hf Hle. apply (in_line_starts yf f Hok) in Hf.
        rewrite verdict_empty_LE by (auto; lia). split; [lia|discriminate].
      * destruct (bisect_way_boundary yf Hok Hterm [] CM_LT Hmono
                    start (size yf) g) as (e & g' & Hr & Hb & _);
          [lia | now left | intros _; split; discriminate |].
        exists e, g'. split; [exact Hr|].
        destruct Hb as (Hrange & Hbe & Hb). split; [lia|].
        split; [intros _; exact Hbe|].
        intros f Hf Hle. apply (in_line_starts yf f Hok) in Hf as [Hf Hbol].
        specialize (Hb f Hbol ltac:(lia)).
        destruct (verdict yf [] CM_LT f); split; intros; try discriminate;
          try reflexivity.
        -- assert (e <= f) by (now apply Hb). lia.
        -- destruct (Z_lt_le_dec f e) as [|Hge]; [assumption|].
           apply Hb in Hge. discriminate.
      * (* empty key, [CM_LP]: the whole rest of the file *)
        unfold bisect_way. cbn [yfgetsize size set_ofs length Z.of_nat Z.eqb cm_eqb andb].
        rewrite Hc, Z.eqb_refl.
        exists (size yf), g. split; [reflexivity|]. split; [lia|].
        split; [intros _; now apply is_bol_size|].
        intros f Hf Hle. apply (in_line_starts yf f Hok) in Hf.
        rewrite verdict_empty_LP by lia. split; [reflexivity|lia].
      * destruct (bisect_way_boundary yf Hok Hterm [] CM_UNSET Hmono
                    start (size yf) g) as (e & g' & Hr & Hb & _);
          [lia | now left | intros _; split; discriminate |].
        exists e, g'. split; [exact Hr|].
        destruct Hb as (Hrange & Hbe & Hb). split; [lia|].
        split; [intros _; exact Hbe|].
        intros f Hf Hle. apply (in_line_starts yf f Hok) in Hf as [Hf Hbol].
        specialize (Hb f Hbol ltac:(lia)).
        destruct (verdict yf [] CM_UNSET f); split; intros; try discriminate;
          try reflexivity.
        -- assert (e <= f) by (now apply Hb). lia.
        -- destruct (Z_lt_le_dec f e) as [|Hge]; [assumption|].
           apply Hb in Hge. discriminate.
    + destruct (bisect_way_boundary yf Hok Hterm (b :: y') cm Hmono
                  start (size yf) g) as (e & g' & Hr & Hb & _);
        [lia | now left | discriminate |].
      exists e, g'. split; [exact Hr|].
      destruct Hb as (Hrange & Hbe & Hb). split; [lia|].
      split; [intros _; exact Hbe|].
      intros f Hf Hle. apply (in_line_starts yf f Hok) in Hf as [Hf Hbol].
      specialize (Hb f Hbol ltac:(lia)).
      destruct (verdict yf (b :: y') cm f); split; intros; try discriminate;
        try reflexivity.
      * assert (e <= f) by (now apply Hb). lia.
      * destruct (Z_lt_le_dec f e) as [|Hge]; [assumption|].
        apply Hb in Hge. discriminate.
Qed.

(** An interval whose line starts are the selected ones is empty exactly
    when no line is selected. *)
Lemma interval_empty_iff (sel : Z -> bool) (start end_ : Z) :
  0 <= start <= size yf -> is_bol yf start = true -> end_ <= size yf ->
  (forall f, In f (line_starts yf) -> (start <= f < end_ <-> sel f = true)) ->
  (start >= end_ <-> forall f, In f (line_starts yf) -> sel f = false).
Proof.
  intros Hs Hbol He Hsel. split.
  - intros Hge f Hf. destruct (sel f) eqn:E; [|reflexivity].
    apply (Hsel f Hf) in E. lia.
  - intros Hnone. destruct (Z_ge_lt_dec start end_) as [|Hlt]; [assumption|].
    exfalso.
    assert (Hin : In start (line_starts yf))
      by (apply (in_line_starts yf start Hok); split; [lia|assumption]).
    assert (E : sel start = true) by (apply (Hsel start Hin); lia).
    rewrite (Hnone start Hin) in E. discriminate.
Qed.

End Interval.

Lemma selected_verdicts (yf : yfile) (x y : list byte) (cm : compare_mode_t)
  (f : Z) :
  yfile_ok yf ->
  comparator_exact yf x CM_LE = true -> comparator_exact yf y cm = true ->
  In f (line_starts yf) ->
  selected cm x y (line_at yf f)
  = verdict yf x CM_LE f && negb (verdict yf y cm f).
Proof.
  intros Hok Hx Hy Hf. unfold selected.
  rewrite (comparator_exact_spec yf x CM_LE f Hx Hf).
  rewrite (comparator_exact_spec yf y cm f Hy Hf).
  now rewrite (below_end_key_rel yf cm y f Hok).
Qed.

(** ** C1: the interval of a two-key query *)

(** X19.  Where [bisect_interval] is right.  On a non-empty file of sorted,
    complete lines, for a non-empty lower key [x] and an upper key [y] that
    [compare_line] judges as their modes ask on every line of the file,
    [bisect_interval] over the whole file returns [(start, end_)] such that the line starts inside
    [[start, end_)] are exactly those of the lines [l] with [x <= l] and
    [l < y] under [CM_LE], [l <= y] under [CM_LT], [l < y] or [y] a prefix
    of [l] under [CM_LP]; [start >= end_] exactly when no line is selected;
    and otherwise both ends are line starts of the file (or its size), so
    that the bytes of [[start, end_)] are those of the selected lines. *)
Theorem bisect_interval_selects (yf : yfile) (x y : list byte)
  (cm : compare_mode_t) :
  yfile_ok yf -> terminated yf = true -> sorted_lines yf = true ->
  x <> [] ->
  comparator_exact yf x CM_LE = true -> comparator_exact yf y cm = true ->
  exists start end_ yf',
    bisect_interval 0 (size yf) cm x y yf = Ok ((start, end_), yf') /\
    (forall f, In f (line_starts yf) ->
       (start <= f < end_ <-> selected cm x y (line_at yf f) = true)) /\
    (start >= end_ <->
     forall f, In f (line_starts yf) -> selected cm x y (line_at yf f) = false) /\
    (start < end_ ->
     is_bol yf start = true /\ is_bol yf end_ = true /\
     0 <= start /\ end_ <= size yf).
Proof.
  intros Hok Hterm Hsorted Hx Hex Hey.
  pose proof (terminated_size_pos yf Hok Hterm) as Hpos.
  pose proof (sorted_exact_monotone yf x CM_LE Hok Hsorted Hex) as Hmx.
  pose proof (sorted_exact_monotone yf y cm Hok Hsorted Hey) as Hmy.
  assert (Hcall : bisect_interval 0 (size yf) cm x y yf
                  = bisect_interval 0 (size yf) cm x y (set_ofs yf (ofs yf)))
    by now rewrite set_ofs_ofs.
  rewrite Hcall. clear Hcall. unfold bisect_interval.
  destruct (bisect_way_boundary yf Hok Hterm x CM_LE Hmx 0 (size yf) (ofs yf))
    as (start & g1 & Hr1 & (Hrange & Hbol & Hb1) & Hg1);
    [lia | now left | intros E; contradiction |].
  rewrite (bind_ok _ _ _ _ _ Hr1).
  assert (Hstart : forall f, In f (line_starts yf) ->
            (start <= f <-> verdict yf x CM_LE f = true)).
  { intros f Hf. apply (in_line_starts yf f Hok) in Hf as [Hf Hfb].
    apply Hb1; [assumption|lia]. }
  destruct (cm_eqb cm CM_LE && (Z.of_nat (length x) =? Z.of_nat (length y))
            && bytes_eqb x y) eqn:Hshort.
  - apply andb_true_iff in Hshort as [Hshort Heq].
    apply andb_true_iff in Hshort as [Hcm _].
    apply bytes_eqb_eq in Heq. subst y.
    assert (cm = CM_LE) by (now destruct cm). subst cm.
    exists start, start, (set_ofs yf g1). split; [reflexivity|].
    assert (Hsel : forall f, In f (line_starts yf) ->
              (start <= f < start <-> selected CM_LE x x (line_at yf f) = true)).
    { intros f Hf. split; [lia|]. unfold selected, below_end.
      rewrite lex_ltb_not_leb. now destruct (lex_leb x (line_at yf f)). }
    split; [exact Hsel|]. split; [|lia].
    apply (interval_empty_iff yf Hok
             (fun f => selected CM_LE x x (line_at yf f)) start start);
      auto; lia.
  - destruct (bisect_way_from_start yf Hok Hterm y cm start g1 Hmy)
      as (end_ & g2 & Hr2 & Hend & Hbe & Hb2); [lia | lia |].
    rewrite (bind_ok _ _ _ _ _ Hr2).
    exists start, end_, (set_ofs yf g2). split; [reflexivity|].
    assert (Hsel : forall f, In f (line_starts yf) ->
              (start <= f < end_ <-> selected cm x y (line_at yf f) = true)).
    { intros f Hf. rewrite (selected_verdicts yf x y cm f Hok Hex Hey Hf).
      specialize (Hstart f Hf). specialize (Hb2 f Hf).
      rewrite andb_true_iff, negb_true_iff. split.
      - intros [H1 H2]. split; [now apply Hstart | now apply Hb2].
      - intros [H1 H2]. apply Hstart in H1. split; [assumption|].
        now apply Hb2. }
    split; [exact Hsel|]. split.
    + apply (interval_empty_iff yf Hok
               (fun f => selected cm x y (line_at yf f)) start end_);
        auto; lia.
    + intros Hlt. repeat split; auto; lia.
Qed.

(** ** The comparator on files of sorted lines of bytes below 128 *)

(** What [compare_line_loop] computes from the one byte it reads. *)
Lemma compare_line_loop_byte (yf : yfile) (cm : compare_mode_t) (c : Z) :
  read yf (ofs yf) = Ok c ->
  forall x, compare_line_loop yf x cm = Ok (byte_verdict c x cm).
Proof.
  intros Hr x. induction x as [|b x IH];
    cbn [compare_line_loop byte_verdict]; rewrite Hr.
  - now destruct ((c <? 0) || (c =? LF)).
  - destruct ((c <? 0) || (c =? LF)); [reflexivity|].
    destruct (negb (b =? c)); [reflexivity|exact IH].
Qed.

Lemma byte_verdict_mono (x : list byte) (cm : compare_mode_t) (c1 c2 : Z) :
  0 <= c1 < c2 -> c1 <> LF -> c2 <> LF ->
  byte_verdict c1 x cm = true -> byte_verdict c2 x cm = true.
Proof.
  intros Hc H1 H2.
  assert (E1 : (c1 <? 0) || (c1 =? LF) = false)
    by (apply orb_false_iff; split; [apply Z.ltb_ge | apply Z.eqb_neq]; lia).
  assert (E2 : (c2 <? 0) || (c2 =? LF) = false)
    by (apply orb_false_iff; split; [apply Z.ltb_ge | apply Z.eqb_neq]; lia).
  destruct x as [|b x]; cbn [byte_verdict]; rewrite E1, E2; [tauto|].
  destruct (b =? c1) eqn:Eb1; cbn [negb].
  - apply Z.eqb_eq in Eb1. intros _.
    destruct (b =? c2) eqn:Eb2; [apply Z.eqb_eq in Eb2; lia|]. cbn [negb].
    apply Z.ltb_lt. lia.
  - intros Hlt. apply Z.ltb_lt in Hlt.
    destruct (b =? c2) eqn:Eb2; [apply Z.eqb_eq in Eb2; lia|]. cbn [negb].
    apply Z.ltb_lt. lia.
Qed.

Lemma line_at_head (yf : yfile) (f : Z) (b : byte) :
  byte_at yf f = Some b ->
  line_at yf f = if b =? LF then [] else b :: line_at yf (f + 1).
Proof.
  intros H. apply byte_at_Some in H as [H0 H]. unfold line_at.
  replace (Z.to_nat (f + 1)) with (S (Z.to_nat f)) by lia.
  revert H. generalize (Z.to_nat f) as n. generalize (mmap yf) as l.
  induction l as [|a l IH]; intros [|n] H; cbn in H; try discriminate.
  - injection H as ->. reflexivity.
  - cbn [skipn]. now apply IH.
Qed.

Lemma verdict_at_byte (yf : yfile) (x : list byte) (cm : compare_mode_t)
  (f : Z) (b : byte) :
  f <> size yf -> byte_at yf f = Some b ->
  verdict yf x cm f = byte_verdict (char_to_int b) x cm.
Proof.
  intros Hf Hb. unfold verdict, compare_line. cbn [ofs set_ofs size].
  destruct (f =? size yf) eqn:E; [apply Z.eqb_eq in E; contradiction|].
  assert (Hr : read (set_ofs yf f) (ofs (set_ofs yf f)) = Ok (char_to_int b)).
  { cbn [ofs set_ofs]. unfold read. cbn [mmap set_ofs].
    unfold byte_at in Hb. destruct (f <? 0); [discriminate|]. now rewrite Hb. }
  now rewrite (compare_line_loop_byte _ cm _ Hr x).
Qed.

Lemma ascii_only_byte (yf : yfile) (f : Z) (b : byte) :
  ascii_only yf = true -> byte_at yf f = Some b -> 0 <= b < 128.
Proof.
  unfold ascii_only. intros H Hb. rewrite forallb_forall in H.
  specialize (H b (byte_at_in yf f b Hb)). lia.
Qed.

(** On sorted lines of bytes below 128 the verdicts of [compare_line], such
    as they are, never turn from true to false down the file. *)
Lemma ascii_sorted_monotone (yf : yfile) (x : list byte)
  (cm : compare_mode_t) :
  yfile_ok yf -> ascii_only yf = true -> sorted_lines yf = true ->
  monotone_verdict yf x cm.
Proof.
  intros Hok Hascii Hs f1 f2 Hb1 Hb2 H12 H2 Hv.
  destruct (Z.eq_dec f2 (size yf)) as [->|Hne]; [apply verdict_eof|].
  assert (In1 : In f1 (line_starts yf))
    by (apply (in_line_starts yf f1 Hok); split; [lia | assumption]).
  assert (In2 : In f2 (line_starts yf))
    by (apply (in_line_starts yf f2 Hok); split; [lia | assumption]).
  pose proof (sorted_lines_spec yf f1 f2 Hs In1 In2 ltac:(lia)) as Hle.
  assert (Hbyte : forall f, 0 <= f < size yf -> exists b, byte_at yf f = Some b).
  { intros f Hf. unfold byte_at. destruct (f <? 0) eqn:E; [lia|].
    destruct (nth_error (mmap yf) (Z.to_nat f)) as [b|] eqn:Hn; [eauto|].
    apply nth_error_None in Hn. rewrite (yfile_ok_size yf Hok) in Hf. lia. }
  destruct (Hbyte f1 ltac:(lia)) as [b1 Hf1].
  destruct (Hbyte f2 ltac:(lia)) as [b2 Hf2].
  pose proof (ascii_only_byte yf f1 b1 Hascii Hf1) as Ha1.
  pose proof (ascii_only_byte yf f2 b2 Hascii Hf2) as Ha2.
  rewrite (verdict_at_byte yf x cm f1 b1 ltac:(lia) Hf1) in Hv.
  rewrite (verdict_at_byte yf x cm f2 b2 Hne Hf2).
  rewrite (line_at_head yf f1 b1 Hf1), (line_at_head yf f2 b2 Hf2) in Hle.
  assert (Hc1 : char_to_int b1 = b1)
    by (unfold char_to_int; destruct (b1 <? 128) eqn:E; [reflexivity|lia]).
  assert (Hc2 : char_to_int b2 = b2)
    by (unfold char_to_int; destruct (b2 <? 128) eqn:E; [reflexivity|lia]).
  rewrite Hc1 in Hv. rewrite Hc2.
  destruct (b1 =? LF) eqn:E1; destruct (b2 =? LF) eqn:E2.
  - apply Z.eqb_eq in E1, E2. congruence.
  - apply Z.eqb_eq in E1. apply Z.eqb_neq in E2. subst b1.
    destruct x as [|b x]; cbn [byte_verdict length] in Hv |- *.
    + change ((LF <? 0) || (LF =? LF)) with true in Hv. cbn iota in Hv.
      assert (E : (b2 <? 0) || (b2 =? LF) = false)
        by (apply orb_false_iff; split; [apply Z.ltb_ge | apply Z.eqb_neq]; lia).
      rewrite E. now destruct cm.
    + change ((LF <? 0) || (LF =? LF)) with true in Hv. cbn iota in Hv.
      destruct (cm_eqb cm CM_LE); [|discriminate].
      assert (Z.of_nat (S (length x)) <> 0) by lia.
      apply Z.eqb_eq in Hv. contradiction.
  - cbn [lex_leb] in Hle. discriminate.
  - apply Z.eqb_neq in E1, E2. cbn [lex_leb] in Hle.
    destruct (Z.eq_dec b1 b2) as [->|Hne12]; [exact Hv|].
    apply (byte_verdict_mono x cm b1 b2); auto.
    apply orb_true_iff in Hle as [Hlt|Heq].
    + apply Z.ltb_lt in Hlt. lia.
    + apply andb_true_iff in Heq as [Heq _]. apply Z.eqb_eq in Heq. lia.
Qed.

(** ** C10: the shortcut of quiet mode *)

(** X20.  On a non-empty file of sorted, complete lines of bytes below 128,
    and for a non-empty key, the shortcut of quiet mode ends the
    process exactly as the general path through [bisect_interval] does for
    the same key as [x] and [y]: with status 3 when that interval has
    [start >= end], with status 0 otherwise, and nothing printed. *)
Theorem detect_shortcut_agrees (w : world) (yf : yfile) (x : list byte)
  (cm : compare_mode_t) :
  yfile_ok yf -> terminated yf = true -> ascii_only yf = true ->
  sorted_lines yf = true -> x <> [] ->
  main_detect yf x cm = main_interval w yf cm PR_DETECT x x /\
  exists start end_ yf',
    bisect_interval 0 (-1) cm x x yf = Ok ((start, end_), yf') /\
    main_detect yf x cm = Exit (if start >=? end_ then 3 else 0) [].
Proof.
  intros Hok Hterm Hascii Hsorted Hx.
  pose proof (terminated_size_pos yf Hok Hterm) as Hpos.
  pose proof (ascii_sorted_monotone yf x CM_LE Hok Hascii Hsorted) as Hmx.
  pose proof (ascii_sorted_monotone yf x cm Hok Hascii Hsorted) as Hmc.
  destruct (bisect_way_boundary yf Hok Hterm x CM_LE Hmx 0 (-1) (ofs yf))
    as (start & g1 & Hr1 & (Hrange & Hbol & Hb1) & Hg1);
    [lia | now right | intros E; contradiction |].
  rewrite set_ofs_ofs in Hr1.
  assert (Hgen : exists end_ yf',
            bisect_interval 0 (-1) cm x x yf = Ok ((start, end_), yf') /\
            main_detect yf x cm = Exit (if start >=? end_ then 3 else 0) []).
  { unfold bisect_interval, main_detect, run.
    rewrite !(bind_ok _ _ _ _ _ Hr1).
    destruct (cm_eqb cm CM_LE) eqn:Hcm.
    - assert (E : (Z.of_nat (length x) =? Z.of_nat (length x)) && bytes_eqb x x
                  = true).
      { rewrite Z.eqb_refl. cbn [andb]. clear. induction x as [|a l IH];
          [reflexivity|]. cbn [bytes_eqb]. now rewrite Z.eqb_refl. }
      cbn [andb]. rewrite E. unfold ret.
      exists start, (set_ofs yf g1). split; [reflexivity|].
      destruct (start >=? start) eqn:E3; [reflexivity|lia].
    - cbn [andb].
      assert (Hsecond : exists end_ g2,
                bisect_way start (-1) x cm (set_ofs yf g1)
                  = Ok (end_, set_ofs yf g2) /\
                (start >=? end_) = verdict yf x cm start).
      { destruct (bisect_way_from_start yf Hok Hterm x cm start g1 Hmc)
          as (end_ & g2 & Hr2 & Hend & _ & Hb2); [lia | lia |].
        exists end_, g2. split.
        - rewrite <- Hr2. unfold bisect_way. cbn [yfgetsize size set_ofs].
          destruct (clamp_to_size yf Hok ltac:(lia)) as [-> ->]. reflexivity.
        - destruct (Z.eq_dec start (size yf)) as [->|Hne].
          + rewrite verdict_eof. apply Z.geb_le. lia.
          + assert (Hin : In start (line_starts yf))
              by (apply (in_line_starts yf start Hok); split; [lia|assumption]).
            specialize (Hb2 start Hin (Z.le_refl start)).
            destruct (verdict yf x cm start).
            * apply Z.geb_le. destruct (Z_lt_le_dec start end_) as [Hlt|]; [|lia].
              apply Hb2 in Hlt. discriminate.
            * destruct (start >=? end_) eqn:E; [|reflexivity].
              apply Z.geb_le in E. assert (start < end_) by (now apply Hb2). lia. }
      destruct Hsecond as (end_ & g2 & Hr2 & Hempty).
      rewrite (bind_ok _ _ _ _ _ Hr2). unfold ret.
      exists end_, (set_ofs yf g2). split; [reflexivity|].
      destruct (get_fofs_next_bol yf Hok Hterm g1 start Hrange) as (Hget & _).
      rewrite (next_bol_fixed yf Hok Hterm start Hrange Hbol) in Hget.
      rewrite (bind_ok _ _ _ _ _ Hget).
      rewrite (compare_line_verdict yf _ start x cm Hok Hrange).
      rewrite Hempty. now destruct (verdict yf x cm start). }
  destruct Hgen as (end_ & yf' & Hint & Hdet).
  split.
  - rewrite Hdet. unfold main_interval, run. rewrite Hint.
    now destruct (start >=? end_).
  - exists start, end_, yf'. split; assumption.
Qed.


(** A prefix query on the lines [a], [b], [ba], [c]: the lines with prefix
    [b] span the bytes from 2 to 7. *)
Example abc_prefix_interval :
  value (bisect_interval 0 (size (yfile_of abc_file 0)) CM_LP
           (bytes_of_string "b") (bytes_of_string "b") (yfile_of abc_file 0))
  = Ok (2, 7).
Proof. reflexivity. Qed.

Lemma bisect_interval_selects_witness :
  exists start end_ yf',
    bisect_interval 0 (size (yfile_of abc_file 0)) CM_LP
      (bytes_of_string "b") (bytes_of_string "b") (yfile_of abc_file 0)
    = Ok ((start, end_), yf') /\
    (forall f, In f (line_starts (yfile_of abc_file 0)) ->
       (start <= f < end_ <->
        selected CM_LP (bytes_of_string "b") (bytes_of_string "b")
          (line_at (yfile_of abc_file 0) f) = true)) /\
    (start >= end_ <->
     forall f, In f (line_starts (yfile_of abc_file 0)) ->
       selected CM_LP (bytes_of_string "b") (bytes_of_string "b")
         (line_at (yfile_of abc_file 0) f) = false) /\
    (start < end_ ->
     is_bol (yfile_of abc_file 0) start = true /\
     is_bol (yfile_of abc_file 0) end_ = true /\
     0 <= start /\ end_ <= size (yfile_of abc_file 0)).
Proof.
  apply bisect_interval_selects;
    [reflexivity | reflexivity | reflexivity | discriminate
    | reflexivity | reflexivity].
Defined.

(** The ends of the interval as the flags document them: [e] is the open
    end and [t] the closed one.  On the one-line file [b], the query
    [a]..[c] under [CM_LP] returns the whole file although [c] is no prefix
    of [b]; the query [a]..[b] under [CM_LE] returns nothing although
    [b <= b]; and on the one-line file [ab] the query [a]..[ab] under
    [CM_LT] returns the line [ab] although [ab < ab] does not hold.  In all
    three runs the file is sorted and [compare_line] answers what its mode
    asks. *)
Lemma bisect_interval_not_as_specified :
  (let yf := yfile_of (file_of_lines ["b"%string]) 0 in
   let x := bytes_of_string "a" in
   let y := bytes_of_string "c" in
   sorted_lines yf = true /\
   comparator_exact yf x CM_LE = true /\ comparator_exact yf y CM_LP = true /\
   exists se,
     value (bisect_interval 0 (size yf) CM_LP x y yf) = Ok se /\
     ~ interval_as_specified yf CM_LP x y se) /\
  (let yf := yfile_of (file_of_lines ["b"%string]) 0 in
   let x := bytes_of_string "a" in
   let y := bytes_of_string "b" in
   sorted_lines yf = true /\
   comparator_exact yf x CM_LE = true /\ comparator_exact yf y CM_LE = true /\
   exists se,
     value (bisect_interval 0 (size yf) CM_LE x y yf) = Ok se /\
     ~ interval_as_specified yf CM_LE x y se) /\
  (let yf := yfile_of (file_of_lines ["ab"%string]) 0 in
   let x := bytes_of_string "a" in
   let y := bytes_of_string "ab" in
   sorted_lines yf = true /\
   comparator_exact yf x CM_LE = true /\ comparator_exact yf y CM_LT = true /\
   exists se,
     value (bisect_interval 0 (size yf) CM_LT x y yf) = Ok se /\
     ~ interval_as_specified yf CM_LT x y se).
Proof.
  split; [|split]; cbv zeta;
    (split; [reflexivity|]); (split; [reflexivity|]); (split; [reflexivity|]).
  - exists (0, 2). split; [reflexivity|].
    intros [H _]. specialize (H 0 (or_introl eq_refl)).
    cbn [fst snd] in H. destruct H as [H _].
    specialize (H ltac:(lia)). vm_compute in H. discriminate.
  - exists (0, 0). split; [reflexivity|].
    intros [H _]. specialize (H 0 (or_introl eq_refl)).
    cbn [fst snd] in H. destruct H as [_ H].
    specialize (H eq_refl). lia.
  - exists (0, 3). split; [reflexivity|].
    intros [H _]. specialize (H 0 (or_introl eq_refl)).
    cbn [fst snd] in H. destruct H as [H _].
    specialize (H ltac:(lia)). vm_compute in H. discriminate.
Qed.

(** C1.  The fruit corpus is sorted and its last line is complete.  The
    line [banana] has the prefix [ba] and is not below [ba]: it is selected
    by the query [ba]..[ba] under [CM_LP], whichever way the ends of the
    other modes are read, and it is the only such line.  [bisect_interval]
    returns the empty interval from 6 to 6, and the command [-pc f ba]
    prints nothing and ends with status 3.  [compare_line], which reads the
    first byte of the line for every byte of the key, accepts [banana] as
    above all keys of prefix [ba].  On the one line [a], the query [b]..[b]
    under [CM_LT] returns 2 and 0: the second bisection starts at the end
    of the file and returns the cursor. *)
Theorem bisect_interval_misses_selected_line :
  let yf := yfile_of fruit_file 0 in
  let ba := bytes_of_string "ba" in
  sorted_lines yf = true /\ terminated yf = true /\
  line_starts yf = [0; 6; 13; 20] /\
  line_at yf 6 = bytes_of_string "banana" /\
  map (fun f => selected CM_LP ba ba (line_at yf f)) (line_starts yf)
  = [false; true; false; false] /\
  map (fun f => selected_as_specified CM_LP ba ba (line_at yf f))
    (line_starts yf)
  = [false; true; false; false] /\
  value (bisect_interval 0 (size yf) CM_LP ba ba yf) = Ok (6, 6) /\
  ~ interval_as_specified yf CM_LP ba ba (6, 6) /\
  value (compare_line 6 ba CM_LP yf) = Ok true /\
  key_rel CM_LP ba (line_at yf 6) = false /\
  main ["pts_lbsearch"; "-pc"; "f"; "ba"]%string (world_of fruit_file 0)
  = Exit 3 [] /\
  (let yf1 := yfile_of (file_of_lines ["a"%string]) 0 in
   sorted_lines yf1 = true /\ terminated yf1 = true /\
   value (bisect_interval 0 (size yf1) CM_LT (bytes_of_string "b")
            (bytes_of_string "b") yf1) = Ok (2, 0)).
Proof.
  cbv zeta.
  repeat match goal with |- _ /\ _ => split end; try reflexivity.
  intros [H _]. specialize (H 6 ltac:(vm_compute; tauto)).
  cbn [fst snd] in H. destruct H as [_ H].
  specialize (H eq_refl). lia.
Qed.

(** ** C2: [get_fofs] and the incomplete last line *)

Lemma in_skipn_byte_at (yf : yfile) (n : nat) (b : byte) :
  In b (skipn n (mmap yf)) ->
  exists i, Z.of_nat n <= i /\ byte_at yf i = Some b.
Proof.
  intros Hin. apply In_nth_error in Hin as [k Hk].
  rewrite nth_error_skipn in Hk.
  exists (Z.of_nat (n + k)). split; [lia|].
  unfold byte_at. destruct (Z.ltb_spec (Z.of_nat (n + k)) 0) as [E|E]; [lia|].
  now rewrite Nat2Z.id.
Qed.

(** With no terminator from the byte before the offset to the end of the
    file, [get_fofs] reads the byte at index [size]. *)
Lemma get_fofs_unterminated (yf : yfile) (o : Z) :
  yfile_ok yf -> 0 < o <= size yf ->
  (forall i, o - 1 <= i -> byte_at yf i <> Some LF) ->
  get_fofs o yf = Fault (OutOfBounds (size yf)).
Proof.
  intros Hok Ho Hno.
  pose proof (yfile_ok_size yf Hok) as Hsz.
  pose proof (yfile_ok_max yf Hok) as Hmax.
  rewrite get_fofs_unfold by assumption.
  rewrite get_fofs_loop_missing.
  - do 2 f_equal. rewrite length_skipn. lia.
  - intros b Hb. apply (yfile_ok_bytes yf b Hok).
    rewrite <- (firstn_skipn (Z.to_nat (o - 1)) (mmap yf)).
    apply in_or_app. now right.
  - lia.
  - rewrite length_skipn. lia.
  - intros Hin. apply in_skipn_byte_at in Hin as (i & Hi & Hb).
    apply (Hno i); [lia|exact Hb].
Qed.

(** On a line start, [get_fofs] returns the offset unchanged. *)
Lemma get_fofs_at_line_start (yf : yfile) (o : Z) :
  yfile_ok yf -> 0 < o -> byte_at yf (o - 1) = Some LF ->
  get_fofs o yf = Ok (o, set_ofs yf (o - 1)).
Proof.
  intros Hok Ho Hb.
  destruct (get_fofs_resolves yf o (o - 1) Hok Ho (Z.le_refl _) Hb)
    as (f & Hr & Hf & _).
  replace f with o in Hr by lia. exact Hr.
Qed.

(** The prototype checks for the end of the file before every read, and
    returns [size] there. *)
Lemma proto_get_fofs_loop_unterminated (rest : list byte) :
  forall size o,
    (forall b, In b rest -> 0 <= b < 256) ->
    0 <= o -> o + Z.of_nat (length rest) = size -> size <= max_size ->
    ~ In LF rest ->
    Bisect.get_fofs_loop rest size o = Ok (size, []).
Proof.
  induction rest as [|b rest IH]; intros sz o Hb Ho Hsz Hmax Hno;
    unfold max_size in Hmax; cbn [length] in Hsz.
  - cbn [Bisect.get_fofs_loop].
    replace o with sz by lia. now rewrite Z.eqb_refl.
  - cbn [Bisect.get_fofs_loop].
    rewrite (to_ull_small sz), (to_ull_small o) by lia.
    destruct (sz =? o) eqn:E; [lia|].
    rewrite off_t_wrap_small by lia.
    rewrite char_to_int_LF by (apply Hb; now left).
    destruct (b =? LF) eqn:E1.
    + apply Z.eqb_eq in E1. exfalso. apply Hno. now left.
    + apply IH.
      * intros c Hc. apply Hb. now right.
      * lia.
      * lia.
      * unfold max_size. lia.
      * intros Hin. apply Hno. now right.
Qed.

(** C2.  The file [ab] has no terminator.  Resolving offset 1 should give
    the size, 2, as the prototype does; [get_fofs] of the tool reads the
    byte at index 2 instead. *)
Theorem get_fofs_reads_past_end :
  let yf := yfile_of unterminated_file 0 in
  yfile_ok yf /\ size yf = 2 /\
  get_fofs 1 yf = Fault (OutOfBounds 2) /\
  Bisect.get_fofs unterminated_file 2 1 = Ok (2, []).
Proof. cbv zeta. repeat apply conj; reflexivity. Qed.

(** ** C3: reads outside the mapping *)

(** On a file whose last line is complete, [bisect_way] returns, whatever
    the key, for a range inside the file or with a negative [hi]. *)
Lemma bisect_way_total_terminated (yf : yfile) (lo hi : Z) (x : list byte)
  (cm : compare_mode_t) :
  yfile_ok yf -> terminated yf = true ->
  0 <= lo -> 0 <= hi <= size yf \/ - 2 ^ 63 <= hi < 0 ->
  exists b yf', bisect_way lo hi x cm yf = Ok (b, yf').
Proof.
  intros Hok Hterm Hlo Hhi.
  pose proof (terminated_size_pos yf Hok Hterm) as Hpos.
  pose proof (yfile_ok_max yf Hok) as Hmax. unfold max_size in Hmax.
  unfold bisect_way, yfgetsize.
  set (hi1 := if to_ull hi >? to_ull (size yf) then size yf else hi).
  assert (H1 : 0 <= hi1 <= size yf).
  { subst hi1. rewrite (to_ull_small (size yf)) by lia.
    destruct Hhi as [Hhi|Hhi].
    - rewrite (to_ull_small hi) by lia.
      destruct (hi >? size yf) eqn:E; lia.
    - assert (to_ull hi > size yf).
      { unfold to_ull.
        replace hi with (hi + 2 ^ 64 + (-1) * 2 ^ 64) by lia.
        rewrite Z.mod_add by lia. rewrite Z.mod_small by lia. lia. }
      destruct (to_ull hi >? size yf) eqn:E; lia. }
  set (hi2 := if (Z.of_nat (length x) =? 0) && cm_eqb cm CM_LE then lo else hi1).
  destruct ((Z.of_nat (length x) =? 0) && cm_eqb cm CM_LP && (hi2 =? size yf));
    [eauto|].
  destruct (lo >=? hi2) eqn:E; [eauto|].
  assert (Hhi2 : hi2 = lo \/ hi2 = hi1)
    by (subst hi2;
        destruct ((Z.of_nat (length x) =? 0) && cm_eqb cm CM_LE); auto).
  clearbody hi2 hi1.
  assert (H2 : lo < hi2 <= size yf) by (destruct Hhi2; lia).
  destruct (bisect_way_loop_spec yf Hok Hterm x cm
              (Z.to_nat (hi2 - lo)) lo hi2 (ofs yf))
    as (o & g' & Hr & _); [lia | lia | lia |].
  rewrite set_ofs_ofs in Hr. eauto.
Qed.

(** The loops of the model end on a value or on a fault of the program:
    the budget of [bisect_way_loop] is never what stops it. *)
Lemma get_fofs_not_out_of_fuel (o : Z) (yf : yfile) :
  get_fofs o yf <> Fault OutOfFuel.
Proof.
  unfold get_fofs.
  destruct (o <? 0); [discriminate|]. destruct (o =? 0); [discriminate|].
  destruct (o >? size yf); [discriminate|].
  generalize (off_t_wrap (o - 1)) as o'. intros o'.
  cbn [mmap set_ofs].
  assert (H : forall rest p, get_fofs_loop rest p <> Fault OutOfFuel).
  { induction rest as [|b rest IH]; intros p; cbn [get_fofs_loop];
      [discriminate|].
    destruct (char_to_int b =? LF); [discriminate|apply IH]. }
  specialize (H (skipn (Z.to_nat o') (mmap yf)) o').
  destruct (get_fofs_loop (skipn (Z.to_nat o') (mmap yf)) o') as [r|e];
    [discriminate|congruence].
Qed.

Lemma compare_line_not_out_of_fuel (f : Z) (x : list byte)
  (cm : compare_mode_t) (yf : yfile) :
  compare_line f x cm yf <> Fault OutOfFuel.
Proof.
  unfold compare_line. cbn [ofs set_ofs size].
  destruct (f =? size yf); [discriminate|].
  assert (H : compare_line_loop (set_ofs yf f) x cm <> Fault OutOfFuel).
  { induction x as [|b x IH]; cbn [compare_line_loop]; unfold read;
      cbn [ofs set_ofs mmap];
      destruct (f <? 0); try discriminate;
      destruct (nth_error (mmap yf) (Z.to_nat f)) as [c|]; try discriminate;
      destruct ((char_to_int c <? 0) || (char_to_int c =? LF));
      try discriminate.
    destruct (negb (b =? char_to_int c)); [discriminate|].
    revert IH. unfold read. cbn [ofs set_ofs mmap].
    destruct (f <? 0); [now intros|]. tauto. }
  destruct (compare_line_loop (set_ofs yf f) x cm); [discriminate|congruence].
Qed.

Lemma bisect_way_loop_enough_fuel (x : list byte) (cm : compare_mode_t)
  (fuel : nat) :
  forall lo hi yf,
    - 2 ^ 62 <= lo < hi -> hi <= 2 ^ 62 ->
    (Z.to_nat (hi - lo) <= fuel)%nat ->
    bisect_way_loop fuel lo hi x cm yf <> Fault OutOfFuel.
Proof.
  induction fuel as [|fuel IH]; intros lo hi yf Hlo Hhi Hfuel; [lia|].
  cbn [bisect_way_loop].
  rewrite (off_t_wrap_small (lo + hi)) by lia.
  rewrite shiftr_one_half.
  set (mid := (lo + hi) / 2).
  assert (Hmid : lo <= mid < hi) by (subst mid; split;
    [apply Z.div_le_lower_bound | apply Z.div_lt_upper_bound]; lia).
  unfold bind at 1.
  pose proof (get_fofs_not_out_of_fuel mid yf) as Hg.
  destruct (get_fofs mid yf) as [[fofs yf1]|e]; [|congruence].
  unfold bind at 1.
  pose proof (compare_line_not_out_of_fuel fofs x cm yf1) as Hc.
  destruct (compare_line fofs x cm yf1) as [[r yf2]|e]; [|congruence].
  rewrite (off_t_wrap_small (mid + 1)) by lia.
  destruct r.
  - destruct (lo <? mid) eqn:E.
    + apply IH; lia.
    + destruct (mid =? lo); [discriminate|apply get_fofs_not_out_of_fuel].
  - destruct (mid + 1 <? hi) eqn:E.
    + apply IH; lia.
    + destruct (mid =? mid + 1); [discriminate|apply get_fofs_not_out_of_fuel].
Qed.

Lemma bisect_way_not_out_of_fuel (yf : yfile) (lo hi : Z) (x : list byte)
  (cm : compare_mode_t) :
  yfile_ok yf -> - 2 ^ 62 <= lo -> - 2 ^ 63 <= hi < 2 ^ 63 ->
  bisect_way lo hi x cm yf <> Fault OutOfFuel.
Proof.
  intros Hok Hlo Hhi.
  pose proof (yfile_ok_max yf Hok) as Hmax. unfold max_size in Hmax.
  pose proof (yfile_ok_size yf Hok) as Hsz.
  unfold bisect_way, yfgetsize.
  set (hi1 := if to_ull hi >? to_ull (size yf) then size yf else hi).
  assert (H1 : hi1 <= size yf).
  { subst hi1. rewrite (to_ull_small (size yf)) by lia.
    destruct (Z_lt_le_dec hi 0) as [Hneg|Hpos].
    - assert (to_ull hi > size yf).
      { unfold to_ull.
        replace hi with (hi + 2 ^ 64 + (-1) * 2 ^ 64) by lia.
        rewrite Z.mod_add by lia. rewrite Z.mod_small by lia. lia. }
      destruct (to_ull hi >? size yf) eqn:E; lia.
    - rewrite (to_ull_small hi) by lia.
      destruct (hi >? size yf) eqn:E; lia. }
  set (hi2 := if (Z.of_nat (length x) =? 0) && cm_eqb cm CM_LE then lo else hi1).
  destruct ((Z.of_nat (length x) =? 0) && cm_eqb cm CM_LP && (hi2 =? size yf));
    [discriminate|].
  destruct (lo >=? hi2) eqn:E; [discriminate|].
  assert (Hhi2 : hi2 = lo \/ hi2 = hi1)
    by (subst hi2;
        destruct ((Z.of_nat (length x) =? 0) && cm_eqb cm CM_LE); auto).
  clearbody hi2 hi1.
  apply bisect_way_loop_enough_fuel; destruct Hhi2; lia.
Qed.

(** C3.  [compare_line] stays inside the mapping ([compare_line_verdict]),
    and so do [get_fofs] and [bisect_way] on a file whose last line is
    complete ([get_fofs_next_bol], [bisect_way_total_terminated]).  They do
    not on the two-line file whose second line is incomplete: its size is
    3, and resolving offset 3, or bisecting for the key [d], reads the byte
    at index 3. *)
Theorem bisect_way_reads_past_end :
  let yf := yfile_of incomplete_file 0 in
  yfile_ok yf /\ size yf = 3 /\
  get_fofs 3 yf = Fault (OutOfBounds 3) /\
  bisect_way 0 (size yf) (bytes_of_string "d") CM_LE yf
    = Fault (OutOfBounds 3) /\
  bisect_way 0 (-1) (bytes_of_string "d") CM_LE yf = Fault (OutOfBounds 3).
Proof. cbv zeta. repeat apply conj; reflexivity. Qed.

(** ** C4: the comparator at the end of the file *)

(** C4, as amended.  When the line start passed to [compare_line] is the
    size of the file, the comparator returns true under every mode, [CM_LT]
    included, and leaves the cursor at the end of the file. *)
Theorem compare_line_at_eof (yf : yfile) (x : list byte)
  (cm : compare_mode_t) :
  compare_line (size yf) x cm yf = Ok (true, set_ofs yf (size yf)).
Proof.
  unfold compare_line. cbn [ofs set_ofs size]. now rewrite Z.eqb_refl.
Qed.

(** C4 as stated fails: at the end of the file the answer under [CM_LT] is
    true, not false. *)
Lemma compare_line_at_eof_not_false :
  let yf := yfile_of (file_of_lines ["a"%string]) 0 in
  value (compare_line (size yf) (bytes_of_string "a") CM_LT yf) = Ok true /\
  value (compare_line (size yf) (bytes_of_string "a") CM_LT yf) <> Ok false.
Proof. split; [reflexivity | discriminate]. Qed.

(** ** C5 and C6: the degenerate range *)

(** With [lo >= hi] after the clamp and the shortcuts, [bisect_way] returns
    the cursor [yf->ofs] as it finds it, and reads nothing. *)
Lemma bisect_way_degenerate (yf : yfile) (lo hi : Z) (x : list byte)
  (cm : compare_mode_t) :
  yfile_ok yf -> 0 <= hi <= size yf -> hi <= lo -> x <> [] ->
  bisect_way lo hi x cm yf = Ok (ofs yf, yf).
Proof.
  intros Hok Hhi Hlo Hx.
  pose proof (yfile_ok_max yf Hok) as Hmax. unfold max_size in Hmax.
  unfold bisect_way, yfgetsize.
  rewrite (to_ull_small hi), (to_ull_small (size yf)) by lia.
  destruct (hi >? size yf) eqn:E; [lia|].
  assert (Hlen : (Z.of_nat (length x) =? 0) = false)
    by (apply Z.eqb_neq; destruct x; [contradiction | cbn [length]; lia]).
  rewrite Hlen. cbn [andb].
  destruct (lo >=? hi) eqn:E1; [reflexivity|lia].
Qed.

(** The empty key under [CM_LP], over a range that reaches the end of the
    file, gives the size of the file. *)
Lemma bisect_way_empty_prefix (yf : yfile) (lo : Z) :
  yfile_ok yf -> 0 <= size yf ->
  bisect_way lo (size yf) [] CM_LP yf = Ok (size yf, yf) /\
  bisect_way lo (-1) [] CM_LP yf = Ok (size yf, yf).
Proof.
  intros Hok Hsz. destruct (clamp_to_size yf Hok Hsz) as [H1 H2].
  unfold bisect_way, yfgetsize. rewrite H1, H2.
  cbn [length Z.of_nat Z.eqb cm_eqb andb]. now rewrite Z.eqb_refl.
Qed.

(** The prototype resolves [lo] in the degenerate range. *)
Lemma proto_bisect_way_degenerate (file : list byte) (size lo hi : Z)
  (x : list byte) :
  0 <= hi <= size -> size < 2 ^ 62 -> hi <= lo -> x <> [] ->
  Bisect.bisect_way file size lo hi x = Bisect.get_fofs file size lo.
Proof.
  intros Hhi Hsz Hlo Hx. unfold Bisect.bisect_way.
  rewrite (to_ull_small hi), (to_ull_small size) by lia.
  destruct (hi >? size) eqn:E; [lia|].
  assert (Hlen : (Z.of_nat (length x) =? 0) = false)
    by (apply Z.eqb_neq; destruct x; [contradiction | cbn [length]; lia]).
  rewrite Hlen. cbn [andb].
  destruct (lo >=? hi) eqn:E1; [reflexivity|lia].
Qed.

(** C5.  On the lines [a], [b], the call with [lo = hi = 1] and the key [b]
    should return the line start that offset 1 resolves to, which is 2, as
    the prototype does; [bisect_way] of the tool returns the cursor, here 0.
    The same happens to the command [-eo f] with the empty key: it prints
    the value found
    in the unassigned field [ofs], 7 in this environment, where the first
    line start, 0, is due. *)
Theorem bisect_way_returns_cursor :
  let file := file_of_lines ["a"; "b"]%string in
  let yf := yfile_of file 0 in
  value (bisect_way 1 1 (bytes_of_string "b") CM_LE yf) = Ok 0 /\
  value (get_fofs 1 yf) = Ok 2 /\
  fmap_result fst (Bisect.bisect_way file 4 1 1 (bytes_of_string "b")) = Ok 2 /\
  main ["pts_lbsearch"; "-eo"; "f"; EmptyString]%string (world_of file 7)
    = Exit 0 (bytes_of_string "7" ++ [LF]) /\
  value (get_fofs 0 (yfile_of file 7)) = Ok 0.
Proof. cbv zeta. repeat apply conj; reflexivity. Qed.

(** C6.  Two calls of [bisect_way] with the same arguments on the same
    file, with one call of [get_fofs] between them, return 0 and 3; and the
    same call on two structures that differ in the cursor only returns two
    different values. *)
Theorem bisect_way_depends_on_cursor :
  let yf := yfile_of (file_of_lines ["a"; "b"]%string) 0 in
  value ((r1 <- bisect_way 1 1 (bytes_of_string "b") CM_LE ;;
          _ <- get_fofs 4 ;;
          r2 <- bisect_way 1 1 (bytes_of_string "b") CM_LE ;;
          ret (r1, r2)) yf) = Ok (0, 3) /\
  value (bisect_way 1 1 (bytes_of_string "b") CM_LE (set_ofs yf 0))
  <> value (bisect_way 1 1 (bytes_of_string "b") CM_LE (set_ofs yf 3)).
Proof.
  cbv zeta. split; [reflexivity|].
  rewrite !bisect_way_degenerate;
    [cbn; discriminate | reflexivity | cbn; lia | lia | discriminate
    | reflexivity | cbn; lia | lia | discriminate].
Qed.

(** ** C7: the exit status *)


(** A write of bytes that can all be read, and that the environment takes
    whole, goes through. *)
Lemma write_all_works (w : world) (buf : list byte)
  (k : list byte -> outcome) :
  write_stdout w buf = Written (length buf) ->
  write_all_to_stdout w (At buf) (Z.of_nat (length buf)) k = k buf.
Proof.
  intros Hw. unfold write_all_to_stdout, sys_write.
  rewrite Z.leb_refl, Nat2Z.id, firstn_all, Hw, firstn_all, Z.eqb_refl.
  reflexivity.
Qed.


(** [print_range] over a range of the mapping writes its bytes. *)
Lemma print_range_works (w : world) (yf : yfile) (start end_ : Z)
  (k : list byte -> outcome) :
  mmap yf <> [] ->
  0 <= start <= end_ -> end_ <= Z.of_nat (length (mmap yf)) ->
  end_ < 2 ^ 63 ->
  (forall buf, write_stdout w buf = Written (length buf)) ->
  print_range w yf start end_ k
  = k (firstn (Z.to_nat (end_ - start)) (skipn (Z.to_nat start) (mmap yf))).
Proof.
  intros Hmap Hs He Hmax Hw. unfold print_range.
  rewrite off_t_wrap_small, to_ull_small by lia.
  assert (Hr : readable_from yf start
               = At (skipn (Z.to_nat start) (mmap yf))).
  { unfold readable_from.
    assert (Hin : (0 <=? start) && (start <=? Z.of_nat (length (mmap yf)))
                  = true)
      by (apply andb_true_iff; split; apply Z.leb_le; lia).
    rewrite Hin. destruct (mmap yf); [contradiction|reflexivity]. }
  rewrite Hr.
  set (mem := skipn (Z.to_nat start) (mmap yf)).
  assert (Hmem : end_ - start <= Z.of_nat (length mem))
    by (subst mem; rewrite length_skipn; lia).
  assert (Hlen : Z.of_nat (length (firstn (Z.to_nat (end_ - start)) mem))
                 = end_ - start)
    by (rewrite length_firstn; lia).
  unfold write_all_to_stdout, sys_write.
  destruct (Z.leb_spec (end_ - start) (Z.of_nat (length mem))) as [_|E];
    [|lia].
  rewrite Hw, firstn_all, Hlen, Z.eqb_refl. reflexivity.
Qed.





Lemma yfopen_dies_with_2 (w : world) (pathname : string) (died : outcome) :
  yfopen w pathname = inl died -> died = Exit 2 [].
Proof.
  unfold yfopen. destruct (open_file w pathname); intros H;
    try discriminate; now injection H as <-.
Qed.


(** What the amended claim leaves out.  When [mmap] fails on a file of four
    bytes the process does not end with status 2: [yfopen] goes on, and
    the first read through the pointer is a fault. *)
Example mmap_failure_goes_unnoticed :
  let w := {| open_file := fun _ => MapFailed 4;
              write_stdout := fun buf => Written (length buf);
              write_outside := fun _ _ => None;
              yff_ofs := 0 |} in
  main ["pts_lbsearch"; "-tc"; "f"; "a"]%string w = Crash (OutOfBounds 1) /\
  exit_code (main ["pts_lbsearch"; "-tc"; "f"; "a"]%string w) <> Some 2.
Proof. cbv zeta. split; [reflexivity|discriminate]. Qed.


(** ** C8: bytes of 128 and above *)

Lemma compare_line_at_byte (yf : yfile) (x : list byte) (cm : compare_mode_t)
  (f : Z) (b : byte) :
  f <> size yf -> byte_at yf f = Some b ->
  compare_line f x cm yf
  = Ok (byte_verdict (char_to_int b) x cm, set_ofs yf f).
Proof.
  intros Hf Hb. unfold compare_line. cbn [ofs set_ofs size].
  destruct (f =? size yf) eqn:E; [apply Z.eqb_eq in E; contradiction|].
  assert (Hr : read (set_ofs yf f) (ofs (set_ofs yf f)) = Ok (char_to_int b)).
  { cbn [ofs set_ofs]. unfold read. cbn [mmap set_ofs].
    unfold byte_at in Hb. destruct (f <? 0); [discriminate|]. now rewrite Hb. }
  now rewrite (compare_line_loop_byte _ cm _ Hr x).
Qed.

Lemma byte_verdict_eol (c : Z) (x : list byte) (cm : compare_mode_t) :
  c < 0 \/ c = LF ->
  byte_verdict c x cm
  = if cm_eqb cm CM_LE then Z.of_nat (length x) =? 0 else false.
Proof.
  intros Hc.
  assert (E : (c <? 0) || (c =? LF) = true).
  { apply orb_true_iff. destruct Hc as [Hc| ->]; [left|right].
    - now apply Z.ltb_lt.
    - apply Z.eqb_refl. }
  destruct x; cbn [byte_verdict]; now rewrite E.
Qed.

Lemma byte_at_poke (yf : yfile) (f : Z) (b c : byte) :
  byte_at yf f = Some b -> byte_at (poke yf f c) f = Some c.
Proof.
  intros H. apply byte_at_Some in H as [H0 H].
  unfold byte_at, poke. cbn [mmap].
  destruct (f <? 0) eqn:E; [lia|].
  assert (Hlt : (Z.to_nat f < length (mmap yf))%nat)
    by (apply nth_error_Some; congruence).
  rewrite nth_error_app2 by (rewrite length_firstn; lia).
  rewrite length_firstn.
  replace (Z.to_nat f - Nat.min (Z.to_nat f) (length (mmap yf)))%nat
    with 0%nat by lia.
  reflexivity.
Qed.

(** C8.  A byte of the file of 128 or more, read through a signed [char],
    makes [compare_line] answer as it does at the end of a line: the answer
    is the one of the end-of-line branch, and it is the answer obtained when
    that byte is replaced by the terminator. *)
Theorem compare_line_high_byte (yf : yfile) (f : Z) (b : byte)
  (x : list byte) (cm : compare_mode_t) :
  yfile_ok yf -> byte_at yf f = Some b -> 128 <= b ->
  value (compare_line f x cm yf)
    = Ok (if cm_eqb cm CM_LE then Z.of_nat (length x) =? 0 else false) /\
  value (compare_line f x cm yf) = value (compare_line f x cm (poke yf f LF)).
Proof.
  intros Hok Hb Hhigh.
  pose proof (byte_at_lt_size yf f b Hok Hb) as Hf.
  pose proof (yfile_ok_bytes yf b Hok (byte_at_in yf f b Hb)) as Hbyte.
  assert (Hneg : char_to_int b < 0).
  { unfold char_to_int. destruct (b <? 128) eqn:E; lia. }
  rewrite (compare_line_at_byte yf x cm f b ltac:(lia) Hb).
  rewrite (compare_line_at_byte (poke yf f LF) x cm f LF
             ltac:(cbn [poke size]; lia) (byte_at_poke yf f b LF Hb)).
  cbn [value fmap_result fst].
  rewrite (byte_verdict_eol (char_to_int b) x cm (or_introl Hneg)).
  rewrite (byte_verdict_eol (char_to_int LF) x cm (or_intror eq_refl)).
  split; reflexivity.
Qed.

Lemma compare_line_high_byte_witness :
  value (compare_line 0 (bytes_of_string "a") CM_LT (yfile_of [200; LF] 0))
    = Ok (if cm_eqb CM_LT CM_LE
          then Z.of_nat (length (bytes_of_string "a")) =? 0 else false) /\
  value (compare_line 0 (bytes_of_string "a") CM_LT (yfile_of [200; LF] 0))
    = value (compare_line 0 (bytes_of_string "a") CM_LT
               (poke (yfile_of [200; LF] 0) 0 LF)).
Proof.
  apply (compare_line_high_byte (yfile_of [200; LF] 0) 0 200);
    [reflexivity | reflexivity | lia].
Defined.

(** As an ordinary byte value, 200 is above the key [a] and the answer
    under [CM_LT] would be true. *)
Example high_byte_not_compared :
  value (compare_line 0 (bytes_of_string "a") CM_LT (yfile_of [200; LF] 0))
    = Ok false /\
  lex_ltb (bytes_of_string "a") (line_at (yfile_of [200; LF] 0) 0) = true.
Proof. split; reflexivity. Qed.

(** ** C9: the flag [i] *)

(** What [main] does after the command line is parsed does not depend on
    the value recorded for the flag [i]. *)
Lemma main_search_ignores_incomplete (w : world) (c : config)
  (v : incomplete_t) :
  main_search w {| cf_flags := set_incomplete (cf_flags c) v;
                   cf_filename := cf_filename c;
                   cf_x := cf_x c; cf_y := cf_y c |}
  = main_search w c.
Proof. reflexivity. Qed.

(** C9.  The second line of the file is [c], without its terminator.  With
    the flag [i] the prefix query from [b] on prints that incomplete line
    and ends with status 0, exactly as without the flag. *)
Theorem incomplete_flag_ignored :
  terminated (yfile_of incomplete_file 0) = false /\
  main ["pts_lbsearch"; "-pi"; "f"; "b"; EmptyString]%string (world_of incomplete_file 0)
    = Exit 0 (bytes_of_string "c") /\
  main ["pts_lbsearch"; "-p"; "f"; "b"; EmptyString]%string (world_of incomplete_file 0)
    = Exit 0 (bytes_of_string "c").
Proof. repeat apply conj; reflexivity. Qed.

(** ** C10: the shortcut on other files *)

Lemma detect_shortcut_agrees_witness :
  main_detect (yfile_of abc_file 0) (bytes_of_string "b") CM_LP
  = main_interval (world_of abc_file 0) (yfile_of abc_file 0) CM_LP PR_DETECT
      (bytes_of_string "b") (bytes_of_string "b") /\
  exists start end_ yf',
    bisect_interval 0 (-1) CM_LP (bytes_of_string "b") (bytes_of_string "b")
      (yfile_of abc_file 0) = Ok ((start, end_), yf') /\
    main_detect (yfile_of abc_file 0) (bytes_of_string "b") CM_LP
    = Exit (if start >=? end_ then 3 else 0) [].
Proof.
  apply detect_shortcut_agrees;
    [reflexivity | reflexivity | reflexivity | reflexivity | discriminate].
Defined.

(** C10.  The lines of [high_byte_file] are sorted and complete.  For the
    key [a] under [CM_LT] the shortcut of quiet mode, the command
    [-tq f a], ends with status 3; the general path finds the interval
    from 4 to 8 and ends with status 0, and so do the commands [-tc f a]
    and [-to f a a], which print the lines and the offsets.  The shortcut
    asks [compare_line] about the line [a], which it accepts as above the
    key [a]; the second bisection of the general path never looks at that
    line, since it takes the line of the byte 200 for an empty one. *)
Theorem detect_shortcut_changes_result :
  let yf := yfile_of high_byte_file 0 in
  let w := world_of high_byte_file 0 in
  let a := bytes_of_string "a" in
  sorted_lines yf = true /\ terminated yf = true /\
  line_starts yf = [0; 1; 2; 3; 4; 6] /\
  line_at yf 4 = a /\
  main_detect yf a CM_LT = Exit 3 [] /\
  main ["pts_lbsearch"; "-tq"; "f"; "a"]%string w = Exit 3 [] /\
  value (bisect_interval 0 (-1) CM_LT a a yf) = Ok (4, 8) /\
  main_interval w yf CM_LT PR_DETECT a a = Exit 0 [] /\
  main ["pts_lbsearch"; "-tc"; "f"; "a"]%string w = Exit 0 [97; LF; 200; LF] /\
  main ["pts_lbsearch"; "-to"; "f"; "a"; "a"]%string w
  = Exit 0 (bytes_of_string "4 8" ++ [LF]) /\
  value (compare_line 4 a CM_LT yf) = Ok true /\
  value (compare_line 6 a CM_LT yf) = Ok false.
Proof. cbv zeta. repeat apply conj; reflexivity. Qed.

(** ** The concrete scenarios *)

(** On the fruit corpus the comparator reads the first byte of a line only.
    The key [banana] is found equal to the line [banana] under [CM_LE], but
    also below it under [CM_LT], and the queries for [banana] and for the
    prefix [ba] come back empty at offset 6; a key above every line gives
    the empty interval at the end of the file. *)
Example fruit_scenarios :
  let yf := yfile_of fruit_file 0 in
  value (bisect_interval 0 (-1) CM_LT (bytes_of_string "banana")
           (bytes_of_string "banana") yf) = Ok (6, 6) /\
  value (bisect_interval 0 (-1) CM_LP (bytes_of_string "ba")
           (bytes_of_string "ba") yf) = Ok (6, 6) /\
  value (bisect_interval 0 (-1) CM_LT (bytes_of_string "zzz")
           (bytes_of_string "zzz") yf) = Ok (26, 26) /\
  main ["pts_lbsearch"; "-t"; "f"; "zzz"]%string (world_of fruit_file 0)
    = Exit 3 [] /\
  comparator_exact yf (bytes_of_string "banana") CM_LT = false.
Proof. cbv zeta. repeat apply conj; reflexivity. Qed.

(** * Further properties of the code *)

Import Aux.

(** ** Keys taken from the command line *)

Lemma key_of_arg_split (s : list byte) :
  exists rest,
    s = key_of_arg s ++ rest /\
    (rest = [] \/ exists c rest', rest = c :: rest' /\ (c = 0 \/ c = LF)).
Proof.
  induction s as [|c s IH]; cbn [key_of_arg].
  - exists []. split; [reflexivity|now left].
  - destruct ((c =? 0) || (c =? LF)) eqn:E.
    + exists (c :: s). split; [reflexivity|]. right. exists c, s.
      split; [reflexivity|]. apply orb_true_iff in E.
      destruct E as [E|E]; apply Z.eqb_eq in E; auto.
    + destruct IH as (rest & Hs & Hrest). exists rest. split; [|exact Hrest].
      cbn [app]. now rewrite <- Hs.
Qed.

Lemma key_of_arg_clean (s : list byte) (c : byte) :
  In c (key_of_arg s) -> c <> 0 /\ c <> LF.
Proof.
  induction s as [|d s IH]; cbn [key_of_arg]; [intros []|].
  destruct ((d =? 0) || (d =? LF)) eqn:E; [intros []|].
  apply orb_false_iff in E as [E0 E1].
  apply Z.eqb_neq in E0, E1.
  intros [<-|H]; auto.
Qed.

(** X1.  The keys that [main] passes on are the arguments cut before their
    first line terminator: they contain no terminator, and an argument without
    one is passed whole. *)
Theorem parsed_keys_are_clean (argv : list string) (c : config) :
  parse_command_line argv = inr c ->
  let arg_x := bytes_of_string (nth 3%nat argv EmptyString) in
  cf_x c = key_of_arg arg_x /\
  ~ In LF (cf_x c) /\
  (exists rest, arg_x = cf_x c ++ rest) /\
  (~ In LF arg_x -> ~ In 0 arg_x -> cf_x c = arg_x) /\
  (forall y, cf_y c = Some y ->
     let arg_y := bytes_of_string (nth 4%nat argv EmptyString) in
     y = key_of_arg arg_y /\ ~ In LF y /\
     (~ In LF arg_y -> ~ In 0 arg_y -> y = arg_y)).
Proof.
  assert (Hwhole : forall s, ~ In LF s -> ~ In 0 s -> key_of_arg s = s).
  { intros s H1 H0. destruct (key_of_arg_split s) as (rest & Hs & Hrest).
    destruct Hrest as [->|(d & rest' & -> & Hd)].
    - now rewrite app_nil_r in Hs.
    - exfalso. assert (Hin : In d s) by (rewrite Hs; apply in_or_app; right; now left).
      destruct Hd as [->| ->]; auto. }
  assert (Hclean : forall s, ~ In LF (key_of_arg s)).
  { intros s Hin. apply key_of_arg_clean in Hin. tauto. }
  unfold parse_command_line.
  destruct (negb (Nat.eqb (length argv) 4) && negb (Nat.eqb (length argv) 5));
    [discriminate|].
  destruct (nth 1%nat argv EmptyString) as [|a flags]; [discriminate|].
  destruct (Ascii.eqb_spec a "-"%char) as [->|Hne].
  2:{ destruct a as [[] [] [] [] [] [] [] []]; try discriminate.
      contradiction. }
  destruct (parse_flags flags flags_unset) as [msg|f]; [discriminate|].
  destruct (cm_eqb (cm (apply_defaults f)) CM_UNSET); [discriminate|].
  destruct (_ && negb _); [discriminate|].
  destruct (_ && _ && _); [discriminate|].
  intros H. injection H as <-. cbn [cf_x cf_y].
  split; [reflexivity|]. split; [apply Hclean|].
  split.
  { destruct (key_of_arg_split (bytes_of_string (nth 3%nat argv EmptyString)))
      as (rest & Hs & _). eauto. }
  split; [apply Hwhole|].
  intros y Hy. destruct (Nat.eqb (length argv) 4); [discriminate|].
  injection Hy as <-. split; [reflexivity|]. split; [apply Hclean|apply Hwhole].
Qed.

Lemma parsed_keys_are_clean_witness :
  let argv := ["pts_lbsearch"; "-t"; "f"; "ba"; "bz"]%string in
  let c := {| cf_flags := {| cm := CM_LT; cmstart := CM_LE;
                             printing := PR_CONTENTS; incomplete := IN_USE |};
              cf_filename := "f"%string;
              cf_x := bytes_of_string "ba";
              cf_y := Some (bytes_of_string "bz") |} in
  let arg_x := bytes_of_string (nth 3%nat argv EmptyString) in
  cf_x c = key_of_arg arg_x /\
  ~ In LF (cf_x c) /\
  (exists rest, arg_x = cf_x c ++ rest) /\
  (~ In LF arg_x -> ~ In 0 arg_x -> cf_x c = arg_x) /\
  (forall y, cf_y c = Some y ->
     let arg_y := bytes_of_string (nth 4%nat argv EmptyString) in
     y = key_of_arg arg_y /\ ~ In LF y /\
     (~ In LF arg_y -> ~ In 0 arg_y -> y = arg_y)).
Proof.
  exact (parsed_keys_are_clean
           ["pts_lbsearch"; "-t"; "f"; "ba"; "bz"]%string _ eq_refl).
Defined.

(** ** The flags *)

Lemma parse_flags_cons (a : ascii) (p : string) (f : flags_t) :
  parse_flags (String a p) f =
  if (a =? "000")%char then inr f
  else match flag_step a f with
       | inl msg => inl msg
       | inr f' => parse_flags p f'
       end.
Proof.
  cbn [parse_flags]. unfold flag_step.
  repeat match goal with
         | |- context [if (?c =? ?d)%char then _ else _] =>
             destruct (c =? d)%char; try reflexivity
         | |- context [if negb ?b then _ else _] =>
             destruct (negb b); try reflexivity
         end.
Qed.

Lemma flag_step_effect (a : ascii) (f f' : flags_t) :
  flag_step a f = inr f' <-> flag_effect f a f'.
Proof.
  split.
  - unfold flag_step.
    repeat match goal with
           | |- context [if (?c =? ?d)%char then _ else _] =>
               destruct (Ascii.eqb_spec c d); [subst|]
           end; try discriminate;
      match goal with
      | |- context [negb ?b] => destruct b eqn:E; cbn [negb]
      end; try discriminate; intros H; injection H as <-; constructor;
      destruct f as [[] [] [] []]; cbn in E |- *; congruence.
  - intros H. destruct H; unfold flag_step; cbn;
      match goal with H : _ = _ |- _ => rewrite H end; reflexivity.
Qed.

(** Two accepted flags can be given in either order. *)
Lemma flag_effect_swap (f f1 f2 : flags_t) (a b : ascii) :
  flag_effect f a f1 -> flag_effect f1 b f2 ->
  exists f1', flag_effect f b f1' /\ flag_effect f1' a f2.
Proof.
  intros Ha Hb. destruct f as [c s p i].
  inversion Ha; subst; cbn in *; subst;
    inversion Hb; subst; cbn in *; subst; try discriminate;
    eexists; (split; [constructor; reflexivity|]);
    constructor; reflexivity.
Qed.

Lemma parse_flags_list_cons (a : ascii) (l : list ascii) (f r : flags_t) :
  a <> "000"%char ->
  (parse_flags (string_of_list_ascii (a :: l)) f = inr r <->
   exists f', flag_effect f a f' /\
              parse_flags (string_of_list_ascii l) f' = inr r).
Proof.
  intros Ha. cbn [string_of_list_ascii]. rewrite parse_flags_cons.
  destruct (Ascii.eqb_spec a "000"%char) as [|_]; [contradiction|].
  destruct (flag_step a f) as [msg|f'] eqn:E; split.
  - discriminate.
  - intros (f' & He & _). apply flag_step_effect in He. congruence.
  - intros H. exists f'. split; [now apply flag_step_effect|exact H].
  - intros (f'' & He & H). apply flag_step_effect in He.
    rewrite E in He. now injection He as ->.
Qed.

Lemma parse_flags_list_permutation (l l' : list ascii) :
  Permutation l l' -> ~ In "000"%char l ->
  forall f r,
    parse_flags (string_of_list_ascii l) f = inr r ->
    parse_flags (string_of_list_ascii l') f = inr r.
Proof.
  induction 1 as [|a l l' Hp IH|a b l|l1 l2 l3 H12 IH12 H23 IH23];
    intros Hnul f r H.
  - exact H.
  - assert (Ha : a <> "000"%char) by (intros ->; apply Hnul; now left).
    apply (parse_flags_list_cons a l f r Ha) in H as (f' & He & H).
    apply (parse_flags_list_cons a l' f r Ha). exists f'. split; [exact He|].
    apply IH; [|exact H]. intros Hin. apply Hnul. now right.
  - assert (Ha : a <> "000"%char)
      by (intros ->; apply Hnul; right; now left).
    assert (Hb : b <> "000"%char) by (intros ->; apply Hnul; now left).
    apply (parse_flags_list_cons b (a :: l) f r Hb) in H as (f1 & He1 & H).
    apply (parse_flags_list_cons a l f1 r Ha) in H as (f2 & He2 & H).
    destruct (flag_effect_swap f f1 f2 b a He1 He2) as (f1' & Ha' & Hb').
    apply (parse_flags_list_cons a (b :: l) f r Ha). exists f1'.
    split; [exact Ha'|].
    apply (parse_flags_list_cons b l f1' r Hb). exists f2. split; assumption.
  - apply IH23.
    + intros Hin. apply Hnul. apply (Permutation_in _ (Permutation_sym H12) Hin).
    + now apply IH12.
Qed.

(** X2.  The flags may be given in any order: a flag string that [main]
    accepts is accepted with the same outcome however its characters are
    rearranged. *)
Theorem parse_flags_any_order (p p' : string) (f r : flags_t) :
  c_string p ->
  Permutation (list_ascii_of_string p) (list_ascii_of_string p') ->
  parse_flags p f = inr r -> parse_flags p' f = inr r.
Proof.
  intros Hc Hperm H.
  rewrite <- (string_of_list_ascii_of_string p').
  apply (parse_flags_list_permutation _ _ Hperm Hc).
  now rewrite string_of_list_ascii_of_string.
Qed.

Lemma parse_flags_any_order_witness :
  parse_flags "qib" (set_cm flags_unset CM_LT)
  = inr {| cm := CM_LT; cmstart := CM_LE;
           printing := PR_DETECT; incomplete := IN_IGNORE |}.
Proof.
  apply (parse_flags_any_order "biq" "qib").
  - unfold c_string. cbn. intros [H|[H|[H|[]]]]; discriminate.
  - cbn. apply perm_trans with ["i"; "q"; "b"]%char.
    + apply perm_trans with ["i"; "b"; "q"]%char;
        [apply perm_swap | apply perm_skip, perm_swap].
    + apply perm_swap.
  - reflexivity.
Defined.

Lemma flag_effect_keeps_start (f f' : flags_t) (a : ascii) :
  flag_effect f a f' -> cmstart f <> CM_LP -> cmstart f' <> CM_LP.
Proof. intros H; destruct H; cbn; intros; try assumption; discriminate. Qed.

Lemma parse_flags_keeps_start (p : string) :
  forall f r, parse_flags p f = inr r ->
    cmstart f <> CM_LP -> cmstart r <> CM_LP.
Proof.
  induction p as [|a p IH]; intros f r H Hs.
  - cbn in H. now injection H as <-.
  - rewrite parse_flags_cons in H.
    destruct (a =? "000")%char; [now injection H as <-|].
    destruct (flag_step a f) as [msg|f'] eqn:E; [discriminate|].
    apply flag_step_effect in E.
    apply (IH f' r H). now apply (flag_effect_keeps_start f f' a).
Qed.

(** ** The command line that [main] accepts *)

(** X3.  After the command line is accepted no flag is left unset: the modes
    handed to the bisection are never [CM_UNSET], the start mode is [CM_LE] or
    [CM_LT], and [CM_LT] as start mode comes only with a single key, the end
    mode [CM_LE] and the printing of offsets; a single key under [CM_LE] is
    only ever printed as an offset. *)
Theorem accepted_command_line (argv : list string) (c : config) :
  parse_command_line argv = inr c ->
  let f := cf_flags c in
  (cm f = CM_LE \/ cm f = CM_LT \/ cm f = CM_LP) /\
  (cmstart f = CM_LE \/ cmstart f = CM_LT) /\
  printing f <> PR_UNSET /\
  incomplete f <> IN_UNSET /\
  (cmstart f = CM_LT ->
   cf_y c = None /\ cm f = CM_LE /\ printing f = PR_OFFSETS) /\
  (cf_y c = None -> cm f = CM_LE -> printing f = PR_OFFSETS) /\
  (cf_y c = None <-> length argv = 4%nat) /\
  (length argv = 4%nat \/ length argv = 5%nat).
Proof.
  unfold parse_command_line.
  destruct (Nat.eqb_spec (length argv) 4) as [H4|H4];
    destruct (Nat.eqb_spec (length argv) 5) as [H5|H5]; cbn [negb andb];
    try discriminate; try lia.
  all: destruct (nth 1%nat argv EmptyString) as [|a flags]; [discriminate|].
  all: destruct a as [[] [] [] [] [] [] [] []]; try discriminate.
  all: destruct (parse_flags flags flags_unset) as [msg|f] eqn:Hp;
    [discriminate|].
  all: pose proof (parse_flags_keeps_start flags flags_unset f Hp
                     ltac:(discriminate)) as Hs.
  all: destruct f as [[] [] [] []]; cbn in Hs |- *; try discriminate;
    try congruence.
  all: intros H; injection H as <-; cbn.
  all: repeat split; auto; try discriminate; try lia; try congruence;
    intros; try discriminate; try congruence; try lia.
Qed.

Lemma accepted_command_line_witness :
  let c := {| cf_flags := {| cm := CM_LE; cmstart := CM_LT;
                             printing := PR_OFFSETS; incomplete := IN_USE |};
              cf_filename := "f"%string;
              cf_x := bytes_of_string "key";
              cf_y := None |} in
  let f := cf_flags c in
  (cm f = CM_LE \/ cm f = CM_LT \/ cm f = CM_LP) /\
  (cmstart f = CM_LE \/ cmstart f = CM_LT) /\
  printing f <> PR_UNSET /\
  incomplete f <> IN_UNSET /\
  (cmstart f = CM_LT ->
   cf_y c = None /\ cm f = CM_LE /\ printing f = PR_OFFSETS) /\
  (cf_y c = None -> cm f = CM_LE -> printing f = PR_OFFSETS) /\
  (cf_y c = None <->
   length ["pts_lbsearch"; "-eao"; "f"; "key"]%string = 4%nat) /\
  (length ["pts_lbsearch"; "-eao"; "f"; "key"]%string = 4%nat \/
   length ["pts_lbsearch"; "-eao"; "f"; "key"]%string = 5%nat).
Proof.
  exact (accepted_command_line
           ["pts_lbsearch"; "-eao"; "f"; "key"]%string _ eq_refl).
Defined.

(** ** [format_unsigned] *)

Lemma decimal_value_snoc (ds : list byte) (d : byte) :
  decimal_value (ds ++ [d]) = decimal_value ds * 10 + (d - 48).
Proof. unfold decimal_value. now rewrite fold_left_app. Qed.

Lemma pow2_succ_nat (n : nat) : 2 ^ Z.of_nat (S n) = 2 * 2 ^ Z.of_nat n.
Proof. rewrite Nat2Z.inj_succ, Z.pow_succ_r by lia. reflexivity. Qed.

Lemma pow10_succ_nat (n : nat) : 10 ^ Z.of_nat (S n) = 10 * 10 ^ Z.of_nat n.
Proof. rewrite Nat2Z.inj_succ, Z.pow_succ_r by lia. reflexivity. Qed.

(** The digits of the loop, least significant first: they denote [i], the
    last one is not a zero unless [i] is, and there are no more of them
    than [i] has decimal places. *)
Lemma format_digits_spec (fuel : nat) :
  forall i, 0 <= i < 2 ^ Z.of_nat fuel -> (0 < fuel)%nat ->
    decimal_value (rev (format_digits fuel i)) = i /\
    forallb is_digit (format_digits fuel i) = true /\
    (exists init d, format_digits fuel i = init ++ [d] /\ (i <> 0 -> d <> 48)) /\
    (forall k, i < 10 ^ Z.of_nat k -> (0 < k)%nat ->
       (length (format_digits fuel i) <= k)%nat).
Proof.
  induction fuel as [|fuel IH]; intros i Hi Hfuel; [lia|].
  cbn [format_digits].
  pose proof (Z.mod_pos_bound i 10 ltac:(lia)) as Hmod.
  pose proof (Z.div_mod i 10 ltac:(lia)) as Hdm.
  assert (Hdig : is_digit (48 + i mod 10) = true)
    by (unfold is_digit; apply andb_true_iff; split; apply Z.leb_le; lia).
  destruct (i / 10 =? 0) eqn:E.
  - apply Z.eqb_eq in E. split; [|split; [|split]].
    + unfold decimal_value. cbn [rev app fold_left]. lia.
    + cbn [forallb]. now rewrite Hdig.
    + exists [], (48 + i mod 10). split; [reflexivity|]. lia.
    + intros k _ Hk. cbn [length]. lia.
  - apply Z.eqb_neq in E.
    assert (Hq : 0 < i / 10) by (pose proof (Z.div_pos i 10); lia).
    rewrite pow2_succ_nat in Hi.
    assert (Hq2 : i / 10 < 2 ^ Z.of_nat fuel) by lia.
    assert (Hf : (0 < fuel)%nat).
    { destruct fuel; [cbn in Hq2; lia|lia]. }
    destruct (IH (i / 10) ltac:(lia) Hf) as (Hv & Hd & (init & d & Hl & Hlead) & Hlen).
    split; [|split; [|split]].
    + cbn [rev]. rewrite decimal_value_snoc, Hv. lia.
    + cbn [forallb]. now rewrite Hdig, Hd.
    + exists ((48 + i mod 10) :: init), d. split.
      * now rewrite Hl.
      * intros _. apply Hlead. lia.
    + intros k Hk Hk0. destruct k as [|k]; [lia|].
      rewrite pow10_succ_nat in Hk. cbn [length].
      assert (Hk' : (0 < k)%nat).
      { destruct k; [cbn in Hk; lia|lia]. }
      specialize (Hlen k ltac:(lia) Hk'). lia.
Qed.

Lemma format_fuel_enough (i : Z) :
  0 <= i -> i < 2 ^ Z.of_nat (S (Z.to_nat (Z.log2 i))).
Proof.
  intros Hi. rewrite Nat2Z.inj_succ, Z2Nat.id by apply Z.log2_nonneg.
  destruct (Z.eq_dec i 0) as [->|Hne]; [reflexivity|].
  apply Z.log2_spec. lia.
Qed.

(** X4.  [format_unsigned] writes [i] in decimal: its output is made of
    digits, denotes [i], and begins with a zero only when [i] is 0. *)
Theorem format_unsigned_round_trip (i : Z) :
  0 <= i ->
  exists d rest,
    format_unsigned i = Ok (d :: rest) /\
    decimal_value (d :: rest) = i /\
    forallb is_digit (d :: rest) = true /\
    (d = 48 -> i = 0 /\ rest = []).
Proof.
  intros Hi. unfold format_unsigned.
  destruct (i <? 0) eqn:E; [lia|].
  destruct (format_digits_spec _ i (conj Hi (format_fuel_enough i Hi))
              ltac:(lia)) as (Hv & Hd & (init & d & Hl & Hlead) & _).
  rewrite Hl in *. rewrite rev_app_distr in *. cbn [rev app] in *.
  exists d, (rev init). split; [reflexivity|]. split; [exact Hv|]. split.
  - rewrite forallb_app in Hd. apply andb_true_iff in Hd as [Hi' Hd'].
    cbn [forallb] in Hd' |- *. apply andb_true_iff in Hd' as [Hd' _].
    rewrite Hd'. cbn [andb]. rewrite forallb_forall in Hi' |- *.
    intros x Hx. apply Hi'. now apply in_rev.
  - intros ->. destruct (Z.eq_dec i 0) as [Hz|Hne];
      [|exfalso; now apply Hlead].
    split; [exact Hz|]. rewrite Hz in Hl.
    change (format_digits (S (Z.to_nat (Z.log2 0))) 0) with [48] in Hl.
    destruct init as [|a init]; [reflexivity|].
    exfalso. cbn [app] in Hl. injection Hl as _ Hl.
    destruct init; discriminate.
Qed.

Lemma format_unsigned_round_trip_witness :
  exists d rest,
    format_unsigned 1303 = Ok (d :: rest) /\
    decimal_value (d :: rest) = 1303 /\
    forallb is_digit (d :: rest) = true /\
    (d = 48 -> 1303 = 0 /\ rest = []).
Proof. apply (format_unsigned_round_trip 1303). lia. Defined.

(** X5.  Two offsets of a file, a space and a line terminator fit the buffer
    [ofsbuf] of [main], which has [sizeof(off_t) * 6 + 2] = 50 bytes. *)
Theorem offsets_line_fits_buffer (start end_ : Z) (ds de : list byte) :
  0 <= start < 2 ^ 63 -> 0 <= end_ < 2 ^ 63 ->
  format_unsigned start = Ok ds -> format_unsigned end_ = Ok de ->
  (length ds <= 19)%nat /\ (length de <= 19)%nat /\
  Z.of_nat (length (ds ++ [32] ++ de ++ [LF])) <= 8 * 6 + 2.
Proof.
  assert (H : forall i ds, 0 <= i < 2 ^ 63 -> format_unsigned i = Ok ds ->
                           (length ds <= 19)%nat).
  { intros i l Hi. unfold format_unsigned.
    destruct (i <? 0) eqn:E; [lia|]. intros Hf. injection Hf as <-.
    rewrite length_rev.
    destruct (format_digits_spec _ i
                (conj (proj1 Hi) (format_fuel_enough i (proj1 Hi)))
                ltac:(lia)) as (_ & _ & _ & Hlen).
    apply Hlen; [|lia].
    apply Z.lt_le_trans with (2 ^ 63); [lia|]. vm_compute. discriminate. }
  intros Hs He Hds Hde.
  pose proof (H start ds Hs Hds). pose proof (H end_ de He Hde).
  split; [assumption|]. split; [assumption|].
  rewrite !length_app. cbn [length]. lia.
Qed.

Lemma offsets_line_fits_buffer_witness :
  (length (bytes_of_string "6") <= 19)%nat /\
  (length (bytes_of_string "13") <= 19)%nat /\
  Z.of_nat (length (bytes_of_string "6" ++ [32] ++ bytes_of_string "13" ++ [LF]))
  <= 8 * 6 + 2.
Proof.
  apply (offsets_line_fits_buffer 6 13); [lia | lia | reflexivity | reflexivity].
Defined.

(** ** The i386 division *)

Lemma join32_div (q r b low : Z) :
  0 < b -> 0 <= r < b -> 0 <= low < 2 ^ 32 ->
  0 <= I386.join32 r low / b < 2 ^ 32.
Proof.
  intros Hb Hr Hl. unfold I386.join32. split.
  - apply Z.div_pos; lia.
  - apply Z.div_lt_upper_bound; nia.
Qed.

Lemma i386_div_and_mod (a b : Z) :
  0 <= a < 2 ^ 64 -> 0 < b < 2 ^ 32 ->
  I386.UInt64DivAndGetMod a b = inr (a / b, a mod b).
Proof.
  intros Ha Hb. unfold I386.UInt64DivAndGetMod, I386.high32, I386.low32.
  assert (Hup : 0 <= a / 2 ^ 32 < 2 ^ 32).
  { split; [apply Z.div_pos; lia | apply Z.div_lt_upper_bound; lia]. }
  rewrite (Z.mod_small (a / 2 ^ 32)) by lia.
  set (upper := a / 2 ^ 32) in *. set (low := a mod 2 ^ 32).
  assert (Hlow : 0 <= low < 2 ^ 32) by (apply Z.mod_pos_bound; lia).
  assert (Hsplit : a = upper * 2 ^ 32 + low)
    by (subst upper low; pose proof (Z.div_mod a (2 ^ 32)); lia).
  assert (Hdivl : forall r, 0 <= r < b ->
            I386.divl r low b
            = inr (I386.join32 r low / b, I386.join32 r low mod b)).
  { intros r Hr. unfold I386.divl.
    destruct (b =? 0) eqn:E; [lia|].
    pose proof (join32_div 0 r b low ltac:(lia) Hr Hlow) as Hq.
    destruct (I386.join32 r low / b >=? 2 ^ 32) eqn:E1; [lia|reflexivity]. }
  clearbody upper low. subst a.
  destruct (upper >=? b) eqn:E.
  - destruct (b =? 0) eqn:E0; [lia|].
    pose proof (Z.mod_pos_bound upper b ltac:(lia)) as Hr.
    pose proof (Z.div_mod upper b ltac:(lia)) as Hdm.
    rewrite (Hdivl (upper mod b) Hr). unfold I386.join32.
    replace (upper * 2 ^ 32 + low)
      with (upper / b * 2 ^ 32 * b + (upper mod b * 2 ^ 32 + low)) by nia.
    rewrite Z.div_add_l by lia.
    rewrite (Z.add_comm (upper / b * 2 ^ 32 * b)), Z.mod_add by lia.
    reflexivity.
  - rewrite (Hdivl upper ltac:(lia)). unfold I386.join32.
    rewrite Z.mul_0_l, Z.add_0_l. reflexivity.
Qed.

(** X6.  [UInt64DivAndGetMod] divides: for a 64-bit [*a] and a non-zero 32-bit
    [b] it leaves the quotient in [*a] and returns the remainder, which is
    below [b]; its [divl] never overflows. *)
Theorem UInt64DivAndGetMod_divides (a b : Z) :
  0 <= a < 2 ^ 64 -> 0 < b < 2 ^ 32 ->
  exists q r,
    I386.UInt64DivAndGetMod a b = inr (q, r) /\
    q = a / b /\ r = a mod b /\ a = q * b + r /\ 0 <= r < b.
Proof.
  intros Ha Hb. exists (a / b), (a mod b).
  split; [now apply i386_div_and_mod|].
  split; [reflexivity|]. split; [reflexivity|].
  pose proof (Z.div_mod a b ltac:(lia)).
  pose proof (Z.mod_pos_bound a b ltac:(lia)). lia.
Qed.

Lemma UInt64DivAndGetMod_divides_witness :
  exists q r,
    I386.UInt64DivAndGetMod (2 ^ 40 + 7) 10 = inr (q, r) /\
    q = (2 ^ 40 + 7) / 10 /\ r = (2 ^ 40 + 7) mod 10 /\
    2 ^ 40 + 7 = q * 10 + r /\ 0 <= r < 10.
Proof. apply UInt64DivAndGetMod_divides; lia. Defined.

Lemma i386_format_digits_agree (fuel : nat) :
  forall i, 0 <= i < 2 ^ Z.of_nat fuel -> i < 2 ^ 64 -> (0 < fuel)%nat ->
    I386.format_digits fuel i = inr (format_digits fuel i).
Proof.
  induction fuel as [|fuel IH]; intros i Hi H64 Hfuel; [lia|].
  cbn [I386.format_digits format_digits].
  rewrite i386_div_and_mod by lia.
  destruct (i / 10 =? 0) eqn:E; [reflexivity|].
  apply Z.eqb_neq in E.
  pose proof (Z.div_mod i 10 ltac:(lia)) as Hdm.
  pose proof (Z.mod_pos_bound i 10 ltac:(lia)) as Hmod.
  assert (Hq : 0 < i / 10) by (pose proof (Z.div_pos i 10); lia).
  rewrite pow2_succ_nat in Hi.
  assert (Hf : (0 < fuel)%nat).
  { destruct fuel; [cbn in Hi; lia|lia]. }
  rewrite IH by lia. reflexivity.
Qed.

(** X7.  The two variants of [format_unsigned], the one built on
    [UInt64DivAndGetMod] and the one built on [%] and [/], write the same
    digits for every offset. *)
Theorem format_unsigned_variants_agree (i : Z) :
  0 <= i < 2 ^ 63 ->
  exists ds, format_unsigned i = Ok ds /\ I386.format_unsigned i = inr ds.
Proof.
  intros Hi. unfold format_unsigned, I386.format_unsigned.
  destruct (i <? 0) eqn:E; [lia|].
  rewrite (to_ull_small i) by lia.
  rewrite i386_format_digits_agree;
    [eauto | split; [lia|apply format_fuel_enough; lia] | lia | lia].
Qed.

Lemma format_unsigned_variants_agree_witness :
  exists ds, format_unsigned 26 = Ok ds /\ I386.format_unsigned 26 = inr ds.
Proof. apply format_unsigned_variants_agree. lia. Defined.

(** ** [get_fofs] on files whose last line is complete *)

(** X8.  [get_fofs] rounds an offset up to a line start: on a file whose last
    line is complete it returns the least line start at or after the offset,
    never beyond the size, and leaves the cursor on the byte before the offset
    (untouched for offset 0). *)
Theorem get_fofs_least_line_start (yf : yfile) (o : Z) :
  yfile_ok yf -> terminated yf = true -> 0 <= o <= size yf ->
  exists f,
    get_fofs o yf = Ok (f, if o =? 0 then yf else set_ofs yf (o - 1)) /\
    o <= f <= size yf /\
    is_bol yf f = true /\
    (forall g, o <= g < f -> is_bol yf g = false).
Proof.
  intros Hok Hterm Ho.
  destruct (get_fofs_next_bol yf Hok Hterm (ofs yf) o Ho)
    as (Hget & Hrange & Hbol & Hleast).
  rewrite set_ofs_ofs in Hget.
  exists (next_bol yf o). split.
  - rewrite Hget. destruct (o =? 0); [now rewrite set_ofs_ofs|reflexivity].
  - split; [exact Hrange|]. split; [exact Hbol|].
    intros g Hg. destruct (is_bol yf g) eqn:E; [|reflexivity].
    specialize (Hleast g ltac:(lia) E). lia.
Qed.

Lemma get_fofs_least_line_start_witness :
  exists f,
    get_fofs 3 (yfile_of abc_file 0)
    = Ok (f, if 3 =? 0 then yfile_of abc_file 0
             else set_ofs (yfile_of abc_file 0) (3 - 1)) /\
    3 <= f <= size (yfile_of abc_file 0) /\
    is_bol (yfile_of abc_file 0) f = true /\
    (forall g, 3 <= g < f -> is_bol (yfile_of abc_file 0) g = false).
Proof.
  apply get_fofs_least_line_start; [reflexivity | reflexivity | cbn; lia].
Defined.

(** X9.  Resolving is idempotent and monotone: the offset [get_fofs] returns
    resolves to itself, and a larger offset never resolves to a smaller line
    start. *)
Theorem get_fofs_idempotent_monotone (yf : yfile) (o1 o2 : Z) :
  yfile_ok yf -> terminated yf = true -> 0 <= o1 <= o2 -> o2 <= size yf ->
  exists f1 f2,
    value (get_fofs o1 yf) = Ok f1 /\
    value (get_fofs o2 yf) = Ok f2 /\
    f1 <= f2 /\
    value ((f <- get_fofs o1 ;; get_fofs f) yf) = Ok f1 /\
    value ((f <- get_fofs o2 ;; get_fofs f) yf) = Ok f2.
Proof.
  intros Hok Hterm H1 H2.
  assert (Hres : forall o g, 0 <= o <= size yf ->
            value (get_fofs o (set_ofs yf g)) = Ok (next_bol yf o)).
  { intros o g Ho. destruct (get_fofs_next_bol yf Hok Hterm g o Ho) as (H & _).
    now rewrite H. }
  assert (Hidem : forall o, 0 <= o <= size yf ->
            value ((f <- get_fofs o ;; get_fofs f) yf) = Ok (next_bol yf o)).
  { intros o Ho.
    destruct (get_fofs_next_bol yf Hok Hterm (ofs yf) o Ho) as (H & Hr & Hb & _).
    rewrite set_ofs_ofs in H. rewrite (bind_ok _ _ _ _ _ H).
    rewrite Hres by lia.
    now rewrite (next_bol_fixed yf Hok Hterm (next_bol yf o) ltac:(lia) Hb). }
  exists (next_bol yf o1), (next_bol yf o2).
  pose proof (Hres o1 (ofs yf) ltac:(lia)) as R1.
  pose proof (Hres o2 (ofs yf) ltac:(lia)) as R2.
  rewrite set_ofs_ofs in R1, R2.
  split; [exact R1|]. split; [exact R2|].
  split; [apply (next_bol_mono yf Hok Hterm); lia|].
  split; apply Hidem; lia.
Qed.

Lemma get_fofs_idempotent_monotone_witness :
  exists f1 f2,
    value (get_fofs 1 (yfile_of abc_file 0)) = Ok f1 /\
    value (get_fofs 5 (yfile_of abc_file 0)) = Ok f2 /\
    f1 <= f2 /\
    value ((f <- get_fofs 1 ;; get_fofs f) (yfile_of abc_file 0)) = Ok f1 /\
    value ((f <- get_fofs 5 ;; get_fofs f) (yfile_of abc_file 0)) = Ok f2.
Proof.
  apply get_fofs_idempotent_monotone;
    [reflexivity | reflexivity | lia | cbn; lia].
Defined.

(** ** [bisect_way] over any range of a file whose last line is complete *)

Section Range.

Variable yf : yfile.
Hypothesis Hok : yfile_ok yf.
Hypothesis Hterm : terminated yf = true.
Variable x : list byte.
Variable cm : compare_mode_t.

Lemma get_fofs_value (o g : Z) :
  0 <= o <= size yf ->
  value (get_fofs o (set_ofs yf g)) = Ok (next_bol yf o).
Proof.
  intros Ho. destruct (get_fofs_next_bol yf Hok Hterm g o Ho) as (H & _).
  now rewrite H.
Qed.

Lemma bisect_way_over_range (lo hi g : Z) :
  0 <= lo < hi -> hi <= size yf ->
  (x = [] -> cm <> CM_LE /\ cm <> CM_LP) ->
  exists o g',
    bisect_way lo hi x cm (set_ofs yf g)
      = Ok (next_bol yf o, set_ofs yf g') /\
    lo <= o <= hi /\
    g' <= next_bol yf o /\
    (lo < o -> probe yf x cm (o - 1) = false) /\
    (o < hi -> probe yf x cm o = true).
Proof.
  intros Hlo Hhi Hx.
  pose proof (yfile_ok_max yf Hok) as Hmax. unfold max_size in Hmax.
  unfold bisect_way, yfgetsize. cbn [size set_ofs].
  rewrite (to_ull_small hi), (to_ull_small (size yf)) by lia.
  destruct (hi >? size yf) eqn:E; [lia|].
  assert (Hshort : ((Z.of_nat (length x) =? 0) && cm_eqb cm CM_LE) = false
                   /\ ((Z.of_nat (length x) =? 0) && cm_eqb cm CM_LP) = false).
  { destruct x as [|b x'].
    - destruct (Hx eq_refl) as [H1 H2]. now destruct cm.
    - assert (E' : (Z.of_nat (length (b :: x')) =? 0) = false)
        by (apply Z.eqb_neq; cbn [length]; lia).
      now rewrite E'. }
  destruct Hshort as [Hs1 Hs2]. rewrite Hs1, Hs2. cbn [andb].
  destruct (lo >=? hi) eqn:E1; [lia|].
  apply (bisect_way_loop_spec yf Hok Hterm x cm); lia.
Qed.

Lemma bisect_way_loop_cursor (fuel : nat) :
  forall lo hi g b yf',
    0 <= lo < hi -> hi <= size yf -> (Z.to_nat (hi - lo) <= fuel)%nat ->
    bisect_way_loop fuel lo hi x cm (set_ofs yf g) = Ok (b, yf') ->
    0 <= ofs yf'.
Proof.
  induction fuel as [|fuel IH]; intros lo hi g b yf' Hlo Hhi Hfuel; [lia|].
  pose proof (yfile_ok_max yf Hok) as Hmax. unfold max_size in Hmax.
  cbn [bisect_way_loop].
  rewrite (off_t_wrap_small (lo + hi)) by lia.
  rewrite shiftr_one_half.
  set (mid := (lo + hi) / 2).
  assert (Hmid : lo <= mid < hi) by (subst mid; split;
    [apply Z.div_le_lower_bound | apply Z.div_lt_upper_bound]; lia).
  destruct (get_fofs_next_bol yf Hok Hterm g mid) as (Hget & Hnb & _); [lia|].
  rewrite (bind_ok _ _ _ _ _ Hget).
  rewrite (bind_ok _ _ _ _ _
             (compare_line_verdict yf _ (next_bol yf mid) x cm Hok
                ltac:(lia))).
  rewrite (off_t_wrap_small (mid + 1)) by lia.
  destruct (verdict yf x cm (next_bol yf mid)).
  - destruct (lo <? mid) eqn:Hlt.
    + apply IH; lia.
    + destruct (mid =? lo); unfold ret.
      * intros H. injection H as _ <-. cbn [ofs set_ofs]. lia.
      * destruct (get_fofs_next_bol yf Hok Hterm (next_bol yf mid) lo)
          as (Hget' & _); [lia|].
        rewrite Hget'. intros H. injection H as _ <-. cbn [ofs set_ofs].
        destruct (lo =? 0) eqn:E0; lia.
  - destruct (mid + 1 <? hi) eqn:Hlt.
    + apply IH; lia.
    + destruct (mid =? mid + 1); unfold ret.
      * intros H. injection H as _ <-. cbn [ofs set_ofs]. lia.
      * destruct (get_fofs_next_bol yf Hok Hterm (next_bol yf mid) (mid + 1))
          as (Hget' & _); [lia|].
        rewrite Hget'. intros H. injection H as _ <-. cbn [ofs set_ofs].
        destruct (mid + 1 =? 0) eqn:E0; lia.
Qed.

End Range.

(** X10.  Whatever the order of the lines, [bisect_way] for a non-empty key
    over a range [lo < hi <= size] of a file whose last line is complete
    returns a line start of the file, at or after [lo], whose line
    [compare_line] accepts, unless it is the line start that [hi] resolves
    to.  (For the empty key under [CM_LE] the range is emptied and the
    cursor returned.) *)
Theorem bisect_way_returns_line_start (yf : yfile) (lo hi : Z)
  (x : list byte) (cm : compare_mode_t) :
  yfile_ok yf -> terminated yf = true ->
  0 <= lo < hi -> hi <= size yf -> x <> [] ->
  exists b yf',
    bisect_way lo hi x cm yf = Ok (b, yf') /\
    mmap yf' = mmap yf /\ size yf' = size yf /\
    is_bol yf b = true /\
    lo <= b <= size yf /\
    (value (compare_line b x cm yf) = Ok true \/
     value (get_fofs hi yf) = Ok b).
Proof.
  intros Hok Hterm Hlo Hhi Hx.
  destruct (bisect_way_over_range yf Hok Hterm x cm lo hi (ofs yf) Hlo Hhi)
    as (o & g' & Hr & Ho & _ & _ & Hup); [intros E; contradiction|].
  rewrite set_ofs_ofs in Hr.
  pose proof (next_bol_bounds yf Hok Hterm o ltac:(lia)) as Hnb.
  exists (next_bol yf o), (set_ofs yf g').
  split; [exact Hr|]. split; [reflexivity|]. split; [reflexivity|].
  split; [apply (next_bol_is_bol yf Hok Hterm); lia|]. split; [lia|].
  destruct (Z.eq_dec o hi) as [->|Hne].
  - right. rewrite <- (set_ofs_ofs yf) at 1.
    apply (get_fofs_value yf Hok Hterm). lia.
  - left. specialize (Hup ltac:(lia)). unfold probe in Hup.
    pose proof (compare_line_verdict yf (ofs yf) (next_bol yf o) x cm Hok
                  ltac:(lia)) as Hc.
    rewrite set_ofs_ofs in Hc. rewrite Hc. cbn. now rewrite Hup.
Qed.

Lemma bisect_way_returns_line_start_witness :
  exists b yf',
    bisect_way 1 6 (bytes_of_string "b") CM_LE
      (yfile_of (file_of_lines ["c"; "a"; "b"]%string) 0) = Ok (b, yf') /\
    mmap yf' = mmap (yfile_of (file_of_lines ["c"; "a"; "b"]%string) 0) /\
    size yf' = size (yfile_of (file_of_lines ["c"; "a"; "b"]%string) 0) /\
    is_bol (yfile_of (file_of_lines ["c"; "a"; "b"]%string) 0) b = true /\
    1 <= b <= size (yfile_of (file_of_lines ["c"; "a"; "b"]%string) 0) /\
    (value (compare_line b (bytes_of_string "b") CM_LE
              (yfile_of (file_of_lines ["c"; "a"; "b"]%string) 0)) = Ok true \/
     value (get_fofs 6 (yfile_of (file_of_lines ["c"; "a"; "b"]%string) 0))
       = Ok b).
Proof.
  apply bisect_way_returns_line_start;
    [reflexivity | reflexivity | lia | cbn; lia | discriminate].
Defined.

(** X11.  On sorted, complete lines of bytes below 128, [bisect_way] for a
    non-empty key over a range [lo < hi <= size] returns the first line
    start of the range whose line [compare_line] accepts: every line start
    from [lo] up to the result is rejected, and the result is accepted
    unless the range holds no accepted line, in which case it is the line
    start that [hi] resolves to.  (For the empty key under [CM_LE] the
    range is emptied and the cursor returned.) *)
Theorem bisect_way_first_accepted (yf : yfile) (lo hi : Z)
  (x : list byte) (cm : compare_mode_t) :
  yfile_ok yf -> terminated yf = true ->
  ascii_only yf = true -> sorted_lines yf = true ->
  0 <= lo < hi -> hi <= size yf -> x <> [] ->
  exists b yf',
    bisect_way lo hi x cm yf = Ok (b, yf') /\
    is_bol yf b = true /\ lo <= b <= size yf /\
    (forall f, is_bol yf f = true -> lo <= f < b ->
       value (compare_line f x cm yf) = Ok false) /\
    (value (compare_line b x cm yf) = Ok true \/
     value (get_fofs hi yf) = Ok b).
Proof.
  intros Hok Hterm Hascii Hsorted Hlo Hhi Hx.
  pose proof (ascii_sorted_monotone yf x cm Hok Hascii Hsorted) as Hmono.
  destruct (bisect_way_over_range yf Hok Hterm x cm lo hi (ofs yf) Hlo Hhi)
    as (o & g' & Hr & Ho & _ & Hlow & Hup); [intros E; contradiction|].
  rewrite set_ofs_ofs in Hr.
  pose proof (next_bol_bounds yf Hok Hterm o ltac:(lia)) as Hnb.
  assert (Hcmp : forall f, 0 <= f <= size yf ->
            value (compare_line f x cm yf) = Ok (verdict yf x cm f)).
  { intros f Hf.
    pose proof (compare_line_verdict yf (ofs yf) f x cm Hok Hf) as Hc.
    rewrite set_ofs_ofs in Hc. now rewrite Hc. }
  exists (next_bol yf o), (set_ofs yf g').
  split; [exact Hr|].
  split; [apply (next_bol_is_bol yf Hok Hterm); lia|]. split; [lia|].
  split.
  - intros f Hf Hrange. rewrite Hcmp by lia. f_equal.
    destruct (verdict yf x cm f) eqn:Hv; [|reflexivity]. exfalso.
    assert (Hfo : f < o).
    { destruct (Z_lt_le_dec f o) as [|Hge]; [assumption|].
      pose proof (next_bol_least yf Hok Hterm o f ltac:(lia) Hge Hf). lia. }
    assert (Hrej : probe yf x cm (o - 1) = false) by (apply Hlow; lia).
    unfold probe in Hrej.
    pose proof (next_bol_bounds yf Hok Hterm (o - 1) ltac:(lia)) as Hnb1.
    pose proof (next_bol_is_bol yf Hok Hterm (o - 1) ltac:(lia)) as Hbol1.
    pose proof (next_bol_mono yf Hok Hterm f (o - 1) ltac:(lia) ltac:(lia))
      as Hm.
    rewrite (next_bol_fixed yf Hok Hterm f ltac:(lia) Hf) in Hm.
    rewrite (Hmono f (next_bol yf (o - 1)) Hf Hbol1 ltac:(lia) ltac:(lia) Hv)
      in Hrej.
    discriminate.
  - destruct (Z.eq_dec o hi) as [->|Hne].
    + right. rewrite <- (set_ofs_ofs yf) at 1.
      apply (get_fofs_value yf Hok Hterm). lia.
    + left. specialize (Hup ltac:(lia)). unfold probe in Hup.
      rewrite Hcmp by lia. now rewrite Hup.
Qed.

Lemma bisect_way_first_accepted_witness :
  exists b yf',
    bisect_way 2 7 (bytes_of_string "c") CM_LT (yfile_of abc_file 0)
      = Ok (b, yf') /\
    is_bol (yfile_of abc_file 0) b = true /\
    2 <= b <= size (yfile_of abc_file 0) /\
    (forall f, is_bol (yfile_of abc_file 0) f = true -> 2 <= f < b ->
       value (compare_line f (bytes_of_string "c") CM_LT (yfile_of abc_file 0))
       = Ok false) /\
    (value (compare_line b (bytes_of_string "c") CM_LT (yfile_of abc_file 0))
     = Ok true \/
     value (get_fofs 7 (yfile_of abc_file 0)) = Ok b).
Proof.
  apply bisect_way_first_accepted;
    [reflexivity | reflexivity | reflexivity | reflexivity | lia | cbn; lia
    | discriminate].
Defined.

(** ** What [compare_line] looks at *)

(** X12.  [compare_line] looks at one byte of the line only: two lines that
    begin with the same byte get the same answer, for every key and mode,
    whatever follows that byte. *)
Theorem compare_line_reads_one_byte (yf yf' : yfile) (f f' : Z) (b : byte)
  (x : list byte) (cm : compare_mode_t) :
  yfile_ok yf -> yfile_ok yf' ->
  byte_at yf f = Some b -> byte_at yf' f' = Some b ->
  value (compare_line f x cm yf) = value (compare_line f' x cm yf').
Proof.
  intros Hok Hok' Hb Hb'.
  pose proof (byte_at_lt_size yf f b Hok Hb) as Hf.
  pose proof (byte_at_lt_size yf' f' b Hok' Hb') as Hf'.
  rewrite (compare_line_at_byte yf x cm f b ltac:(lia) Hb).
  rewrite (compare_line_at_byte yf' x cm f' b ltac:(lia) Hb').
  reflexivity.
Qed.

Lemma compare_line_reads_one_byte_witness :
  value (compare_line 0 (bytes_of_string "bm") CM_LE
           (yfile_of (file_of_lines ["ba"]%string) 0))
  = value (compare_line 3 (bytes_of_string "bm") CM_LE
             (yfile_of (file_of_lines ["az"; "bz"]%string) 0)).
Proof.
  apply (compare_line_reads_one_byte _ _ 0 3 98);
    [reflexivity | reflexivity | reflexivity | reflexivity].
Defined.

(** X13.  Where [compare_line] is right.  On a line that is empty, or for an
    empty key, or when the key and the line begin with different bytes, the
    line beginning with a byte below 128, the answer is the one the mode asks
    for: [x <= l], [x < l], or [x* < l]. *)
Theorem compare_line_exact_on_first_byte (yf : yfile) (f : Z) (b : byte)
  (x : list byte) (cm : compare_mode_t) :
  yfile_ok yf -> byte_at yf f = Some b -> b < 128 ->
  b = LF \/ x = [] \/ (exists a x', x = a :: x' /\ a <> b) ->
  value (compare_line f x cm yf) = Ok (key_rel cm x (line_at yf f)).
Proof.
  intros Hok Hb Hascii Hcase.
  pose proof (byte_at_lt_size yf f b Hok Hb) as Hf.
  pose proof (yfile_ok_bytes yf b Hok (byte_at_in yf f b Hb)) as Hbyte.
  rewrite (compare_line_at_byte yf x cm f b ltac:(lia) Hb).
  rewrite (line_at_head yf f b Hb).
  assert (Hc : char_to_int b = b)
    by (unfold char_to_int; destruct (b <? 128) eqn:E; [reflexivity|lia]).
  rewrite Hc. cbn [value fmap_result fst]. f_equal.
  destruct (Z.eqb_spec b LF) as [->|Hne].
  - rewrite byte_verdict_eol by now right.
    destruct cm, x; reflexivity.
  - assert (E : ((b <? 0) || (b =? LF)) = false)
      by (apply orb_false_iff; split; [apply Z.ltb_ge | apply Z.eqb_neq]; lia).
    destruct Hcase as [->|[->|(a & x' & -> & Hab)]]; [contradiction| |].
    + cbn [byte_verdict]. rewrite E.
      destruct cm; cbn [key_rel cm_eqb negb lex_leb lex_ltb app];
        try reflexivity.
      destruct (256 <? b) eqn:E1; [lia|].
      destruct (256 =? b) eqn:E2; [lia|]. reflexivity.
    + cbn [byte_verdict]. rewrite E.
      destruct (a =? b) eqn:Eab; [apply Z.eqb_eq in Eab; contradiction|].
      cbn [negb].
      destruct cm; cbn [key_rel lex_leb lex_ltb app]; rewrite Eab;
        cbn [andb]; now rewrite orb_false_r.
Qed.

Lemma compare_line_exact_on_first_byte_witness :
  value (compare_line 2 (bytes_of_string "ab") CM_LP (yfile_of abc_file 0))
  = Ok (key_rel CM_LP (bytes_of_string "ab")
          (line_at (yfile_of abc_file 0) 2)).
Proof.
  apply (compare_line_exact_on_first_byte _ 2 98);
    [reflexivity | reflexivity | lia |].
  right. right. exists 97, [98]. split; [reflexivity|lia].
Defined.

(** ** The offsets that [main] prints *)

Lemma format_unsigned_value (i : Z) :
  0 <= i -> exists ds, format_unsigned i = Ok ds /\ decimal_value ds = i.
Proof.
  intros Hi. unfold format_unsigned.
  destruct (i <? 0) eqn:E; [lia|].
  destruct (format_digits_spec _ i (conj Hi (format_fuel_enough i Hi))
              ltac:(lia)) as (Hv & _).
  eauto.
Qed.

Lemma bisect_way_minus_one (yf : yfile) (lo : Z) (x : list byte)
  (cm : compare_mode_t) :
  yfile_ok yf -> 0 <= size yf ->
  bisect_way lo (-1) x cm yf = bisect_way lo (size yf) x cm yf.
Proof.
  intros Hok Hsz. destruct (clamp_to_size yf Hok Hsz) as [H1 H2].
  unfold bisect_way, yfgetsize. now rewrite H1, H2.
Qed.

Lemma bisect_way_minus_one_at (yf : yfile) (lo g : Z) (x : list byte)
  (cm : compare_mode_t) :
  yfile_ok yf -> 0 <= size yf ->
  bisect_way lo (-1) x cm (set_ofs yf g)
  = bisect_way lo (size yf) x cm (set_ofs yf g).
Proof.
  intros Hok Hsz. destruct (clamp_to_size yf Hok Hsz) as [H1 H2].
  unfold bisect_way, yfgetsize. cbn [size set_ofs]. now rewrite H1, H2.
Qed.

(** X14.  The commands [-eo] and [-eao] with one key print one offset.  On
    sorted, complete lines of bytes below 128 and for a non-empty key it is
    the start of the first line that [compare_line] accepts under the start
    mode (the size of the file when there is none), in decimal and followed by
    a line terminator, with exit status 0; where [compare_line] answers as the
    mode asks, that is the first line not below the key under [CM_LE], and the
    first line above it under [CM_LT]. *)
Theorem single_offset_prints_boundary (w : world) (yf : yfile)
  (x : list byte) (cmstart : compare_mode_t) :
  yfile_ok yf -> terminated yf = true ->
  ascii_only yf = true -> sorted_lines yf = true -> x <> [] ->
  (forall buf, write_stdout w buf = Written (length buf)) ->
  exists b ds,
    main_single_offset w yf x cmstart = Exit 0 (ds ++ [LF]) /\
    decimal_value ds = b /\
    is_bol yf b = true /\ 0 <= b <= size yf /\
    (forall f, In f (line_starts yf) ->
       (f < b <-> value (compare_line f x cmstart yf) = Ok false)) /\
    (comparator_exact yf x cmstart = true ->
     forall f, In f (line_starts yf) ->
       (f < b <-> key_rel cmstart x (line_at yf f) = false)).
Proof.
  intros Hok Hterm Hascii Hsorted Hx Hw.
  pose proof (terminated_size_pos yf Hok Hterm) as Hpos.
  pose proof (ascii_sorted_monotone yf x cmstart Hok Hascii Hsorted) as Hmono.
  destruct (bisect_way_boundary yf Hok Hterm x cmstart Hmono 0 (-1) (ofs yf))
    as (b & g' & Hr & (Hrange & Hbol & Hb) & _);
    [lia | now right | intros E; contradiction |].
  rewrite set_ofs_ofs in Hr.
  destruct (format_unsigned_value b ltac:(lia)) as (ds & Hds & Hval).
  assert (Hv : forall f, In f (line_starts yf) ->
            value (compare_line f x cmstart yf) = Ok (verdict yf x cmstart f)
            /\ (f < b <-> verdict yf x cmstart f = false)).
  { intros f Hf. apply (in_line_starts yf f Hok) in Hf as [Hf Hfb]. split.
    - pose proof (compare_line_verdict yf (ofs yf) f x cmstart Hok
                    ltac:(lia)) as Hc.
      rewrite set_ofs_ofs in Hc. now rewrite Hc.
    - specialize (Hb f Hfb ltac:(lia)).
      destruct (verdict yf x cmstart f); split; intros H;
        try discriminate; try reflexivity.
      + assert (b <= f) by now apply Hb. lia.
      + destruct (Z_lt_le_dec f b) as [|Hge]; [assumption|].
        apply Hb in Hge. discriminate. }
  exists b, ds. split.
  - unfold main_single_offset, run. rewrite Hr, Hds. cbv zeta.
    now rewrite write_all_works by apply Hw.
  - split; [exact Hval|]. split; [exact Hbol|]. split; [lia|]. split.
    + intros f Hf. destruct (Hv f Hf) as [Hc Hiff]. rewrite Hc, Hiff.
      split; [now intros ->|]. intros H. now injection H.
    + intros Hex f Hf. destruct (Hv f Hf) as [_ Hiff].
      now rewrite <- (comparator_exact_spec yf x cmstart f Hex Hf).
Qed.

Lemma single_offset_prints_boundary_witness :
  exists b ds,
    main_single_offset (world_of abc_file 0) (yfile_of abc_file 0)
      (bytes_of_string "bb") CM_LE = Exit 0 (ds ++ [LF]) /\
    decimal_value ds = b /\
    is_bol (yfile_of abc_file 0) b = true /\
    0 <= b <= size (yfile_of abc_file 0) /\
    (forall f, In f (line_starts (yfile_of abc_file 0)) ->
       (f < b <->
        value (compare_line f (bytes_of_string "bb") CM_LE
                 (yfile_of abc_file 0)) = Ok false)) /\
    (comparator_exact (yfile_of abc_file 0) (bytes_of_string "bb") CM_LE
     = true ->
     forall f, In f (line_starts (yfile_of abc_file 0)) ->
       (f < b <->
        key_rel CM_LE (bytes_of_string "bb")
          (line_at (yfile_of abc_file 0) f) = false)).
Proof.
  apply single_offset_prints_boundary;
    [reflexivity | reflexivity | reflexivity | reflexivity | discriminate
    | intros buf; reflexivity].
Defined.

(** The second bisection of an interval query ends inside the file. *)
Lemma bisect_way_ends_in_file (yf : yfile) (lo g : Z) (y : list byte)
  (cm : compare_mode_t) :
  yfile_ok yf -> terminated yf = true ->
  0 <= lo <= size yf -> 0 <= g <= size yf ->
  exists e yf',
    bisect_way lo (-1) y cm (set_ofs yf g) = Ok (e, yf') /\
    0 <= e <= size yf.
Proof.
  intros Hok Hterm Hlo Hg.
  pose proof (terminated_size_pos yf Hok Hterm) as Hpos.
  destruct (clamp_to_size yf Hok ltac:(lia)) as [_ Hc].
  unfold bisect_way, yfgetsize. cbn [size set_ofs ofs]. rewrite Hc.
  set (hi2 := if (Z.of_nat (length y) =? 0) && cm_eqb cm CM_LE
              then lo else size yf).
  assert (Hhi2 : hi2 = lo \/ hi2 = size yf)
    by (subst hi2;
        destruct ((Z.of_nat (length y) =? 0) && cm_eqb cm CM_LE); auto).
  clearbody hi2.
  destruct ((Z.of_nat (length y) =? 0) && cm_eqb cm CM_LP
            && (hi2 =? size yf)) eqn:E.
  - apply andb_true_iff in E as [_ E]. apply Z.eqb_eq in E.
    exists hi2, (set_ofs yf g). split; [reflexivity|lia].
  - destruct (lo >=? hi2) eqn:E1.
    + exists g, (set_ofs yf g). split; [reflexivity|lia].
    + assert (hi2 = size yf) by (destruct Hhi2; lia). subst hi2.
      destruct (bisect_way_loop_spec yf Hok Hterm y cm
                  (Z.to_nat (size yf - lo)) lo (size yf) g)
        as (o & g' & Hr & Ho & _); [lia | lia | lia |].
      pose proof (next_bol_bounds yf Hok Hterm o ltac:(lia)).
      exists (next_bol yf o), (set_ofs yf g'). split; [exact Hr|lia].
Qed.

(** X15.  Printing offsets never fails on a file whose last line is complete:
    for a non-empty lower key, whatever the order of the lines, and with a
    standard output that takes every write whole, the command prints two
    offsets of the file in decimal, separated by a space, and ends with status
    3 when the first is not below the second and with status 0 otherwise. *)
Theorem offsets_mode_prints_two_offsets (w : world) (yf : yfile)
  (cm : compare_mode_t) (x y : list byte) :
  yfile_ok yf -> terminated yf = true -> x <> [] ->
  (forall buf, write_stdout w buf = Written (length buf)) ->
  exists start end_ ds de,
    main_interval w yf cm PR_OFFSETS x y
    = Exit (if start >=? end_ then 3 else 0) (ds ++ [32] ++ de ++ [LF]) /\
    decimal_value ds = start /\ decimal_value de = end_ /\
    0 <= start <= size yf /\ 0 <= end_ <= size yf /\
    is_bol yf start = true.
Proof.
  intros Hok Hterm Hx Hw.
  pose proof (terminated_size_pos yf Hok Hterm) as Hpos.
  assert (Hfirst : exists start g1,
            bisect_way 0 (-1) x CM_LE yf = Ok (start, set_ofs yf g1) /\
            0 <= start <= size yf /\ is_bol yf start = true /\
            0 <= g1 <= start).
  { rewrite bisect_way_minus_one by (auto; lia).
    destruct (bisect_way_over_range yf Hok Hterm x CM_LE 0 (size yf) (ofs yf))
      as (o & g1 & Hr & Ho & Hg1 & _); [lia | lia | intros E; contradiction |].
    pose proof (next_bol_bounds yf Hok Hterm o ltac:(lia)) as Hnb.
    assert (Hcur : 0 <= g1).
    { revert Hr. unfold bisect_way, yfgetsize. cbn [size set_ofs].
      destruct (clamp_to_size yf Hok ltac:(lia)) as [-> _].
      assert (E : (Z.of_nat (length x) =? 0) = false)
        by (apply Z.eqb_neq; destruct x; [contradiction|cbn [length]; lia]).
      rewrite E. cbn [andb].
      destruct (0 >=? size yf) eqn:E1; [lia|].
      intros Hr.
      change g1 with (ofs (set_ofs yf g1)).
      eapply (bisect_way_loop_cursor yf Hok Hterm x CM_LE);
        [ | | | exact Hr]; lia. }
    rewrite set_ofs_ofs in Hr.
    exists (next_bol yf o), g1. split; [exact Hr|]. split; [lia|].
    split; [apply (next_bol_is_bol yf Hok Hterm); lia|lia]. }
  destruct Hfirst as (start & g1 & Hr1 & Hs & Hbol & Hg1).
  assert (Hint : exists end_ yf',
            bisect_interval 0 (-1) cm x y yf = Ok ((start, end_), yf') /\
            0 <= end_ <= size yf).
  { unfold bisect_interval. rewrite (bind_ok _ _ _ _ _ Hr1). cbv beta.
    destruct (cm_eqb cm CM_LE && (Z.of_nat (length x) =? Z.of_nat (length y))
              && bytes_eqb x y).
    - exists start, (set_ofs yf g1). split; [reflexivity|lia].
    - destruct (bisect_way_ends_in_file yf start g1 y cm Hok Hterm)
        as (e & yf' & Hr2 & He); [lia | lia |].
      rewrite (bind_ok _ _ _ _ _ Hr2). exists e, yf'.
      split; [reflexivity|exact He]. }
  destruct Hint as (end_ & yf' & Hint & He).
  destruct (format_unsigned_value start ltac:(lia)) as (ds & Hds & Hvs).
  destruct (format_unsigned_value end_ ltac:(lia)) as (de & Hde & Hve).
  exists start, end_, ds, de. split.
  - unfold main_interval, run. rewrite Hint, Hds, Hde. cbv zeta.
    rewrite write_all_works by apply Hw.
    now destruct (start >=? end_).
  - repeat split; auto; lia.
Qed.

Lemma offsets_mode_prints_two_offsets_witness :
  exists start end_ ds de,
    main_interval (world_of (file_of_lines ["c"; "a"; "b"]%string) 0)
      (yfile_of (file_of_lines ["c"; "a"; "b"]%string) 0)
      CM_LT PR_OFFSETS (bytes_of_string "a") (bytes_of_string "b")
    = Exit (if start >=? end_ then 3 else 0) (ds ++ [32] ++ de ++ [LF]) /\
    decimal_value ds = start /\ decimal_value de = end_ /\
    0 <= start <= size (yfile_of (file_of_lines ["c"; "a"; "b"]%string) 0) /\
    0 <= end_ <= size (yfile_of (file_of_lines ["c"; "a"; "b"]%string) 0) /\
    is_bol (yfile_of (file_of_lines ["c"; "a"; "b"]%string) 0) start = true.
Proof.
  apply offsets_mode_prints_two_offsets;
    [reflexivity | reflexivity | discriminate | intros buf; reflexivity].
Defined.

(** X16.  Printing contents writes whole lines.  On a file whose last line is
    complete, for two non-empty keys, whatever the order of the lines, and
    with a standard output that takes every write whole: the interval starts
    at a line start, and when that is before the end of the file the interval
    ends at a line start not before it, exactly the bytes between the two are
    written, and the exit status is 3 when there are none and 0 otherwise. *)
Theorem contents_mode_prints_whole_lines (w : world) (yf : yfile)
  (cm : compare_mode_t) (x y : list byte) :
  yfile_ok yf -> terminated yf = true -> x <> [] -> y <> [] ->
  (forall buf, write_stdout w buf = Written (length buf)) ->
  exists start end_,
    value (bisect_interval 0 (-1) cm x y yf) = Ok (start, end_) /\
    0 <= start <= size yf /\ is_bol yf start = true /\
    (start < size yf ->
     start <= end_ <= size yf /\ is_bol yf end_ = true /\
     main_interval w yf cm PR_CONTENTS x y
     = Exit (if start =? end_ then 3 else 0)
         (firstn (Z.to_nat (end_ - start))
            (skipn (Z.to_nat start) (mmap yf)))).
Proof.
  intros Hok Hterm Hx Hy Hw.
  pose proof (terminated_size_pos yf Hok Hterm) as Hpos.
  pose proof (yfile_ok_size yf Hok) as Hsz.
  pose proof (yfile_ok_max yf Hok) as Hmax. unfold max_size in Hmax.
  assert (Hmap : mmap yf <> [])
    by (intros E; rewrite E in Hsz; cbn [length] in Hsz; lia).
  pose proof (bisect_way_over_range yf Hok Hterm x CM_LE 0 (size yf) (ofs yf)
                ltac:(lia) ltac:(lia) ltac:(intros E; contradiction))
    as (o & g1 & Hr1 & Ho & Hg1 & _).
  pose proof Hr1 as Hloop.
  rewrite <- bisect_way_minus_one_at, set_ofs_ofs in Hr1 by (auto; lia).
  pose proof (next_bol_bounds yf Hok Hterm o ltac:(lia)) as Hnb.
  pose proof (next_bol_is_bol yf Hok Hterm o ltac:(lia)) as Hbol.
  set (start := next_bol yf o) in *. clearbody start.
  unfold main_interval, run, bisect_interval.
  rewrite (bind_ok _ _ _ _ _ Hr1). cbv beta.
  destruct (cm_eqb cm CM_LE && (Z.of_nat (length x) =? Z.of_nat (length y))
            && bytes_eqb x y) eqn:Esame.
  - exists start, start. split; [reflexivity|]. split; [lia|].
    split; [exact Hbol|]. intros Hlt. split; [lia|]. split; [exact Hbol|].
    cbn [ret].
    rewrite print_range_works by (cbn [mmap set_ofs]; auto; lia).
    cbn [mmap set_ofs]. rewrite Z.eqb_refl.
    destruct (start >=? start) eqn:E; [reflexivity|lia].
  - destruct (Z_lt_le_dec start (size yf)) as [Hlt|Hge].
    + pose proof (bisect_way_over_range yf Hok Hterm y cm start (size yf) g1
                    ltac:(lia) ltac:(lia) ltac:(intros E; contradiction))
        as (o2 & g2 & Hr2 & Ho2 & _).
      rewrite <- bisect_way_minus_one_at in Hr2 by (auto; lia).
      pose proof (next_bol_bounds yf Hok Hterm o2 ltac:(lia)) as Hnb2.
      pose proof (next_bol_is_bol yf Hok Hterm o2 ltac:(lia)) as Hbol2.
      set (end_ := next_bol yf o2) in *. clearbody end_.
      rewrite (bind_ok _ _ _ _ _ Hr2). cbn [ret value fmap_result fst].
      exists start, end_. split; [reflexivity|]. split; [lia|].
      split; [exact Hbol|]. intros _. split; [lia|]. split; [exact Hbol2|].
      rewrite print_range_works by (cbn [mmap set_ofs]; auto; lia).
      cbn [mmap set_ofs].
      destruct (Z.eqb_spec start end_) as [E|E];
        destruct (start >=? end_) eqn:E'; try reflexivity; lia.
    + destruct (bisect_way_ends_in_file yf start g1 y cm Hok Hterm)
        as (e & yf' & Hr2 & He); [lia | |].
      { destruct (clamp_to_size yf Hok ltac:(lia)) as [Hc _].
        revert Hloop. unfold bisect_way, yfgetsize. cbn [size set_ofs].
        rewrite Hc.
        assert (E : (Z.of_nat (length x) =? 0) = false)
          by (apply Z.eqb_neq; destruct x; [contradiction|cbn [length]; lia]).
        rewrite E. cbn [andb].
        destruct (0 >=? size yf) eqn:E1; [lia|]. intros Hloop.
        split; [|lia].
        change g1 with (ofs (set_ofs yf g1)).
        eapply (bisect_way_loop_cursor yf Hok Hterm x CM_LE);
          [ | | | exact Hloop]; lia. }
      rewrite (bind_ok _ _ _ _ _ Hr2). cbn [ret value fmap_result fst].
      exists start, e. split; [reflexivity|]. split; [lia|].
      split; [exact Hbol|]. intros Hlt. lia.
Qed.

Lemma contents_mode_prints_whole_lines_witness :
  exists start end_,
    value (bisect_interval 0 (-1) CM_LT (bytes_of_string "a")
             (bytes_of_string "b")
             (yfile_of (file_of_lines ["c"; "a"; "b"]%string) 0))
    = Ok (start, end_) /\
    0 <= start <= size (yfile_of (file_of_lines ["c"; "a"; "b"]%string) 0) /\
    is_bol (yfile_of (file_of_lines ["c"; "a"; "b"]%string) 0) start = true /\
    (start < size (yfile_of (file_of_lines ["c"; "a"; "b"]%string) 0) ->
     start <= end_
       <= size (yfile_of (file_of_lines ["c"; "a"; "b"]%string) 0) /\
     is_bol (yfile_of (file_of_lines ["c"; "a"; "b"]%string) 0) end_ = true /\
     main_interval (world_of (file_of_lines ["c"; "a"; "b"]%string) 0)
       (yfile_of (file_of_lines ["c"; "a"; "b"]%string) 0)
       CM_LT PR_CONTENTS (bytes_of_string "a") (bytes_of_string "b")
     = Exit (if start =? end_ then 3 else 0)
         (firstn (Z.to_nat (end_ - start))
            (skipn (Z.to_nat start)
               (mmap (yfile_of (file_of_lines ["c"; "a"; "b"]%string) 0))))).
Proof.
  apply contents_mode_prints_whole_lines;
    [reflexivity | reflexivity | discriminate | discriminate
    | intros buf; reflexivity].
Defined.

(** ** The prototype's resolver *)

Lemma strcspn_lf_line (rest : list byte) :
  forall o i,
    In LF rest -> ~ In 0 (until_lf rest) ->
    Bisect.strcspn_lf rest o i = Ok (i + Z.of_nat (length (until_lf rest))).
Proof.
  induction rest as [|b rest IH]; intros o i Hin Hnul; [contradiction|].
  cbn [Bisect.strcspn_lf until_lf] in *.
  destruct (Z.eqb_spec b LF) as [->|Hb].
  - cbn [orb length]. rewrite Bool.orb_true_r. f_equal. cbn. lia.
  - destruct (Z.eqb_spec b 0) as [->|Hz].
    + exfalso. apply Hnul. now left.
    + cbn [orb]. rewrite IH.
      * f_equal. cbn [length]. lia.
      * destruct Hin as [E|Hin]; [congruence|exact Hin].
      * intros H. apply Hnul. now right.
Qed.

Lemma firstn_until_lf (rest : list byte) :
  firstn (length (until_lf rest)) rest = until_lf rest.
Proof.
  induction rest as [|b rest IH]; [reflexivity|].
  cbn [until_lf]. destruct (b =? LF); [reflexivity|].
  cbn [length firstn]. now rewrite IH.
Qed.

Lemma get_fofs_loop_advances (rest : list byte) :
  forall o f,
    0 <= o -> o + Z.of_nat (length rest) <= max_size ->
    get_fofs_loop rest o = Ok f -> o < f.
Proof.
  induction rest as [|b rest IH]; intros o f Ho Hmax; [discriminate|].
  unfold max_size in Hmax. cbn [length] in Hmax. cbn [get_fofs_loop].
  rewrite off_t_wrap_small by lia.
  destruct (char_to_int b =? LF).
  - intros H. injection H as <-. lia.
  - intros H. apply IH in H; [lia | lia | unfold max_size; lia].
Qed.

Lemma proto_get_fofs_loop_agrees (rest : list byte) :
  forall sz o f,
    (forall b, In b rest -> 0 <= b < 256) ->
    0 <= o -> o + Z.of_nat (length rest) = sz -> sz <= max_size ->
    get_fofs_loop rest o = Ok f ->
    In LF (skipn (Z.to_nat (f - o)) rest) ->
    ~ In 0 rest ->
    Bisect.get_fofs_loop rest sz o
    = Ok (f, until_lf (skipn (Z.to_nat (f - o)) rest) ++ [LF]).
Proof.
  induction rest as [|b rest IH]; intros sz o f Hb Ho Hsz Hmax Hf Hin Hnul;
    [discriminate|].
  unfold max_size in Hmax. cbn [length] in Hsz.
  pose proof (get_fofs_loop_advances (b :: rest) o f Ho
                ltac:(cbn [length]; unfold max_size; lia) Hf) as Hadv.
  revert Hf. cbn [Bisect.get_fofs_loop get_fofs_loop].
  rewrite (to_ull_small sz), (to_ull_small o) by lia.
  destruct (sz =? o) eqn:E; [lia|].
  rewrite off_t_wrap_small by lia.
  replace (Z.to_nat (f - o)) with (S (Z.to_nat (f - (o + 1)))) in * by lia.
  cbn [skipn] in *.
  destruct (char_to_int b =? LF).
  - intros H. injection H as <-.
    replace (Z.to_nat (o + 1 - (o + 1))) with 0%nat in * by lia.
    cbn [skipn] in *.
    rewrite strcspn_lf_line.
    + cbn [Z.add]. rewrite Nat2Z.id, firstn_until_lf. reflexivity.
    + exact Hin.
    + intros H. apply Hnul. right. clear - H.
      induction rest as [|c rest IHr]; [contradiction|].
      cbn [until_lf] in H. destruct (c =? LF); [contradiction|].
      destruct H as [->|H]; [now left|right; auto].
  - intros H.
    apply (IH sz (o + 1) f);
      [ intros c Hc; apply Hb; now right | lia | lia | unfold max_size; lia
      | exact H | exact Hin | intros H0; apply Hnul; now right ].
Qed.

(** X17.  Between two line terminators the prototype and the tool agree: where
    a terminator follows the byte before the offset and another one follows
    that, and no byte of the file is NUL, the prototype's [get_fofs] resolves
    the offset to the line start that the tool's [get_fofs] resolves it to,
    and prints the line that begins there. *)
Theorem proto_get_fofs_agrees (yf : yfile) (o e1 e2 : Z) :
  yfile_ok yf -> 0 < o -> o - 1 <= e1 < e2 ->
  byte_at yf e1 = Some LF -> byte_at yf e2 = Some LF ->
  forallb (fun b => negb (b =? 0)) (mmap yf) = true ->
  exists f,
    value (get_fofs o yf) = Ok f /\
    o <= f <= e1 + 1 /\
    Bisect.get_fofs (mmap yf) (size yf) o = Ok (f, line_at yf f ++ [LF]).
Proof.
  intros Hok Ho He H1 H2 Hnul.
  pose proof (yfile_ok_size yf Hok) as Hsz.
  pose proof (yfile_ok_max yf Hok) as Hmax. unfold max_size in Hmax.
  pose proof (byte_at_lt_size yf e2 LF Hok H2) as He2.
  destruct (get_fofs_resolves yf o e1 Hok Ho ltac:(lia) H1)
    as (f & Hget & Hf & _).
  exists f. split; [now rewrite Hget|]. split; [exact Hf|].
  rewrite get_fofs_unfold in Hget by (auto; lia).
  destruct (get_fofs_loop (skipn (Z.to_nat (o - 1)) (mmap yf)) (o - 1))
    as [f'|] eqn:Hloop; [|discriminate].
  injection Hget as ->.
  unfold Bisect.get_fofs.
  destruct (o <? 0) eqn:E1; [lia|]. destruct (o =? 0) eqn:E2; [lia|].
  rewrite (to_ull_small o), (to_ull_small (size yf)) by lia.
  destruct (o >? size yf) eqn:E3; [lia|].
  rewrite off_t_wrap_small by lia.
  assert (Hskip : skipn (Z.to_nat (f - (o - 1)))
                    (skipn (Z.to_nat (o - 1)) (mmap yf))
                  = skipn (Z.to_nat f) (mmap yf)).
  { rewrite skipn_skipn. f_equal. lia. }
  rewrite (proto_get_fofs_loop_agrees _ (size yf) (o - 1) f).
  - rewrite Hskip. reflexivity.
  - intros b Hb. apply (yfile_ok_bytes yf b Hok).
    rewrite <- (firstn_skipn (Z.to_nat (o - 1)) (mmap yf)).
    apply in_or_app. now right.
  - lia.
  - rewrite length_skipn. lia.
  - unfold max_size. lia.
  - exact Hloop.
  - rewrite Hskip. apply byte_at_Some in H2 as [_ H2].
    apply nth_error_In with (n := (Z.to_nat e2 - Z.to_nat f)%nat).
    rewrite nth_error_skipn. rewrite <- H2. f_equal. lia.
  - intros Hin.
    assert (Hin' : In 0 (mmap yf)).
    { rewrite <- (firstn_skipn (Z.to_nat (o - 1)) (mmap yf)).
      apply in_or_app. now right. }
    rewrite forallb_forall in Hnul. apply Hnul in Hin'. discriminate.
Qed.

Lemma proto_get_fofs_agrees_witness :
  exists f,
    value (get_fofs 1 (yfile_of abc_file 0)) = Ok f /\
    1 <= f <= 1 + 1 /\
    Bisect.get_fofs (mmap (yfile_of abc_file 0)) (size (yfile_of abc_file 0)) 1
    = Ok (f, line_at (yfile_of abc_file 0) f ++ [LF]).
Proof.
  apply (proto_get_fofs_agrees (yfile_of abc_file 0) 1 1 3);
    [reflexivity | lia | lia | reflexivity | reflexivity | reflexivity].
Defined.

(** ** The prototype's comparator *)

Lemma skipn_cons_nth {A} (l : list A) :
  forall n c rest,
    skipn n l = c :: rest ->
    nth_error l n = Some c /\ skipn (S n) l = rest.
Proof.
  induction l as [|a l IH]; intros n c rest H.
  - destruct n; discriminate.
  - destruct n as [|n].
    + cbn in H. injection H as -> ->. split; reflexivity.
    + cbn [skipn nth_error] in *. apply IH in H. exact H.
Qed.

Lemma proto_compare_line_loop_verdict (file : list byte) (x : list byte) :
  forall f : nat,
    forallb (fun b => (0 <=? b) && (b <? 128)) file = true ->
    Z.of_nat (length file) <= max_size ->
    In LF (skipn f file) ->
    Bisect.compare_line_loop file (Z.of_nat f) x
    = Ok (prefixb (until_lf (skipn f file)) x
          || negb (prefixb x (until_lf (skipn f file)))
             && lex_leb x (until_lf (skipn f file))).
Proof.
  induction x as [|b x IH]; intros f Hascii Hmax Hin;
    unfold max_size in Hmax;
    destruct (skipn f file) as [|c rest] eqn:Hs; try contradiction;
    destruct (skipn_cons_nth file f c rest Hs) as [Hnth Hrest];
    assert (Hf : (f < length file)%nat)
      by (apply nth_error_Some; congruence);
    assert (Hc : 0 <= c < 128)
      by (rewrite forallb_forall in Hascii;
          apply nth_error_In in Hnth; apply Hascii in Hnth; lia);
    cbn [Bisect.compare_line_loop]; unfold Bisect.read;
    (destruct (Z.ltb_spec (Z.of_nat f) 0) as [E|_]; [lia|]);
    rewrite Nat2Z.id, Hnth;
    assert (Hu : Bisect.to_u32 (char_to_int c) = c)
      by (unfold Bisect.to_u32, char_to_int;
          destruct (Z.ltb_spec c 128); [apply Z.mod_small; lia|lia]);
    rewrite Hu; cbn [until_lf];
    destruct (Z.eqb_spec c LF) as [->|Hne]; try reflexivity.
  cbn [prefixb lex_leb].
  destruct (Z.eqb_spec b c) as [->|Hbc].
  - cbn [negb]. rewrite off_t_wrap_small by lia.
    replace (Z.of_nat f + 1) with (Z.of_nat (S f)) by lia.
    rewrite IH, Hrest; [|assumption|unfold max_size; lia|].
    + rewrite Z.eqb_refl, Z.ltb_irrefl. cbn [andb orb]. reflexivity.
    + rewrite Hrest. destruct Hin as [E|Hin]; [congruence|exact Hin].
  - cbn [negb].
    destruct (Z.eqb_spec c b) as [E|_]; [congruence|].
    cbn [andb orb negb]. now rewrite Bool.orb_false_r.
Qed.

(** X18.  In a file of bytes below 128, on a complete line, the prototype's
    [compare_line] answers [true] when the line is a prefix of the key,
    [false] when the key is a proper prefix of the line, and otherwise whether
    the key is below the line: it orders the two as the tool's [CM_LE] asks
    unless one is a proper prefix of the other, and then the other way round.
    *)
Theorem proto_compare_line_verdict (yf : yfile) (f : Z) (x : list byte) :
  yfile_ok yf -> ascii_only yf = true ->
  0 <= f -> In LF (skipn (Z.to_nat f) (mmap yf)) ->
  exists v,
    Bisect.compare_line (mmap yf) (size yf) f x = Ok v /\
    (prefixb (line_at yf f) x = true -> v = true) /\
    (prefixb x (line_at yf f) = true -> x <> line_at yf f -> v = false) /\
    (prefixb (line_at yf f) x = false -> prefixb x (line_at yf f) = false ->
     v = key_rel CM_LE x (line_at yf f)).
Proof.
  intros Hok Hascii Hf Hin.
  pose proof (yfile_ok_size yf Hok) as Hsz.
  pose proof (yfile_ok_max yf Hok) as Hmax. unfold max_size in Hmax.
  assert (Hlt : f < size yf).
  { destruct (skipn (Z.to_nat f) (mmap yf)) as [|c rest] eqn:Hs;
      [contradiction|].
    apply skipn_cons_nth in Hs as [Hnth _].
    assert ((Z.to_nat f < length (mmap yf))%nat)
      by (apply nth_error_Some; congruence).
    lia. }
  unfold Bisect.compare_line.
  rewrite (to_ull_small f), (to_ull_small (size yf)) by lia.
  destruct (Z.eqb_spec f (size yf)) as [E|_]; [lia|].
  pose proof (proto_compare_line_loop_verdict (mmap yf) x (Z.to_nat f)
                Hascii ltac:(unfold max_size; lia) Hin) as Hloop.
  rewrite Z2Nat.id in Hloop by lia.
  rewrite Hloop. fold (line_at yf f).
  eexists. split; [reflexivity|]. split; [|split].
  - intros ->. reflexivity.
  - intros Hp Hne.
    assert (Hnp : prefixb (line_at yf f) x = false).
    { destruct (prefixb (line_at yf f) x) eqn:E; [|reflexivity].
      exfalso. apply Hne. clear - Hp E.
      revert Hp E. generalize (line_at yf f) as l.
      induction x as [|b x IH]; intros [|c l]; cbn [prefixb];
        try discriminate; try reflexivity.
      intros H1 H2. apply andb_true_iff in H1 as [H1 H1'].
      apply andb_true_iff in H2 as [_ H2'].
      apply Z.eqb_eq in H1. subst c. f_equal. now apply IH. }
    rewrite Hnp, Hp. reflexivity.
  - intros -> ->. reflexivity.
Qed.

Lemma proto_compare_line_verdict_witness :
  exists v,
    Bisect.compare_line (mmap (yfile_of abc_file 0))
      (size (yfile_of abc_file 0)) 4 (bytes_of_string "b") = Ok v /\
    (prefixb (line_at (yfile_of abc_file 0) 4) (bytes_of_string "b") = true ->
     v = true) /\
    (prefixb (bytes_of_string "b") (line_at (yfile_of abc_file 0) 4) = true ->
     bytes_of_string "b" <> line_at (yfile_of abc_file 0) 4 -> v = false) /\
    (prefixb (line_at (yfile_of abc_file 0) 4) (bytes_of_string "b") = false ->
     prefixb (bytes_of_string "b") (line_at (yfile_of abc_file 0) 4) = false ->
     v = key_rel CM_LE (bytes_of_string "b")
           (line_at (yfile_of abc_file 0) 4)).
Proof.
  apply proto_compare_line_verdict;
    [reflexivity | reflexivity | lia | vm_compute; tauto].
Defined.
